(** * ip_diffim: PSF-matching kernel fit, difference assembly and footprint search

    A shallow embedding of [src/ImageSubtract.cc]:
    - [PsfMatchingFunctor::apply]: assembly of the normal equations [M x = B]
      by a walk over the valid pixel window, mirroring of [M], the solver
      cascade, the error covariance, the sanity checks and the stores into
      the functor;
    - [convolveAndSubtract] on a plain-[Image] template and on a
      [MaskedImage] template, with [addSomethingToImage];
    - [getCollectionOfFootprintsForPsfMatching]: the threshold-decay loop;
    - [generateDeltaFunctionKernelSet] and [generateAlardLuptonKernelSet].

    C++ [int] and [unsigned int] are modelled in [Z] ([unsigned] with its
    reduction modulo [2^32] written out); signed overflow is undefined
    behaviour in the source and is not modelled.  Pixel and matrix
    arithmetic is IEEE arithmetic in the source; here it is an interface
    ([Arith]) whose operations are left uninterpreted, so that every
    theorem holds for any rounding behaviour, and which is instantiated
    with primitive binary64 floats for concrete runs.  The Eigen
    decompositions and the afw collaborators (convolution, detection,
    footprint growth) are libraries outside the repository: they are
    interfaces too ([EigenOps], [KernelOps], [DetectionOps]), with
    reference instances for concrete runs. *)

From Stdlib Require Import String ZArith List Bool Lia Floats Uint63.
Import ListNotations.
Local Open Scope Z_scope.
Local Open Scope list_scope.

Set Implicit Arguments.

(** ** Numeric interface *)

(** [I] is the template parameter [ImageT] (float or double), [V] is [VarT]
    and [D] is C++ [double].  Every operation the source applies to a number
    has a field here. *)
Class Arith (I V D : Type) : Type := {
  d0 : D;                        (* 0.0 *)
  d1 : D;                        (* 1.0 *)
  dm1 : D;                       (* -1.0 *)
  dadd : D -> D -> D;
  dmul : D -> D -> D;
  ddiv : D -> D -> D;
  dsqrt : D -> D;
  disnan : D -> bool;            (* std::isnan *)
  dltb : D -> D -> bool;         (* x < y *)
  dneb : D -> D -> bool;         (* x != y *)
  imul : I -> I -> I;            (* ImageT * ImageT *)
  i2d : I -> D;                  (* promotion ImageT -> double *)
  v2d : V -> D;                  (* promotion VarT -> double *)
  iadd_d : I -> D -> I;          (* pixel += double *)
  isub : I -> I -> I;            (* pixel -= pixel *)
  imul_d : I -> D -> I;          (* pixel *= double *)
  d_of_int : Z -> D;             (* conversion int -> double *)
  int_of_d : D -> Z;             (* int(double): truncation *)
  i_fresh : I;                   (* a pixel of a newly allocated image *)
  v_fresh : V                    (* a pixel of a newly allocated variance *)
}.

(** [x > y] on doubles. *)
Definition dgtb {I V D} `{Arith I V D} (x y : D) : bool := dltb y x.

(** ** Counted loops *)

(** The values an [int] loop variable takes in [for (i = lo; i < hi; ++i)]. *)
Fixpoint zrange_from (lo : Z) (n : nat) : list Z :=
  match n with
  | O => []
  | S n' => lo :: zrange_from (lo + 1) n'
  end.

Definition zrange (lo hi : Z) : list Z := zrange_from lo (Z.to_nat (hi - lo)).

(** [for (int i = lo; i < hi; ++i) s = body i s;] *)
Definition for_loop {St : Type} (lo hi : Z) (body : Z -> St -> St) (s : St) : St :=
  fold_left (fun s i => body i s) (zrange lo hi) s.

(** The same loop when the body may throw: the first exception leaves it. *)
Fixpoint for_each_E {E St : Type} (body : Z -> St -> E + St) (l : list Z) (s : St)
  : E + St :=
  match l with
  | [] => inr s
  | i :: l' =>
      match body i s with
      | inl e => inl e
      | inr s' => for_each_E body l' s'
      end
  end.

Definition for_loop_E {E St : Type} (lo hi : Z) (body : Z -> St -> E + St) (s : St)
  : E + St :=
  for_each_E body (zrange lo hi) s.

(** ** Images and locators *)

Module Image.
Record t (T : Type) : Type := mk {
  getWidth : Z;
  getHeight : Z;
  getX0 : Z;
  getY0 : Z;
  pixel : Z -> Z -> T          (* the pixel at column x, row y *)
}.
Arguments mk {T}.
Arguments getWidth {T}.
Arguments getHeight {T}.
Arguments getX0 {T}.
Arguments getY0 {T}.
Arguments pixel {T}.

Definition sameDimensions {T U} (a : t T) (b : t U) : Prop :=
  getWidth a = getWidth b /\ getHeight a = getHeight b.

(** The pixel operators of afw, on images of equal dimensions (on others
    they throw, which is outside this model). *)

(** [*ptr = v] at column [x], row [y] *)
Definition set {T} (a : t T) (x y : Z) (v : T) : t T :=
  mk (getWidth a) (getHeight a) (getX0 a) (getY0 a)
     (fun x' y' => if (x' =? x) && (y' =? y) then v else pixel a x' y').

(** The image [a] with every pixel overwritten, pixel [(x, y)] by [f x y]. *)
Definition withPixels {T} (a : t T) (f : Z -> Z -> T) : t T :=
  mk (getWidth a) (getHeight a) (getX0 a) (getY0 a) f.

(** [a <<= b]: the pixels of [b] copied into [a] *)
Definition assign {T} (a b : t T) : t T := withPixels a (pixel b).

(** [a op= b], pixel by pixel *)
Definition zipWith {T U} (op : T -> U -> T) (a : t T) (b : t U) : t T :=
  mk (getWidth a) (getHeight a) (getX0 a) (getY0 a)
     (fun x y => op (pixel a x y) (pixel b x y)).

(** [a op= scalar] *)
Definition mapPixels {T} (op : T -> T) (a : t T) : t T :=
  mk (getWidth a) (getHeight a) (getX0 a) (getY0 a) (fun x y => op (pixel a x y)).

(** [a.setXY0(x0, y0)] *)
Definition setXY0 {T} (a : t T) (x0 y0 : Z) : t T :=
  mk (getWidth a) (getHeight a) x0 y0 (pixel a).
End Image.

(** [MaskedImage]: image, mask and variance planes.  Mask pixels are
    unsigned bit sets. *)
Module MaskedImage.
Record t (I V : Type) : Type := mk {
  getImage : Image.t I;
  getMask : Image.t N;
  getVariance : Image.t V
}.
Arguments mk {I V}.
Arguments getImage {I V}.
Arguments getMask {I V}.
Arguments getVariance {I V}.
End MaskedImage.

(** [xy_locator]: a position in an image; [*loc] reads the pixel there. *)
Module Locator.
Record t (T : Type) : Type := mk {
  image : Image.t T;
  x : Z;
  y : Z
}.
Arguments mk {T}.
Arguments image {T}.
Arguments x {T}.
Arguments y {T}.

Definition xy_at {T} (img : Image.t T) (col row : Z) : t T := mk img col row.
Definition deref {T} (l : t T) : T := Image.pixel (image l) (x l) (y l).
(** [++loc.x()] *)
Definition incr_x {T} (l : t T) : t T := mk (image l) (x l + 1) (y l).
(** [loc += std::make_pair(dx, dy)] *)
Definition advance {T} (l : t T) (step : Z * Z) : t T :=
  mk (image l) (x l + fst step) (y l + snd step).
(** Two locators under which the same value is read. *)
Definition sameValue {T} (l l' : t T) : Prop := deref l = deref l'.
End Locator.

(** ** Dense matrices and vectors (Eigen::MatrixXd, Eigen::VectorXd) *)

Section Dense.
Context {I V D : Type} `{Arith I V D}.

Record MatrixXd : Type := mkMatrix {
  m_rows : Z;
  m_cols : Z;
  m_coeff : Z -> Z -> D
}.

Record VectorXd : Type := mkVector {
  v_rows : Z;
  v_coeff : Z -> D
}.

(** [Eigen::MatrixXd::Zero(r, c)], [Eigen::VectorXd::Zero(n)] *)
Definition MatrixXd_Zero (r c : Z) : MatrixXd := mkMatrix r c (fun _ _ => d0).
Definition VectorXd_Zero (n : Z) : VectorXd := mkVector n (fun _ => d0).

(** [M(i, j) = x] *)
Definition mat_set (M : MatrixXd) (i j : Z) (x : D) : MatrixXd :=
  mkMatrix (m_rows M) (m_cols M)
    (fun a b => if (a =? i) && (b =? j) then x else m_coeff M a b).

(** [M(i, j) += x] *)
Definition mat_add (M : MatrixXd) (i j : Z) (x : D) : MatrixXd :=
  mat_set M i j (dadd (m_coeff M i j) x).

(** [B(i) = x], [B(i) += x] *)
Definition vec_set (B : VectorXd) (i : Z) (x : D) : VectorXd :=
  mkVector (v_rows B) (fun a => if a =? i then x else v_coeff B a).

Definition vec_add (B : VectorXd) (i : Z) (x : D) : VectorXd :=
  vec_set B i (dadd (v_coeff B i) x).

(** [M.transpose()] and [v.asDiagonal()] move coefficients without arithmetic. *)
Definition transpose (M : MatrixXd) : MatrixXd :=
  mkMatrix (m_cols M) (m_rows M) (fun a b => m_coeff M b a).

Definition asDiagonal (v : VectorXd) : MatrixXd :=
  mkMatrix (v_rows v) (v_rows v) (fun a b => if a =? b then v_coeff v a else d0).

End Dense.

Arguments MatrixXd D : clear implicits.
Arguments VectorXd D : clear implicits.

(** The Eigen operations whose arithmetic is inside the library.  A solver
    returns [Some x] when [solve(B, &Soln)] returns true with [Soln = x]. *)
Class EigenOps (D : Type) : Type := {
  ldlt_solve : MatrixXd D -> VectorXd D -> option (VectorXd D);
  llt_solve : MatrixXd D -> VectorXd D -> option (VectorXd D);
  lu_solve : MatrixXd D -> VectorXd D -> option (VectorXd D);
  (* SelfAdjointEigenSolver: eigenvectors and eigenvalues, or None when
     the stage raises *)
  selfAdjointEigenSolver : MatrixXd D -> option (MatrixXd D * VectorXd D);
  mat_mul : MatrixXd D -> MatrixXd D -> MatrixXd D;
  mat_vec_mul : MatrixXd D -> VectorXd D -> VectorXd D;
  llt_matrixL : MatrixXd D -> MatrixXd D;      (* M.llt().matrixL() *)
  inverse : MatrixXd D -> MatrixXd D
}.

(** The afw collaborators of the fit.  [K] is [lsst::afw::math::Kernel]. *)
Class KernelOps (I D K : Type) : Type := {
  kGetWidth : K -> Z;
  kGetHeight : K -> Z;
  kGetCtrX : K -> Z;
  kGetCtrY : K -> Z;
  (* math::convolve(out, in, kernel, false): the pixels written to [out] *)
  convolve : Image.t I -> K -> Z -> Z -> I;
  (* new math::LinearCombinationKernel(basisList, parameters) *)
  linearCombinationKernel : list K -> list D -> K;
  (* image::positionToIndex on an int *)
  positionToIndex : Z -> D
}.

(** ** std::vector<double> *)

Fixpoint list_set {A : Type} (l : list A) (n : nat) (x : A) : list A :=
  match l, n with
  | [], _ => []
  | _ :: t, O => x :: t
  | h :: t, S n' => h :: list_set t n' x
  end.

(** [v[i] = x] for an index inside the vector (the source never writes
    outside). *)
Definition stdvec_set {A : Type} (v : list A) (i : Z) (x : A) : list A :=
  if i <? 0 then v else list_set v (Z.to_nat i) x.

(** ** PsfMatchingFunctor *)

Section Fit.
Context {I V D K : Type} `{Arith I V D} `{EigenOps D} `{KernelOps I D K}.

Inductive Exception : Type :=
| KernelSolutionFailed
    (* Unable to determine kernel solution in PsfMatchingFunctor::apply *)
| KernelSolutionNaN (idx : Z)
    (* Unable to determine kernel solution %d (nan) *)
| KernelUncertaintyNaN (idx : Z)
    (* Unable to determine kernel uncertainty %d (nan) *)
| KernelNegativeVariance (idx : Z) (value : D)
    (* Unable to determine kernel uncertainty, negative variance %d (%.3e) *)
| BackgroundUncertaintyNaN
    (* Unable to determine background uncertainty (nan) *)
| BackgroundNegativeVariance (value : D)
    (* Unable to determine background uncertainty, negative variance (%.3e) *)
| NoFootprints
    (* Unable to find any footprints for Psf matching *).

(** The members of the functor; a null [shared_ptr] is [None]. *)
Record PsfMatchingFunctor : Type := mkFunctor {
  _basisList : list K;
  _background : D;
  _backgroundError : D;
  _kernel : option K;
  _kernelError : option K
}.

(** The constructor. *)
Definition newPsfMatchingFunctor (basisList : list K) : PsfMatchingFunctor :=
  mkFunctor basisList d0 d0 None None.

(** [reset()]: every statement of its body is commented out. *)
Definition reset (self : PsfMatchingFunctor) : PsfMatchingFunctor := self.

(** *** Basis convolutions and the valid window *)

(** The loop over [kiter], [citer]: each output image is allocated with the
    dimensions of [imageToConvolve] and filled by [math::convolve]. *)
Definition convolveBasis (imageToConvolve : Image.t I) (basisList : list K)
  : list (Image.t I) :=
  map (fun kernel =>
         Image.mk (Image.getWidth imageToConvolve)
                  (Image.getHeight imageToConvolve) 0 0
                  (convolve imageToConvolve kernel))
      basisList.

Record Window : Type := mkWindow {
  startCol : Z;
  startRow : Z;
  endCol : Z;
  endRow : Z
}.

(** [startCol], [startRow], [endCol], [endRow] from the first basis kernel
    ([*kiter]) and the first convolved image ([*citer]). *)
Definition validWindow (kiter : K) (citer : Image.t I) : Window :=
  mkWindow (kGetCtrX kiter)
           (kGetCtrY kiter)
           (Image.getWidth citer - (kGetWidth kiter - kGetCtrX kiter) + 1)
           (Image.getHeight citer - (kGetHeight kiter - kGetCtrY kiter) + 1).

(** *** The pixel walk *)

(** The loop over [citerj], starting at [citeri], with counter [kidxj]. *)
Fixpoint accumulate_j (cdImagei : I) (iVariance : D) (kidxi : Z)
  (citerj : list (Locator.t I)) (kidxj : Z) (M : MatrixXd D) : MatrixXd D :=
  match citerj with
  | [] => M
  | locj :: rest =>
      let cdImagej := Locator.deref locj in
      accumulate_j cdImagei iVariance kidxi rest (kidxj + 1)
        (mat_add M kidxi kidxj (dmul (i2d (imul cdImagei cdImagej)) iVariance))
  end.

(** The loop over [citeri] with counter [kidxi]. *)
Fixpoint accumulate_i (ncImage : I) (iVariance : D) (nParameters : Z)
  (citeri : list (Locator.t I)) (kidxi : Z) (MB : MatrixXd D * VectorXd D)
  : MatrixXd D * VectorXd D :=
  match citeri with
  | [] => MB
  | loci :: rest =>
      let cdImagei := Locator.deref loci in
      let M1 := accumulate_j cdImagei iVariance kidxi citeri kidxi (fst MB) in
      let B1 := vec_add (snd MB) kidxi
                  (dmul (i2d (imul ncImage cdImagei)) iVariance) in
      let M2 := mat_add M1 kidxi (nParameters - 1)
                  (dmul (i2d cdImagei) iVariance) in
      accumulate_i ncImage iVariance nParameters rest (kidxi + 1) (M2, B1)
  end.

Record WalkState : Type := mkWalk {
  wM : MatrixXd D;
  wB : VectorXd D;
  imageToConvolveLocator : Locator.t I;
  imageToNotConvolveLocator : Locator.t I;
  varianceLocator : Locator.t V;
  convolvedLocatorList : list (Locator.t I)
}.

(** The body of the [col] loop: one pixel. *)
Definition pixelStep (nParameters : Z) (st : WalkState) : WalkState :=
  let ncImage := Locator.deref (imageToNotConvolveLocator st) in
  let iVariance := ddiv d1 (v2d (Locator.deref (varianceLocator st))) in
  let MB := accumulate_i ncImage iVariance nParameters
              (convolvedLocatorList st) 0 (wM st, wB st) in
  let B' := vec_add (snd MB) (nParameters - 1) (dmul (i2d ncImage) iVariance) in
  let M' := mat_add (fst MB) (nParameters - 1) (nParameters - 1)
              (dmul d1 iVariance) in
  mkWalk M' B'
    (Locator.incr_x (imageToConvolveLocator st))
    (Locator.incr_x (imageToNotConvolveLocator st))
    (Locator.incr_x (varianceLocator st))
    (map Locator.incr_x (convolvedLocatorList st)).

(** The end of the [row] loop body: every locator moves by [rowStep]. *)
Definition nextRow (rowStep : Z * Z) (st : WalkState) : WalkState :=
  mkWalk (wM st) (wB st)
    (Locator.advance (imageToConvolveLocator st) rowStep)
    (Locator.advance (imageToNotConvolveLocator st) rowStep)
    (Locator.advance (varianceLocator st) rowStep)
    (map (fun l => Locator.advance l rowStep) (convolvedLocatorList st)).

Definition pixelWalk (nParameters : Z) (w : Window) (st : WalkState) : WalkState :=
  let rowStep := (- (endCol w - startCol w), 1) in
  for_loop (startRow w) (endRow w)
    (fun _row st =>
       nextRow rowStep
         (for_loop (startCol w) (endCol w)
            (fun _col st => pixelStep nParameters st) st))
    st.

(** *** Fill in rest of M *)

Definition mirror (nParameters : Z) (M : MatrixXd D) : MatrixXd D :=
  for_loop 0 nParameters
    (fun kidxi M =>
       for_loop (kidxi + 1) nParameters
         (fun kidxj M => mat_set M kidxj kidxi (m_coeff M kidxi kidxj)) M)
    M.

(** The normal equations of one fit: the walk from zeroed [M], [B], then
    the mirroring.  [None] is the undefined behaviour of dereferencing
    [begin()] of an empty basis list. *)
Definition assemble (basisList : list K)
  (imageToConvolve imageToNotConvolve : Image.t I) (varianceEstimate : Image.t V)
  : option (MatrixXd D * VectorXd D) :=
  let nKernelParameters := Z.of_nat (length basisList) in
  let nBackgroundParameters := 1 in
  let nParameters := nKernelParameters + nBackgroundParameters in
  let M := MatrixXd_Zero nParameters nParameters in
  let B := VectorXd_Zero nParameters in
  let convolvedImageList := convolveBasis imageToConvolve basisList in
  match basisList, convolvedImageList with
  | kiter :: _, citer :: _ =>
      let w := validWindow kiter citer in
      let st := mkWalk M B
                  (Locator.xy_at imageToConvolve (startCol w) (startRow w))
                  (Locator.xy_at imageToNotConvolve (startCol w) (startRow w))
                  (Locator.xy_at varianceEstimate (startCol w) (startRow w))
                  (map (fun img => Locator.xy_at img (startCol w) (startRow w))
                       convolvedImageList) in
      let st' := pixelWalk nParameters w st in
      Some (mirror nParameters (wM st'), wB st')
  | _, _ => None
  end.

(** *** The window as a list of pixels, and sums over it *)

(** The pixels [(col, row)] of a window, row by row, each row by increasing
    column. *)
Definition windowPixels (w : Window) : list (Z * Z) :=
  flat_map (fun row => map (fun col => (col, row)) (zrange (startCol w) (endCol w)))
           (zrange (startRow w) (endRow w)).

(** The sum of [term] over the pixels of the window, accumulated in that
    order from 0.0 (floating-point addition is not associative, so the order
    is part of the value). *)
Definition windowSum (w : Window) (term : Z * Z -> D) : D :=
  fold_left (fun acc p => dadd acc (term p)) (windowPixels w) d0.

(** The walk state whose locators all stand on pixel [(col, row)]. *)
Definition walkAt (imageToConvolve imageToNotConvolve : Image.t I)
  (varianceEstimate : Image.t V) (convolvedImageList : list (Image.t I))
  (MB : MatrixXd D * VectorXd D) (col row : Z) : WalkState :=
  mkWalk (fst MB) (snd MB)
    (Locator.xy_at imageToConvolve col row)
    (Locator.xy_at imageToNotConvolve col row)
    (Locator.xy_at varianceEstimate col row)
    (map (fun img => Locator.xy_at img col row) convolvedImageList).

(** The pixel of an image at [p = (col, row)], and the weight
    [v = 1/variance] of the fit at [p]. *)
Definition pixelAt {T : Type} (img : Image.t T) (p : Z * Z) : T :=
  Image.pixel img (fst p) (snd p).

Definition weight (varianceEstimate : Image.t V) (p : Z * Z) : D :=
  ddiv d1 (v2d (pixelAt varianceEstimate p)).

(** What one pixel adds to [M] and [B]. *)
Definition accumulatePixel (nParameters : Z)
  (imageToConvolve imageToNotConvolve : Image.t I)
  (varianceEstimate : Image.t V) (convolvedImageList : list (Image.t I))
  (MB : MatrixXd D * VectorXd D) (p : Z * Z) : MatrixXd D * VectorXd D :=
  let st := pixelStep nParameters
              (walkAt imageToConvolve imageToNotConvolve varianceEstimate
                 convolvedImageList MB (fst p) (snd p)) in
  (wM st, wB st).

(** *** The solver cascade *)

(** The loop of the last resort: [if (eValues(i) != 0.0) eValues(i) = 1.0/eValues(i)]. *)
Definition invertNonzero (eValues : VectorXd D) : VectorXd D :=
  for_loop 0 (v_rows eValues)
    (fun i eValues =>
       if dneb (v_coeff eValues i) d0
       then vec_set eValues i (ddiv d1 (v_coeff eValues i))
       else eValues)
    eValues.

Definition traceLDLT : string := "Unable to determine kernel via Cholesky LDL^T".
Definition traceLLT : string := "Unable to determine kernel via Cholesky LL^T".
Definition traceLU : string := "Unable to determine kernel via LU".
Definition traceEigen : string := "Unable to determine kernel via eigen-values".

(** The nested [if]s on [M.ldlt().solve], [M.llt().solve], [M.lu().solve]
    and the [try] block.  The first component is the list of the trace
    messages written, oldest first; the second is [Soln] or the exception
    thrown from the [catch]. *)
Definition solveCascade (M : MatrixXd D) (B : VectorXd D)
  : list string * (Exception + VectorXd D) :=
  match ldlt_solve M B with
  | Some Soln => ([], inr Soln)
  | None =>
      match llt_solve M B with
      | Some Soln => ([traceLDLT], inr Soln)
      | None =>
          match lu_solve M B with
          | Some Soln => ([traceLDLT; traceLLT], inr Soln)
          | None =>
              match selfAdjointEigenSolver M with
              | Some (R, eValues) =>
                  let eValues := invertNonzero eValues in
                  ([traceLDLT; traceLLT; traceLU],
                   inr (mat_vec_mul
                          (mat_mul (mat_mul R (asDiagonal eValues)) (transpose R))
                          B))
              | None =>
                  ([traceLDLT; traceLLT; traceLU; traceEigen],
                   inl KernelSolutionFailed)
              end
          end
      end
  end.

(** *** Parameter uncertainties *)

(** [Cov = M.transpose() * M], [llt = Cov.llt()],
    [Error2 = llt.matrixL().transpose().inverse() * llt.matrixL().inverse()]. *)
Definition errorCovariance (M : MatrixXd D) : MatrixXd D :=
  let Cov := mat_mul (transpose M) M in
  let L := llt_matrixL Cov in
  mat_mul (inverse (transpose L)) (inverse L).

(** *** Translation into kernels, with the sanity checks *)

Record Translate : Type := mkTranslate {
  t_idx : Z;
  kValues : list D;
  kErrValues : list D
}.

(** The body of the [col] loop of the translation; [idx++] is the loop's
    increment. *)
Definition translateStep (Soln : VectorXd D) (Error2 : MatrixXd D) (st : Translate)
  : Exception + Translate :=
  let idx := t_idx st in
  if disnan (v_coeff Soln idx) then inl (KernelSolutionNaN idx)
  else if disnan (m_coeff Error2 idx idx) then inl (KernelUncertaintyNaN idx)
  else if dltb (m_coeff Error2 idx idx) d0
       then inl (KernelNegativeVariance idx (m_coeff Error2 idx idx))
  else inr (mkTranslate (idx + 1)
              (stdvec_set (kValues st) idx (v_coeff Soln idx))
              (stdvec_set (kErrValues st) idx (dsqrt (m_coeff Error2 idx idx)))).

Definition translate (kCols kRows : Z) (Soln : VectorXd D) (Error2 : MatrixXd D)
  : Exception + Translate :=
  for_loop_E 0 kRows
    (fun _row st =>
       for_loop_E 0 kCols (fun _col st => translateStep Soln Error2 st) st)
    (mkTranslate 0
       (repeat d0 (Z.to_nat (kCols * kRows)))
       (repeat d0 (Z.to_nat (kCols * kRows)))).

(** The three tests of the translation at one index, and the first
    exception they raise over a list of indices. *)
Definition checkCoefficient (Soln : VectorXd D) (Error2 : MatrixXd D) (idx : Z)
  : option Exception :=
  if disnan (v_coeff Soln idx) then Some (KernelSolutionNaN idx)
  else if disnan (m_coeff Error2 idx idx) then Some (KernelUncertaintyNaN idx)
  else if dltb (m_coeff Error2 idx idx) d0
       then Some (KernelNegativeVariance idx (m_coeff Error2 idx idx))
  else None.

Fixpoint firstFailure (Soln : VectorXd D) (Error2 : MatrixXd D) (l : list Z)
  : option Exception :=
  match l with
  | [] => None
  | idx :: l' =>
      match checkCoefficient Soln Error2 idx with
      | Some e => Some e
      | None => firstFailure Soln Error2 l'
      end
  end.

(** *** apply *)

Inductive Outcome : Type :=
| Returned
| Threw (e : Exception)
| Undefined.

Record Applied : Type := mkApplied {
  functor : PsfMatchingFunctor;      (* the functor after the call *)
  traces : list string;              (* the cascade's trace messages *)
  outcome : Outcome
}.

(** The part of [apply] after the normal equations are assembled.  The
    translation reads [Soln] and [Error2] at the indices below
    [kCols * kRows], and [LinearCombinationKernel] is given as many
    coefficients: the policy's grid is meant to have one cell per basis
    kernel (with more cells the source reads the Eigen objects out of
    range, which this model does not cover). *)
Definition solveAndStore (self : PsfMatchingFunctor) (kCols kRows : Z)
  (M : MatrixXd D) (B : VectorXd D) : Applied :=
  let nParameters := Z.of_nat (length (_basisList self)) + 1 in
  match solveCascade M B with
  | (tr, inl e) => mkApplied self tr (Threw e)
  | (tr, inr Soln) =>
      let Error2 := errorCovariance M in
      match translate kCols kRows Soln Error2 with
      | inl e => mkApplied self tr (Threw e)
      | inr t =>
          let self1 :=
            mkFunctor (_basisList self) (_background self) (_backgroundError self)
              (Some (linearCombinationKernel (_basisList self) (kValues t)))
              (Some (linearCombinationKernel (_basisList self) (kErrValues t))) in
          if disnan (m_coeff Error2 (nParameters - 1) (nParameters - 1))
          then mkApplied self1 tr (Threw BackgroundUncertaintyNaN)
          else if dltb (m_coeff Error2 (nParameters - 1) (nParameters - 1)) d0
          then mkApplied self1 tr
                 (Threw (BackgroundNegativeVariance
                           (m_coeff Error2 (nParameters - 1) (nParameters - 1))))
          else
            mkApplied
              (mkFunctor (_basisList self1)
                 (v_coeff Soln (nParameters - 1))
                 (dsqrt (m_coeff Error2 (nParameters - 1) (nParameters - 1)))
                 (_kernel self1) (_kernelError self1))
              tr Returned
      end
  end.

(** [PsfMatchingFunctor::apply]; [kCols] and [kRows] are the policy's
    [kernelCols] and [kernelRows].  The embedding follows the source on
    the arguments it is written for: a science image and a variance of the
    dimensions of the template, a template not smaller than the basis
    kernels, a grid of [kCols * kRows] cells (a product an [int] holds)
    with one cell for each basis kernel.  On other arguments the source
    reads pixels or coefficients out of range, or a collaborator throws;
    these behaviours are not represented here, and [Undefined] stands for
    the empty basis list alone. *)
Definition apply (self : PsfMatchingFunctor)
  (imageToConvolve imageToNotConvolve : Image.t I) (varianceEstimate : Image.t V)
  (kCols kRows : Z) : Applied :=
  let self := reset self in
  match assemble (_basisList self) imageToConvolve imageToNotConvolve
          varianceEstimate with
  | None => mkApplied self [] Undefined
  | Some (M, B) => solveAndStore self kCols kRows M B
  end.

End Fit.

(** ** convolveAndSubtract, template given as a plain Image *)

Section Difference.
Context {I V D K : Type} `{Arith I V D} `{KernelOps I D K}.

(** [BackgroundT]: a [double] or a [math::Function2<double>]. *)
Inductive Background : Type :=
| ScalarBackground (value : D)
| FunctionBackground (function : D -> D -> D).

(** The two overloads of [addSomethingToImage]. *)
Definition addSomethingToImage (image : Image.t I) (background : Background)
  : Image.t I :=
  match background with
  | ScalarBackground value =>
      if dneb value d0
      then Image.mapPixels (fun p => iadd_d p value) image
      else image
  | FunctionBackground function =>
      for_loop 0 (Image.getHeight image)
        (fun y image =>
           let yPos := positionToIndex y in
           let xPos := positionToIndex 0 in
           snd (for_loop 0 (Image.getWidth image)
                  (fun x (st : D * Image.t I) =>
                     let (xPos, image) := st in
                     (dadd xPos d1,
                      Image.set image x y
                        (iadd_d (Image.pixel image x y) (function xPos yPos))))
                  (xPos, image)))
        image
  end.

(** The value of [xPos] after [n] increments from [positionToIndex(0)]. *)
Fixpoint xPosition (n : nat) : D :=
  match n with
  | O => positionToIndex 0
  | S n' => dadd (xPosition n') d1
  end.

(** What [addSomethingToImage] adds at pixel [(x, y)] of an image of the
    given width and height: a scalar is added everywhere unless it compares
    equal to 0.0, a function is added with its value at the position of the
    pixel. *)
Definition withBackground (background : Background) (width height x y : Z)
  (p : I) : I :=
  match background with
  | ScalarBackground value => if dneb value d0 then iadd_d p value else p
  | FunctionBackground function =>
      if (0 <=? y) && (y <? height) && (0 <=? x) && (x <? width)
      then iadd_d p (function (xPosition (Z.to_nat x)) (positionToIndex y))
      else p
  end.

Definition convolveAndSubtract (imageToConvolve : Image.t I)
  (imageToNotConvolve : MaskedImage.t I V) (convolutionKernel : K)
  (background : Background) (invert : bool) : MaskedImage.t I V :=
  (* MaskedImage convolvedMaskedImage(imageToConvolve.getDimensions()); *)
  let w := Image.getWidth imageToConvolve in
  let h := Image.getHeight imageToConvolve in
  let image := Image.mk w h 0 0 (fun _ _ => i_fresh) in
  let mask := Image.mk w h 0 0 (fun _ _ => 0%N) in
  let variance := Image.mk w h 0 0 (fun _ _ => v_fresh) in
  (* convolvedMaskedImage.setXY0(imageToConvolve.getXY0()); *)
  let x0 := Image.getX0 imageToConvolve in
  let y0 := Image.getY0 imageToConvolve in
  let image := Image.setXY0 image x0 y0 in
  let mask := Image.setXY0 mask x0 y0 in
  let variance := Image.setXY0 variance x0 y0 in
  (* math::convolve into the image plane of convolvedMaskedImage *)
  let image := Image.withPixels image (convolve imageToConvolve convolutionKernel) in
  let image := addSomethingToImage image background in
  let image := Image.zipWith isub image (MaskedImage.getImage imageToNotConvolve) in
  let image := if invert then Image.mapPixels (fun p => imul_d p dm1) image
               else image in
  let mask := Image.assign mask (MaskedImage.getMask imageToNotConvolve) in
  let variance := Image.assign variance
                    (MaskedImage.getVariance imageToNotConvolve) in
  MaskedImage.mk image mask variance.

End Difference.

(** ** getCollectionOfFootprintsForPsfMatching *)

Module BBox.
Record t : Type := mk { getX0 : Z; getY0 : Z; getX1 : Z; getY1 : Z }.
Definition shift (b : t) (dx dy : Z) : t :=
  mk (getX0 b + dx) (getY0 b + dy) (getX1 b + dx) (getY1 b + dy).
End BBox.

(** The detection collaborators.  [FP] is [afw::detection::Footprint]. *)
Class DetectionOps (I V D FP : Type) : Type := {
  (* the footprints of DetectionSet(image, createThreshold(value, type),
     planeName, npixMin) *)
  detect : MaskedImage.t I V -> D -> string -> Z -> list FP;
  getNpix : FP -> Z;
  getBBox : FP -> BBox.t;
  footprintPixels : FP -> list (Z * Z);
  (* growFootprint(foot, ngrow, isotropic) *)
  growFootprint : FP -> Z -> bool -> FP;
  (* MaskedImage(image, bbox) is built without an exception *)
  subImage : MaskedImage.t I V -> BBox.t -> bool
}.

Record Policy (D : Type) : Type := mkPolicy {
  kernelCols : Z;
  kernelRows : Z;
  fpNpixMin : Z;
  fpNpixMax : Z;
  fpGrowKsize : D;
  minCleanFp : Z;
  detThreshold : D;
  detThresholdScaling : D;
  detThresholdMin : D;
  detThresholdType : string
}.

(** Conversion of an [int] to [unsigned int]. *)
Definition to_unsigned (n : Z) : Z := n mod 2 ^ 32.

Section Footprints.
Context {I V D FP : Type} `{Arith I V D} `{DetectionOps I V D FP}.

(** Modelled from the spec: [FindSetBits] is declared in ImageSubtract.h,
    which is not among the sources.  [apply] followed by [getBits] gives the
    union of the mask bits found on the pixels of the footprint (the spec:
    check both images' sub-regions for any masked/bad pixel). *)
Definition findSetBits (mask : Image.t N) (foot : FP) : N :=
  fold_left
    (fun bits p =>
       N.lor bits
         (Image.pixel mask (fst p - Image.getX0 mask) (snd p - Image.getY0 mask)))
    (footprintPixels foot) 0%N.

Variable imageToConvolve imageToNotConvolve : MaskedImage.t I V.
Variable policy : Policy D.

(** Number of pixels to grow each Footprint, based upon the Kernel size. *)
Definition fpGrowPix : Z :=
  int_of_d (dmul (fpGrowKsize policy)
              (d_of_int (if kernelCols policy >? kernelRows policy
                         then kernelCols policy else kernelRows policy))).

Record Collected : Type := mkCollected {
  footprintListOut : list FP;
  nCleanFp : Z
}.

(** The body of the loop over [footprintListIn]; each [continue] returns
    the state as it is. *)
Definition examine (acc : Collected) (i : FP) : Collected :=
  if to_unsigned (getNpix i) >? to_unsigned (fpNpixMax policy) then acc
  else
    let fpGrow := growFootprint i fpGrowPix false in
    let fpBBox :=
      BBox.shift (getBBox fpGrow)
        (- Image.getX0 (MaskedImage.getImage imageToConvolve))
        (- Image.getY0 (MaskedImage.getImage imageToConvolve)) in
    if negb (subImage imageToConvolve fpBBox
             && subImage imageToNotConvolve fpBBox) then acc
    else if (0 <? findSetBits (MaskedImage.getMask imageToConvolve) fpGrow)%N
    then acc
    else if (0 <? findSetBits (MaskedImage.getMask imageToNotConvolve) fpGrow)%N
    then acc
    else mkCollected (footprintListOut acc ++ [fpGrow]) (nCleanFp acc + 1).

Record Search : Type := mkSearch {
  s_collected : Collected;
  s_footprintListIn : list FP;
  s_detThreshold : D
}.

(** The loop condition. *)
Definition searching (st : Search) : bool :=
  (nCleanFp (s_collected st) <? minCleanFp policy)
  && dgtb (s_detThreshold st) (detThresholdMin policy).

(** One pass of the [while] body. *)
Definition searchPass (st : Search) : Search :=
  (* footprintListIn.clear(); footprintListOut.clear(); *)
  let footprintListIn :=
    detect imageToConvolve (s_detThreshold st) (detThresholdType policy)
      (to_unsigned (fpNpixMin policy)) in
  (* nCleanFp = 0; *)
  let acc := fold_left examine footprintListIn (mkCollected [] 0) in
  mkSearch acc footprintListIn
    (dmul (s_detThreshold st) (detThresholdScaling policy)).

(** The [while] loop, run for at most [fuel] passes: [None] when the
    condition still holds after them. *)
Fixpoint searchLoop (fuel : nat) (st : Search) : option Search :=
  if searching st then
    match fuel with
    | O => None
    | S fuel' => searchLoop fuel' (searchPass st)
    end
  else Some st.

Definition searchStart : Search :=
  mkSearch (mkCollected [] 0) [] (detThreshold policy).

(** The function: the loop, then the test of [footprintListOut.size()]. *)
Definition getCollectionOfFootprintsForPsfMatching (fuel : nat)
  : option (Exception (D:=D) + list FP) :=
  match searchLoop fuel searchStart with
  | None => None
  | Some st =>
      match footprintListOut (s_collected st) with
      | [] => Some (inl NoFootprints)
      | _ :: _ => Some (inr (footprintListOut (s_collected st)))
      end
  end.

(** The threshold after [k] passes, the state after [k] passes, and the
    first pass count at which the loop condition fails. *)
Fixpoint thresholdAfter (k : nat) : D :=
  match k with
  | O => detThreshold policy
  | S k' => dmul (thresholdAfter k') (detThresholdScaling policy)
  end.

Fixpoint stateAfter (k : nat) : Search :=
  match k with
  | O => searchStart
  | S k' => searchPass (stateAfter k')
  end.

(** The footprint as grown by the search, and the test a detected region
    has to pass to be kept. *)
Definition grown (foot : FP) : FP :=
  growFootprint foot
    (int_of_d (dmul (fpGrowKsize policy)
                 (d_of_int (Z.max (kernelCols policy) (kernelRows policy)))))
    false.

Definition extractable (foot : FP) : bool :=
  let fpBBox :=
    BBox.shift (getBBox (grown foot))
      (- Image.getX0 (MaskedImage.getImage imageToConvolve))
      (- Image.getY0 (MaskedImage.getImage imageToConvolve)) in
  subImage imageToConvolve fpBBox && subImage imageToNotConvolve fpBBox.

Definition kept (foot : FP) : bool :=
  (getNpix foot <=? fpNpixMax policy)
  && extractable foot
  && (findSetBits (MaskedImage.getMask imageToConvolve) (grown foot) =? 0)%N
  && (findSetBits (MaskedImage.getMask imageToNotConvolve) (grown foot) =? 0)%N.

(** A footprint has a masked pixel in [mask]. *)
Definition touchesMask (mask : Image.t N) (foot : FP) : Prop :=
  exists p, In p (footprintPixels foot)
            /\ Image.pixel mask (fst p - Image.getX0 mask) (snd p - Image.getY0 mask)
               <> 0%N.

End Footprints.

(** ** IEEE binary64 instance

    The instantiation [PsfMatchingFunctor<double, ...>]: pixels, variances
    and matrix coefficients are the kernel's binary64 floats (a [float]
    variance is exactly representable as a double). *)

Definition float_of_Z (z : Z) : float :=
  match z with
  | Z0 => PrimFloat.zero
  | Zpos _ => PrimFloat.of_uint63 (Uint63.of_Z z)
  | Zneg _ => PrimFloat.opp (PrimFloat.of_uint63 (Uint63.of_Z (- z)))
  end.

(** Truncation toward zero; the conversion of a NaN or an infinity is
    undefined in C++ and is given 0 here. *)
Definition Z_of_float (f : float) : Z :=
  match Prim2SF f with
  | S754_finite s m e =>
      let a := match e with
               | Zneg p => Z.pos m / 2 ^ Z.pos p
               | _ => Z.pos m * 2 ^ e
               end in
      if s then - a else a
  | _ => 0
  end.

#[export] Instance ieee_double : Arith float float float := {|
  d0 := PrimFloat.zero;
  d1 := PrimFloat.one;
  dm1 := PrimFloat.opp PrimFloat.one;
  dadd := PrimFloat.add;
  dmul := PrimFloat.mul;
  ddiv := PrimFloat.div;
  dsqrt := PrimFloat.sqrt;
  disnan := PrimFloat.is_nan;
  dltb := PrimFloat.ltb;
  dneb := fun x y => negb (PrimFloat.eqb x y);
  imul := PrimFloat.mul;
  i2d := fun x => x;
  v2d := fun x => x;
  iadd_d := PrimFloat.add;
  isub := PrimFloat.sub;
  imul_d := PrimFloat.mul;
  d_of_int := float_of_Z;
  int_of_d := Z_of_float;
  i_fresh := PrimFloat.zero;
  v_fresh := PrimFloat.zero
|}.

(** ** Reference collaborators for concrete runs

    A kernel is its image of weights; convolution is the direct sum
    [out(x, y) = sum_j sum_i in(x - ctrX + i, y - ctrY + j) * k(i, j)],
    and a linear combination is the weighted sum of the basis images.
    These stand in for afw when the embedding is run on concrete images. *)

Record RefKernel : Type := mkRefKernel {
  rk_width : Z;
  rk_height : Z;
  rk_ctrX : Z;
  rk_ctrY : Z;
  rk_weight : Z -> Z -> float
}.

(** [DeltaFunctionKernel(width, height, PointI(col, row))]; the centre of a
    kernel is [((width - 1)/2, (height - 1)/2)]. *)
Definition deltaFunctionKernel (width height col row : Z) : RefKernel :=
  mkRefKernel width height ((width - 1) / 2) ((height - 1) / 2)
    (fun i j => if (i =? col) && (j =? row) then PrimFloat.one else PrimFloat.zero).

Definition refConvolve (img : Image.t float) (k : RefKernel) (x y : Z) : float :=
  fold_left
    (fun acc j =>
       fold_left
         (fun acc i =>
            PrimFloat.add acc
              (PrimFloat.mul
                 (Image.pixel img (x - rk_ctrX k + i) (y - rk_ctrY k + j))
                 (rk_weight k i j)))
         (zrange 0 (rk_width k)) acc)
    (zrange 0 (rk_height k)) PrimFloat.zero.

Definition refLinearCombination (basis : list RefKernel) (params : list float)
  : RefKernel :=
  let weights i j :=
    fold_left
      (fun acc bp => PrimFloat.add acc (PrimFloat.mul (snd bp) (rk_weight (fst bp) i j)))
      (combine basis params) PrimFloat.zero in
  match basis with
  | [] => mkRefKernel 0 0 0 0 weights
  | k :: _ => mkRefKernel (rk_width k) (rk_height k) (rk_ctrX k) (rk_ctrY k) weights
  end.

#[export] Instance refKernelOps : KernelOps float float RefKernel := {|
  kGetWidth := rk_width;
  kGetHeight := rk_height;
  kGetCtrX := rk_ctrX;
  kGetCtrY := rk_ctrY;
  convolve := refConvolve;
  linearCombinationKernel := refLinearCombination;
  positionToIndex := float_of_Z
|}.

(** A 4x3 template, a science image that is twice the template plus 3, a
    constant variance of 0.5, and the two delta-function kernels of a 2x1
    grid. *)
Definition exTemplate : Image.t float :=
  Image.mk 4 3 0 0 (fun x y => float_of_Z (1 + x * x + 3 * y)).

Definition exScience : Image.t float :=
  Image.mk 4 3 0 0
    (fun x y => PrimFloat.add
                  (PrimFloat.mul 2%float (float_of_Z (1 + x * x + 3 * y)))
                  3%float).

Definition exVariance : Image.t float := Image.mk 4 3 0 0 (fun _ _ => 0.5%float).

Definition exKernel0 : RefKernel := deltaFunctionKernel 2 1 0 0.
Definition exKernel1 : RefKernel := deltaFunctionKernel 2 1 1 0.
Definition exBasis : list RefKernel := [exKernel0; exKernel1].

(** ** Reference linear algebra for concrete runs

    Textbook algorithms on lists of rows, in binary64: products, the
    Cholesky factor, triangular solves, LDL^T, Gauss-Jordan inversion.
    They stand in for Eigen when the embedding is run; the theorems do not
    depend on them. *)

Module Ref.

Definition rows_of (M : MatrixXd float) : list (list float) :=
  map (fun i => map (fun j => m_coeff M i j) (zrange 0 (m_cols M)))
      (zrange 0 (m_rows M)).

Definition list_of (v : VectorXd float) : list float :=
  map (v_coeff v) (zrange 0 (v_rows v)).

Definition entry (rows : list (list float)) (i j : nat) : float :=
  nth j (nth i rows []) PrimFloat.zero.

Definition matrix_of (r c : Z) (rows : list (list float)) : MatrixXd float :=
  mkMatrix r c
    (fun i j => if (i <? 0) || (j <? 0) then PrimFloat.zero
                else entry rows (Z.to_nat i) (Z.to_nat j)).

Definition vector_of (l : list float) : VectorXd float :=
  mkVector (Z.of_nat (length l))
    (fun i => if i <? 0 then PrimFloat.zero else nth (Z.to_nat i) l PrimFloat.zero).

(** The sum of the products of the entries of [a] and [b], left to right,
    over the length of the shorter one. *)
Definition dot (a b : list float) : float :=
  fold_left (fun acc xy => PrimFloat.add acc (PrimFloat.mul (fst xy) (snd xy)))
            (combine a b) PrimFloat.zero.

Definition dot3 (a b c : list float) : float :=
  fold_left
    (fun acc xyz =>
       PrimFloat.add acc
         (PrimFloat.mul (PrimFloat.mul (fst (fst xyz)) (snd (fst xyz))) (snd xyz)))
    (combine (combine a b) c) PrimFloat.zero.

Definition mat_mul (A B : MatrixXd float) : MatrixXd float :=
  let columns := rows_of (transpose B) in
  matrix_of (m_rows A) (m_cols B)
    (map (fun row => map (fun column => dot row column) columns) (rows_of A)).

Definition mat_vec_mul (A : MatrixXd float) (v : VectorXd float) : VectorXd float :=
  let x := list_of v in
  vector_of (map (fun row => dot row x) (rows_of A)).

(** Row [i] of the Cholesky factor, from the rows before it. *)
Definition choleskyRow (L : list (list float)) (arow : list float) (i : nat)
  : list float :=
  fold_left
    (fun cur j =>
       let s := PrimFloat.sub (nth j arow PrimFloat.zero) (dot cur (nth j L cur)) in
       cur ++ [if Nat.ltb j i then PrimFloat.div s (entry L j j)
               else PrimFloat.sqrt s])
    (seq 0 (S i)) [].

Definition cholesky (A : list (list float)) : list (list float) :=
  fold_left (fun L ia => L ++ [choleskyRow L (snd ia) (fst ia)])
            (combine (seq 0 (length A)) A) [].

Definition positiveDiagonal (L : list (list float)) : bool :=
  forallb (fun i => PrimFloat.ltb PrimFloat.zero (entry L i i)) (seq 0 (length L)).

(** [L y = b] for lower triangular [L]. *)
Definition forward (L : list (list float)) (b : list float) : list float :=
  fold_left
    (fun y ib =>
       let i := fst ib in
       y ++ [PrimFloat.div (PrimFloat.sub (snd ib) (dot (nth i L []) y))
                           (entry L i i)])
    (combine (seq 0 (length b)) b) [].

(** [L^T x = y]: the same substitution on the system read backwards. *)
Definition backward (L : list (list float)) (y : list float) : list float :=
  let n := length y in
  let U := map (fun i => map (fun j => entry L (n - 1 - j) (n - 1 - i)) (seq 0 n))
               (seq 0 n) in
  rev (forward U (rev y)).

Definition llt_matrixL (A : MatrixXd float) : MatrixXd float :=
  matrix_of (m_rows A) (m_cols A) (cholesky (rows_of A)).

Definition llt_solve (A : MatrixXd float) (b : VectorXd float)
  : option (VectorXd float) :=
  let L := cholesky (rows_of A) in
  if positiveDiagonal L
  then Some (vector_of (backward L (forward L (list_of b))))
  else None.

(** LDL^T without pivoting: unit lower [L] (kept without its diagonal) and
    the diagonal [d]. *)
Definition ldltRow (Ld : list (list float) * list float) (arow : list float)
  (i : nat) : list (list float) * list float :=
  let (L, d) := Ld in
  let cur :=
    fold_left
      (fun cur j =>
         cur ++ [PrimFloat.div
                   (PrimFloat.sub (nth j arow PrimFloat.zero)
                                  (dot3 cur (nth j L []) d))
                   (nth j d PrimFloat.zero)])
      (seq 0 i) [] in
  (L ++ [cur],
   d ++ [PrimFloat.sub (nth i arow PrimFloat.zero) (dot3 cur cur d)]).

Definition ldlt (A : list (list float)) : list (list float) * list float :=
  fold_left (fun Ld ia => ldltRow Ld (snd ia) (fst ia))
            (combine (seq 0 (length A)) A) ([], []).

Definition ldlt_solve (A : MatrixXd float) (b : VectorXd float)
  : option (VectorXd float) :=
  let (L, d) := ldlt (rows_of A) in
  if forallb (fun x => PrimFloat.ltb PrimFloat.zero x) d
  then
    let L1 := map (fun row => row ++ [PrimFloat.one]) L in
    let z := forward L1 (list_of b) in
    let w := map (fun zd => PrimFloat.div (fst zd) (snd zd)) (combine z d) in
    Some (vector_of (backward L1 w))
  else None.

(** Gauss-Jordan elimination without pivoting on [A | Id]. *)
Definition eliminate (rows : list (list float)) (k : nat) : list (list float) :=
  let prow := nth k rows [] in
  let p := nth k prow PrimFloat.zero in
  let prow' := map (fun x => PrimFloat.div x p) prow in
  map (fun irow =>
         if Nat.eqb (fst irow) k then prow'
         else
           let f := nth k (snd irow) PrimFloat.zero in
           map (fun xy => PrimFloat.sub (fst xy) (PrimFloat.mul f (snd xy)))
               (combine (snd irow) prow'))
      (combine (seq 0 (length rows)) rows).

Definition gaussJordan (A : list (list float)) : list (list float) :=
  let n := length A in
  let augmented :=
    map (fun irow =>
           snd irow ++ map (fun j => if Nat.eqb j (fst irow) then PrimFloat.one
                                     else PrimFloat.zero) (seq 0 n))
        (combine (seq 0 n) A) in
  map (skipn n) (fold_left eliminate (seq 0 n) augmented).

Definition inverse (A : MatrixXd float) : MatrixXd float :=
  matrix_of (m_rows A) (m_cols A) (gaussJordan (rows_of A)).

Definition lu_solve (A : MatrixXd float) (b : VectorXd float)
  : option (VectorXd float) :=
  let x := list_of (mat_vec_mul (inverse A) b) in
  if forallb (fun v => negb (PrimFloat.is_nan v)) x then Some (vector_of x)
  else None.

End Ref.

(** The reference library as an instance of the Eigen interface.  It has
    no eigen-decomposition: that stage raises. *)
Definition refEigen : EigenOps float := {|
  ldlt_solve := Ref.ldlt_solve;
  llt_solve := Ref.llt_solve;
  lu_solve := Ref.lu_solve;
  selfAdjointEigenSolver := fun _ => None;
  mat_mul := Ref.mat_mul;
  mat_vec_mul := Ref.mat_vec_mul;
  llt_matrixL := Ref.llt_matrixL;
  inverse := Ref.inverse
|}.


(** A scripted library: every solver, the eigen-decomposition and every
    matrix product return what the script says, whatever the system.  It
    is not a solver: it hands the fit chosen answers, to run each path of
    the checks that follow the cascade. *)
Record Script : Type := mkScript {
  s_ldlt : option (VectorXd float);
  s_llt : option (VectorXd float);
  s_lu : option (VectorXd float);
  s_eigen : option (MatrixXd float * VectorXd float);
  s_product : MatrixXd float
}.

Definition scriptedEigen (sc : Script) : EigenOps float := {|
  ldlt_solve := fun _ _ => s_ldlt sc;
  llt_solve := fun _ _ => s_llt sc;
  lu_solve := fun _ _ => s_lu sc;
  selfAdjointEigenSolver := fun _ => s_eigen sc;
  mat_mul := fun _ _ => s_product sc;
  mat_vec_mul := Ref.mat_vec_mul;
  llt_matrixL := fun M => M;
  inverse := fun M => M
|}.

(** The example fit, with the reference libraries. *)
Definition exFit : Applied :=
  apply (H0 := refEigen) (newPsfMatchingFunctor exBasis)
    exTemplate exScience exVariance 2 1.

(** A basis of one 1x1 kernel, and runs of the fit on it replayed from
    what the solver and the products returned. *)
Definition exBasis1 : list RefKernel := [deltaFunctionKernel 1 1 0 0].

Definition diagonal2 (a b : float) : MatrixXd float :=
  mkMatrix 2 2
    (fun i j => if (i =? 0) && (j =? 0) then a
                else if (i =? 1) && (j =? 1) then b else PrimFloat.zero).

(** The solver answers (1, NaN); the error covariance is the identity. *)
Definition nanBackgroundScript : Script :=
  mkScript (Some (Ref.vector_of [PrimFloat.one; PrimFloat.nan])) None None None
           (diagonal2 PrimFloat.one PrimFloat.one).

(** The solver answers (NaN, 3); the error covariance is the identity. *)
Definition nanKernelScript : Script :=
  mkScript (Some (Ref.vector_of [PrimFloat.nan; 3%float])) None None None
           (diagonal2 PrimFloat.one PrimFloat.one).

(** The solver answers (2, 3); the error covariance is diag(1, NaN). *)
Definition nanBackgroundErrorScript : Script :=
  mkScript (Some (Ref.vector_of [2%float; 3%float])) None None None
           (diagonal2 PrimFloat.one PrimFloat.nan).

Definition replay (sc : Script) : Applied :=
  apply (H0 := scriptedEigen sc) (newPsfMatchingFunctor exBasis1)
    exTemplate exScience exVariance 1 1.

(** ** Reference detection for concrete runs

    A footprint is its list of pixels and its peak value; detection returns
    the footprints of a catalogue whose peak is above the threshold and
    that have at least the minimum number of pixels; growth adds the pixels
    within the given distance (Manhattan distance when not isotropic); a
    sub-image can be taken when the box lies inside the image. *)

Record RefFootprint : Type := mkRefFootprint {
  rf_pixels : list (Z * Z);
  rf_peak : float
}.

Definition rf_bbox (foot : RefFootprint) : BBox.t :=
  match rf_pixels foot with
  | [] => BBox.mk 0 0 (-1) (-1)
  | p :: ps =>
      fold_left
        (fun b q =>
           BBox.mk (Z.min (BBox.getX0 b) (fst q)) (Z.min (BBox.getY0 b) (snd q))
                   (Z.max (BBox.getX1 b) (fst q)) (Z.max (BBox.getY1 b) (snd q)))
        ps (BBox.mk (fst p) (snd p) (fst p) (snd p))
  end.

Definition pixel_eq_dec (p q : Z * Z) : {p = q} + {p <> q}.
Proof. decide equality; apply Z.eq_dec. Defined.

Definition rf_grow (foot : RefFootprint) (ngrow : Z) (isotropic : bool)
  : RefFootprint :=
  let offsets :=
    filter (fun d =>
              if isotropic
              then fst d * fst d + snd d * snd d <=? ngrow * ngrow
              else Z.abs (fst d) + Z.abs (snd d) <=? ngrow)
           (flat_map (fun dy => map (fun dx => (dx, dy)) (zrange (- ngrow) (ngrow + 1)))
                     (zrange (- ngrow) (ngrow + 1))) in
  mkRefFootprint
    (nodup pixel_eq_dec
       (flat_map (fun p => map (fun d => (fst p + fst d, snd p + snd d)) offsets)
                 (rf_pixels foot)))
    (rf_peak foot).

Definition refDetect (catalogue : list RefFootprint) (threshold : float)
  (npixMin : Z) : list RefFootprint :=
  filter (fun foot =>
            PrimFloat.ltb threshold (rf_peak foot)
            && (npixMin <=? Z.of_nat (length (rf_pixels foot))))
         catalogue.

Definition refSubImage (img : MaskedImage.t float float) (b : BBox.t) : bool :=
  (0 <=? BBox.getX0 b) && (0 <=? BBox.getY0 b)
  && (BBox.getX1 b <? Image.getWidth (MaskedImage.getImage img))
  && (BBox.getY1 b <? Image.getHeight (MaskedImage.getImage img)).

Definition refDetection (catalogue : list RefFootprint)
  : DetectionOps float float float RefFootprint := {|
  detect := fun _ threshold _ npixMin => refDetect catalogue threshold npixMin;
  getNpix := fun foot => Z.of_nat (length (rf_pixels foot));
  getBBox := rf_bbox;
  footprintPixels := rf_pixels;
  growFootprint := rf_grow;
  subImage := refSubImage
|}.

(** A 20x20 field: the template has no masked pixel, the science image has
    one at (13, 12).  The catalogue has a source at (5, 5), one at
    (12, 12) next to the masked pixel, one at (0, 9) on the edge, a faint
    one at (15, 4) and an extended one of five pixels. *)
Definition fieldMask (masked : list (Z * Z)) : Image.t N :=
  Image.mk 20 20 0 0
    (fun x y => if existsb (fun p => (fst p =? x) && (snd p =? y)) masked
                then 1%N else 0%N).

Definition fieldTemplate : MaskedImage.t float float :=
  MaskedImage.mk (Image.mk 20 20 0 0 (fun _ _ => 1%float)) (fieldMask [])
                 (Image.mk 20 20 0 0 (fun _ _ => 1%float)).

Definition fieldScience : MaskedImage.t float float :=
  MaskedImage.mk (Image.mk 20 20 0 0 (fun _ _ => 5%float)) (fieldMask [(13, 12)])
                 (Image.mk 20 20 0 0 (fun _ _ => 1%float)).

Definition sourceA : RefFootprint := mkRefFootprint [(5, 5)] 50%float.
Definition sourceB : RefFootprint := mkRefFootprint [(12, 12)] 40%float.
Definition sourceC : RefFootprint := mkRefFootprint [(0, 9)] 30%float.
Definition sourceD : RefFootprint := mkRefFootprint [(15, 4)] 4%float.
Definition sourceE : RefFootprint :=
  mkRefFootprint [(8, 15); (9, 15); (10, 15); (9, 14); (9, 16)] 60%float.

Definition fieldCatalogue : list RefFootprint :=
  [sourceA; sourceB; sourceC; sourceD; sourceE].

(** Kernel 3x3, growth by int(0.5 * 3) = 1 pixel, at most 4 pixels per
    footprint, two clean footprints wanted, threshold 100 halved each pass
    down to 1. *)
Definition fieldPolicy : Policy float :=
  mkPolicy 3 3 1 4 0.5%float 2 100%float 0.5%float 1%float "value".

(** The same with a floor of -1 under thresholds that stay positive. *)
Definition endlessPolicy : Policy float :=
  mkPolicy 3 3 1 4 0.5%float 2 100%float 0.5%float (-1)%float "value".

(** The state of the search on the example field after [k] passes. *)
Definition fieldState (k : nat) : Search :=
  stateAfter (H0 := refDetection fieldCatalogue) fieldTemplate fieldScience
    fieldPolicy k.

(** The science image of the example fit with a mask and its variance. *)
Definition exScienceMasked : MaskedImage.t float float :=
  MaskedImage.mk exScience (Image.mk 4 3 0 0 (fun _ _ => 5%N)) exVariance.

(** ** Basis sets *)

(** [static_cast<int>] of an [unsigned int]: the value itself when an [int]
    can hold it, the value minus [2^32] otherwise (the two's complement
    reading, which compilers implement and C++20 prescribes). *)
Definition to_signed (n : Z) : Z := if n <? 2 ^ 31 then n else n - 2 ^ 32.

(** The constructor [math::DeltaFunctionKernel(width, height, point)]. *)
Class DeltaFunctionKernelOps (K : Type) : Type := {
  newDeltaFunctionKernel : Z -> Z -> Z * Z -> K
}.

(** The messages of the exceptions of the two generators. *)
Definition sizeNotPositive : string := "nRows and nCols must be positive".
Definition notImplemented : string := "Not implemented".

(** [generateDeltaFunctionKernelSet(width, height)]; the arguments are
    [unsigned int], values in [0, 2^32).  The result is the message of the
    exception thrown, or the list returned. *)
Definition generateDeltaFunctionKernelSet {K : Type} `{DeltaFunctionKernelOps K}
  (width height : Z) : string + list K :=
  if (width <? 1) || (height <? 1) then inl sizeNotPositive
  else
    let signedWidth := to_signed width in
    let signedHeight := to_signed height in
    inr (for_loop 0 signedHeight
           (fun row kernelBasisList =>
              for_loop 0 signedWidth
                (fun col kernelBasisList =>
                   kernelBasisList
                   ++ [newDeltaFunctionKernel width height (col, row)])
                kernelBasisList)
           []).

(** [generateAlardLuptonKernelSet(nRows, nCols, sigGauss, degGauss)]: the
    second [throw] comes before the statements that would return a list. *)
Definition generateAlardLuptonKernelSet (K D : Type) (nRows nCols : Z)
  (sigGauss degGauss : list D) : string + list K :=
  if (nCols <? 1) || (nRows <? 1) then inl sizeNotPositive
  else inl notImplemented.

(** The delta-function kernels of the reference collaborators. *)
#[export] Instance refDeltaOps : DeltaFunctionKernelOps RefKernel := {|
  newDeltaFunctionKernel :=
    fun width height p => deltaFunctionKernel width height (fst p) (snd p)
|}.

(** ** convolveAndSubtract, template given as a MaskedImage *)

(** The operations of afw on whole MaskedImages that the overload uses. *)
Class MaskedImageOps (I V D K : Type) : Type := {
  (* math::convolve(out, in, kernel, false): [out] after the call *)
  convolveMaskedImage :
    MaskedImage.t I V -> MaskedImage.t I V -> K -> MaskedImage.t I V;
  (* lhs -= rhs *)
  maskedImageMinus : MaskedImage.t I V -> MaskedImage.t I V -> MaskedImage.t I V;
  (* lhs *= scalar *)
  maskedImageTimes : MaskedImage.t I V -> D -> MaskedImage.t I V
}.

Section DifferenceMasked.
Context {I V D K : Type} `{Arith I V D} `{KernelOps I D K}
        `{MaskedImageOps I V D K}.

Definition convolveAndSubtractMasked
  (imageToConvolve imageToNotConvolve : MaskedImage.t I V) (convolutionKernel : K)
  (background : Background) (invert : bool) : MaskedImage.t I V :=
  (* MaskedImage convolvedMaskedImage(imageToConvolve.getDimensions()); *)
  let w := Image.getWidth (MaskedImage.getImage imageToConvolve) in
  let h := Image.getHeight (MaskedImage.getImage imageToConvolve) in
  let image := Image.mk w h 0 0 (fun _ _ => i_fresh) in
  let mask := Image.mk w h 0 0 (fun _ _ => 0%N) in
  let variance := Image.mk w h 0 0 (fun _ _ => v_fresh) in
  (* convolvedMaskedImage.setXY0(imageToConvolve.getXY0()); *)
  let x0 := Image.getX0 (MaskedImage.getImage imageToConvolve) in
  let y0 := Image.getY0 (MaskedImage.getImage imageToConvolve) in
  let convolvedMaskedImage :=
    MaskedImage.mk (Image.setXY0 image x0 y0) (Image.setXY0 mask x0 y0)
                   (Image.setXY0 variance x0 y0) in
  let convolvedMaskedImage :=
    convolveMaskedImage convolvedMaskedImage imageToConvolve convolutionKernel in
  (* the background goes into the image plane alone *)
  let convolvedMaskedImage :=
    MaskedImage.mk
      (addSomethingToImage (MaskedImage.getImage convolvedMaskedImage) background)
      (MaskedImage.getMask convolvedMaskedImage)
      (MaskedImage.getVariance convolvedMaskedImage) in
  let convolvedMaskedImage :=
    maskedImageMinus convolvedMaskedImage imageToNotConvolve in
  if invert then maskedImageTimes convolvedMaskedImage dm1
  else convolvedMaskedImage.

End DifferenceMasked.

(** Reference MaskedImage operations for concrete runs, plane by plane:
    convolution convolves the image, takes the union of the mask bits under
    the kernel and convolves the variance with the squared weights;
    subtraction subtracts the images, unites the masks and adds the
    variances; scaling multiplies the image by the scalar and the variance
    by its square. *)
Definition refConvolveMask (mask : Image.t N) (k : RefKernel) (x y : Z) : N :=
  fold_left
    (fun acc j =>
       fold_left
         (fun acc i =>
            N.lor acc (Image.pixel mask (x - rk_ctrX k + i) (y - rk_ctrY k + j)))
         (zrange 0 (rk_width k)) acc)
    (zrange 0 (rk_height k)) 0%N.

Definition refSquared (k : RefKernel) : RefKernel :=
  mkRefKernel (rk_width k) (rk_height k) (rk_ctrX k) (rk_ctrY k)
    (fun i j => PrimFloat.mul (rk_weight k i j) (rk_weight k i j)).

#[export] Instance refMaskedImageOps
  : MaskedImageOps float float float RefKernel := {|
  convolveMaskedImage := fun out input k =>
    MaskedImage.mk
      (Image.withPixels (MaskedImage.getImage out)
         (refConvolve (MaskedImage.getImage input) k))
      (Image.withPixels (MaskedImage.getMask out)
         (refConvolveMask (MaskedImage.getMask input) k))
      (Image.withPixels (MaskedImage.getVariance out)
         (refConvolve (MaskedImage.getVariance input) (refSquared k)));
  maskedImageMinus := fun lhs rhs =>
    MaskedImage.mk
      (Image.zipWith PrimFloat.sub (MaskedImage.getImage lhs)
         (MaskedImage.getImage rhs))
      (Image.zipWith N.lor (MaskedImage.getMask lhs) (MaskedImage.getMask rhs))
      (Image.zipWith PrimFloat.add (MaskedImage.getVariance lhs)
         (MaskedImage.getVariance rhs));
  maskedImageTimes := fun lhs c =>
    MaskedImage.mk
      (Image.mapPixels (fun p => PrimFloat.mul p c) (MaskedImage.getImage lhs))
      (MaskedImage.getMask lhs)
      (Image.mapPixels (fun p => PrimFloat.mul p (PrimFloat.mul c c))
         (MaskedImage.getVariance lhs))
|}.

(** ** Further examples *)

(** The template of the example fit with an empty mask and its variance. *)
Definition exTemplateMasked : MaskedImage.t float float :=
  MaskedImage.mk exTemplate (Image.mk 4 3 0 0 (fun _ _ => 0%N)) exVariance.


(** A background that grows along both axes. *)
Definition exGradient (x y : float) : float := PrimFloat.add x y.

(** The policy of the field with no clean footprint asked for, and with a
    negative maximal footprint size. *)
Definition idlePolicy : Policy float :=
  mkPolicy 3 3 1 4 0.5%float 0 100%float 0.5%float 1%float "value".

Definition unboundedPolicy : Policy float :=
  mkPolicy 3 3 1 (-1) 0.5%float 2 100%float 0.5%float 1%float "value".

(** * Properties *)

Unset Implicit Arguments.

(** ** Counted loops *)

Lemma in_zrange_from (n : nat) : forall lo i,
  In i (zrange_from lo n) <-> lo <= i < lo + Z.of_nat n.
Proof.
  induction n as [|n IH]; intros lo i; cbn [zrange_from In].
  - lia.
  - rewrite IH. lia.
Qed.

Lemma in_zrange (lo hi i : Z) : In i (zrange lo hi) <-> lo <= i < hi.
Proof. unfold zrange. rewrite in_zrange_from. lia. Qed.

Lemma zrange_from_snoc (n : nat) : forall lo,
  zrange_from lo (S n) = zrange_from lo n ++ [lo + Z.of_nat n].
Proof.
  induction n as [|n IH]; intros lo.
  - cbn. now rewrite Z.add_0_r.
  - change (zrange_from lo (S (S n))) with (lo :: zrange_from (lo + 1) (S n)).
    rewrite IH. cbn [zrange_from app]. do 3 f_equal. lia.
Qed.

Lemma zrange_empty (lo hi : Z) : hi <= lo -> zrange lo hi = [].
Proof.
  intros Hle. unfold zrange.
  replace (Z.to_nat (hi - lo)) with O by lia. reflexivity.
Qed.

Lemma zrange_cons (lo hi : Z) : lo < hi -> zrange lo hi = lo :: zrange (lo + 1) hi.
Proof.
  intros Hlt. unfold zrange.
  replace (Z.to_nat (hi - lo)) with (S (Z.to_nat (hi - (lo + 1)))) by lia.
  reflexivity.
Qed.

Lemma zrange_snoc (lo hi : Z) : lo <= hi -> zrange lo (hi + 1) = zrange lo hi ++ [hi].
Proof.
  intros Hle. unfold zrange.
  replace (Z.to_nat (hi + 1 - lo)) with (S (Z.to_nat (hi - lo))) by lia.
  rewrite zrange_from_snoc. do 2 f_equal. lia.
Qed.

Lemma zrange_from_length (n : nat) : forall lo, length (zrange_from lo n) = n.
Proof. induction n as [|n IH]; intros lo; cbn; [reflexivity | now rewrite IH]. Qed.

Lemma zrange_from_NoDup (n : nat) : forall lo, NoDup (zrange_from lo n).
Proof.
  induction n as [|n IH]; intros lo; cbn [zrange_from]; constructor.
  - rewrite in_zrange_from. lia.
  - apply IH.
Qed.

Lemma for_loop_empty {St : Type} (lo hi : Z) (body : Z -> St -> St) (s : St) :
  hi <= lo -> for_loop lo hi body s = s.
Proof. intros Hle. unfold for_loop. now rewrite zrange_empty. Qed.

Lemma for_loop_snoc {St : Type} (lo hi : Z) (body : Z -> St -> St) (s : St) :
  lo <= hi -> for_loop lo (hi + 1) body s = body hi (for_loop lo hi body s).
Proof.
  intros Hle. unfold for_loop. rewrite zrange_snoc by assumption.
  now rewrite fold_left_app.
Qed.

(** Invariant rule for a counted loop. *)
Lemma for_loop_invariant {St : Type} (P : Z -> St -> Prop) (lo hi : Z)
  (body : Z -> St -> St) (s : St) :
  lo <= hi ->
  P lo s ->
  (forall i t, lo <= i < hi -> P i t -> P (i + 1) (body i t)) ->
  P hi (for_loop lo hi body s).
Proof.
  intros Hle Hinit Hstep.
  assert (Hgen : forall n : nat, lo + Z.of_nat n <= hi ->
                   P (lo + Z.of_nat n) (for_loop lo (lo + Z.of_nat n) body s)).
  { induction n as [|n IH]; intros Hn.
    - rewrite Z.add_0_r, for_loop_empty by lia. exact Hinit.
    - replace (lo + Z.of_nat (S n)) with (lo + Z.of_nat n + 1) by lia.
      rewrite for_loop_snoc by lia. apply Hstep; [lia | apply IH; lia]. }
  specialize (Hgen (Z.to_nat (hi - lo))).
  replace (lo + Z.of_nat (Z.to_nat (hi - lo))) with hi in Hgen by lia.
  apply Hgen. lia.
Qed.

(** ** C2: the mirrored matrix is symmetric *)

Section MirrorProperties.
Context {I V D : Type} `{Arith I V D}.

Lemma mat_set_coeff (M : MatrixXd D) (i j : Z) (x : D) (a b : Z) :
  m_coeff (mat_set M i j x) a b =
  if (a =? i) && (b =? j) then x else m_coeff M a b.
Proof. reflexivity. Qed.

(** What one column of the mirroring does. *)
Lemma mirror_column (n i : Z) (M0 M : MatrixXd D) :
  (forall a b, a <= b -> m_coeff M a b = m_coeff M0 a b) ->
  let M' := for_loop (i + 1) n
              (fun kidxj M => mat_set M kidxj i (m_coeff M i kidxj)) M in
  (forall a b, a <= b -> m_coeff M' a b = m_coeff M0 a b)
  /\ (forall a, i < a < n -> m_coeff M' a i = m_coeff M0 i a)
  /\ (forall a b, b <> i -> m_coeff M' a b = m_coeff M a b).
Proof.
  intros Hupper M'. subst M'.
  destruct (Z_lt_le_dec n (i + 1)) as [Hn | Hn].
  { rewrite for_loop_empty by lia. repeat split; auto. intros; lia. }
  apply (for_loop_invariant
           (fun j M' =>
              (forall a b, a <= b -> m_coeff M' a b = m_coeff M0 a b)
              /\ (forall a, i < a < j -> m_coeff M' a i = m_coeff M0 i a)
              /\ (forall a b, b <> i -> m_coeff M' a b = m_coeff M a b))).
  - exact Hn.
  - repeat split; auto. intros; lia.
  - intros j T Hj (Hup & Hcol & Hfr). repeat split.
    + intros a b Hab. rewrite mat_set_coeff.
      destruct (Z.eqb_spec a j); destruct (Z.eqb_spec b i); cbn [andb];
        try (apply Hup; lia). lia.
    + intros a Ha. rewrite mat_set_coeff, Z.eqb_refl, andb_true_r.
      destruct (Z.eqb_spec a j) as [-> | Hne].
      * apply Hup. lia.
      * apply Hcol. lia.
    + intros a b Hb. rewrite mat_set_coeff.
      destruct (Z.eqb_spec b i); [contradiction|].
      rewrite andb_false_r. now apply Hfr.
Qed.

Lemma mirror_spec (n : Z) (M : MatrixXd D) :
  (forall a b, a <= b -> m_coeff (mirror n M) a b = m_coeff M a b)
  /\ (forall a b, 0 <= b < a -> a < n -> m_coeff (mirror n M) a b = m_coeff M b a).
Proof.
  unfold mirror.
  destruct (Z_lt_le_dec n 0) as [Hn | Hn].
  { rewrite for_loop_empty by lia. split; [reflexivity | intros; lia]. }
  assert (Hinv :
    (forall a b, a <= b ->
       m_coeff (for_loop 0 n
                  (fun kidxi M =>
                     for_loop (kidxi + 1) n
                       (fun kidxj M => mat_set M kidxj kidxi (m_coeff M kidxi kidxj)) M)
                  M) a b = m_coeff M a b)
    /\ (forall a b, 0 <= b < n -> b < a < n ->
       m_coeff (for_loop 0 n
                  (fun kidxi M =>
                     for_loop (kidxi + 1) n
                       (fun kidxj M => mat_set M kidxj kidxi (m_coeff M kidxi kidxj)) M)
                  M) a b = m_coeff M b a)).
  { apply (for_loop_invariant
             (fun i M' =>
                (forall a b, a <= b -> m_coeff M' a b = m_coeff M a b)
                /\ (forall a b, 0 <= b < i -> b < a < n ->
                      m_coeff M' a b = m_coeff M b a))).
    - exact Hn.
    - split; [reflexivity | intros; lia].
    - intros i T Hi (Hup & Hlow).
      destruct (mirror_column n i M T Hup) as (Hup' & Hcol & Hfr).
      split; [exact Hup'|].
      intros a b Hb Ha.
      destruct (Z.eq_dec b i) as [-> | Hne].
      + apply Hcol. lia.
      + rewrite Hfr by assumption. apply Hlow; lia. }
  destruct Hinv as [Hup Hlow]. split; [exact Hup|].
  intros a b Hb Ha. apply Hlow; lia.
Qed.

Lemma mirror_symmetric (nParameters : Z) (M : MatrixXd D) (i j : Z) :
  0 <= i < nParameters -> 0 <= j < nParameters ->
  m_coeff (mirror nParameters M) i j = m_coeff (mirror nParameters M) j i.
Proof.
  destruct (mirror_spec nParameters M) as [Hup Hlow].
  intros Hi Hj.
  destruct (Z.lt_trichotomy i j) as [Hlt | [-> | Hgt]].
  - rewrite (Hup i j) by lia. rewrite (Hlow j i) by lia. reflexivity.
  - reflexivity.
  - rewrite (Hlow i j) by lia. rewrite (Hup j i) by lia. reflexivity.
Qed.

End MirrorProperties.

(** ** C1, C3: the pixel walk *)

Section WalkProperties.
Context {I V D K : Type} `{Arith I V D} `{EigenOps D} `{KernelOps I D K}.

Lemma mat_add_coeff (M : MatrixXd D) (i j : Z) (x : D) (a b : Z) :
  m_coeff (mat_add M i j x) a b =
  if (a =? i) && (b =? j) then dadd (m_coeff M i j) x else m_coeff M a b.
Proof. reflexivity. Qed.

Lemma vec_add_coeff (B : VectorXd D) (i : Z) (x : D) (a : Z) :
  v_coeff (vec_add B i x) a = if a =? i then dadd (v_coeff B i) x else v_coeff B a.
Proof. reflexivity. Qed.

Lemma nth_error_cons_Z {A : Type} (x : A) (l : list A) (n : Z) :
  0 < n -> nth_error (x :: l) (Z.to_nat n) = nth_error l (Z.to_nat (n - 1)).
Proof.
  intros Hn. replace (Z.to_nat n) with (S (Z.to_nat (n - 1))) by lia. reflexivity.
Qed.

Lemma nth_error_beyond {A : Type} (l : list A) (n : Z) :
  Z.of_nat (length l) <= n -> nth_error l (Z.to_nat n) = None.
Proof. intros Hn. apply nth_error_None. lia. Qed.

Lemma nth_error_Some_Z {A : Type} (l : list A) (i : Z) (x : A) :
  0 <= i -> nth_error l (Z.to_nat i) = Some x -> i < Z.of_nat (length l).
Proof.
  intros Hi Hnth.
  assert (Z.to_nat i < length l)%nat by (apply nth_error_Some; congruence).
  lia.
Qed.

(** The [kidxj] loop adds one product to each [M(kidxi, b)], [b] from
    [kidxj] on, and touches nothing else. *)
Lemma accumulate_j_coeff (cdImagei : I) (iVariance : D) (i : Z) :
  forall (citerj : list (Locator.t I)) (j : Z) (M : MatrixXd D) (a b : Z),
  m_coeff (accumulate_j cdImagei iVariance i citerj j M) a b =
  match (if (a =? i) && (j <=? b)
         then nth_error citerj (Z.to_nat (b - j)) else None) with
  | Some locj =>
      dadd (m_coeff M a b)
           (dmul (i2d (imul cdImagei (Locator.deref locj))) iVariance)
  | None => m_coeff M a b
  end.
Proof.
  induction citerj as [|loc rest IH]; intros j M a b; cbn [accumulate_j].
  - destruct ((a =? i) && (j <=? b)); [|reflexivity].
    now destruct (Z.to_nat (b - j)).
  - rewrite IH, mat_add_coeff.
    destruct (Z.eqb_spec a i) as [-> | Hai]; cbn [andb]; [|reflexivity].
    destruct (Z.leb_spec j b) as [Hjb | Hjb].
    + destruct (Z.eqb_spec b j) as [-> | Hbj].
      * destruct (Z.leb_spec (j + 1) j); [lia|].
        now rewrite Z.sub_diag.
      * destruct (Z.leb_spec (j + 1) b); [|lia].
        rewrite nth_error_cons_Z by lia.
        now replace (b - j - 1) with (b - (j + 1)) by lia.
    + destruct (Z.leb_spec (j + 1) b); [lia|].
      destruct (Z.eqb_spec b j); [lia | reflexivity].
Qed.

(** The [kidxi] loop on [M]. *)
Lemma accumulate_i_M (ncImage : I) (iVariance : D) (nParameters : Z) :
  forall (citeri : list (Locator.t I)) (k : Z) (MB : MatrixXd D * VectorXd D)
         (a b : Z),
  k + Z.of_nat (length citeri) <= nParameters - 1 ->
  m_coeff (fst (accumulate_i ncImage iVariance nParameters citeri k MB)) a b =
  match (if k <=? a then nth_error citeri (Z.to_nat (a - k)) else None) with
  | None => m_coeff (fst MB) a b
  | Some loca =>
      if b =? nParameters - 1
      then dadd (m_coeff (fst MB) a b) (dmul (i2d (Locator.deref loca)) iVariance)
      else
        match (if a <=? b then nth_error citeri (Z.to_nat (b - k)) else None) with
        | Some locb =>
            dadd (m_coeff (fst MB) a b)
                 (dmul (i2d (imul (Locator.deref loca) (Locator.deref locb)))
                       iVariance)
        | None => m_coeff (fst MB) a b
        end
  end.
Proof.
  induction citeri as [|loc rest IH]; intros k MB a b Hlen; cbn [accumulate_i].
  - destruct (k <=? a); [|reflexivity]. now destruct (Z.to_nat (a - k)).
  - cbn [length] in Hlen.
    rewrite IH by lia. cbn [fst].
    rewrite !mat_add_coeff, !accumulate_j_coeff.
    destruct (Z.leb_spec k a) as [Hka | Hka].
    + destruct (Z.eqb_spec a k) as [-> | Hak].
      * (* the row of this pass *)
        destruct (Z.leb_spec (k + 1) k); [lia|].
        rewrite Z.sub_diag. cbn [Z.to_nat nth_error andb].
        rewrite Z.eqb_refl. cbn [andb].
        destruct (Z.eqb_spec b (nParameters - 1)) as [-> | Hb].
        -- destruct (Z.leb_spec k (nParameters - 1)); [|lia].
           rewrite (@nth_error_beyond _ (loc :: rest)) by (cbn [length]; lia).
           reflexivity.
        -- reflexivity.
      * (* a later row *)
        destruct (Z.leb_spec (k + 1) a); [|lia]. cbn [andb].
        rewrite (@nth_error_cons_Z _ loc rest (a - k)) by lia.
        replace (a - k - 1) with (a - (k + 1)) by lia.
        destruct (nth_error rest (Z.to_nat (a - (k + 1)))) as [loca|].
        -- destruct (Z.eqb_spec b (nParameters - 1)); [reflexivity|].
           destruct (Z.leb_spec a b); [|reflexivity].
           rewrite (@nth_error_cons_Z _ loc rest (b - k)) by lia.
           now replace (b - k - 1) with (b - (k + 1)) by lia.
        -- reflexivity.
    + destruct (Z.leb_spec (k + 1) a); [lia|].
      destruct (Z.eqb_spec a k); [lia|]. reflexivity.
Qed.

(** The [kidxi] loop on [B]. *)
Lemma accumulate_i_B (ncImage : I) (iVariance : D) (nParameters : Z) :
  forall (citeri : list (Locator.t I)) (k : Z) (MB : MatrixXd D * VectorXd D)
         (a : Z),
  v_coeff (snd (accumulate_i ncImage iVariance nParameters citeri k MB)) a =
  match (if k <=? a then nth_error citeri (Z.to_nat (a - k)) else None) with
  | None => v_coeff (snd MB) a
  | Some loca =>
      dadd (v_coeff (snd MB) a)
           (dmul (i2d (imul ncImage (Locator.deref loca))) iVariance)
  end.
Proof.
  induction citeri as [|loc rest IH]; intros k MB a; cbn [accumulate_i].
  - destruct (k <=? a); [|reflexivity]. now destruct (Z.to_nat (a - k)).
  - rewrite IH. cbn [snd]. rewrite vec_add_coeff.
    destruct (Z.leb_spec k a) as [Hka | Hka].
    + destruct (Z.eqb_spec a k) as [-> | Hak].
      * destruct (Z.leb_spec (k + 1) k); [lia|].
        now rewrite Z.sub_diag.
      * destruct (Z.leb_spec (k + 1) a); [|lia].
        rewrite nth_error_cons_Z by lia.
        now replace (a - k - 1) with (a - (k + 1)) by lia.
    + destruct (Z.leb_spec (k + 1) a); [lia|].
      destruct (Z.eqb_spec a k); [lia|]. reflexivity.
Qed.

(** *** The locators follow the loop counters *)

Section Walk.
Variable nParameters : Z.
Variables imageToConvolve imageToNotConvolve : Image.t I.
Variable varianceEstimate : Image.t V.
Variable convolvedImageList : list (Image.t I).

Let at_ := walkAt (D:=D) imageToConvolve imageToNotConvolve varianceEstimate
             convolvedImageList.
Let acc := accumulatePixel nParameters imageToConvolve imageToNotConvolve
             varianceEstimate convolvedImageList.

Lemma pixelStep_walkAt (MB : MatrixXd D * VectorXd D) (col row : Z) :
  pixelStep nParameters (at_ MB col row) = at_ (acc MB (col, row)) (col + 1) row.
Proof.
  unfold at_, acc, accumulatePixel, walkAt, pixelStep.
  cbn [fst snd wM wB imageToConvolveLocator imageToNotConvolveLocator
       varianceLocator convolvedLocatorList].
  f_equal. rewrite map_map. apply map_ext. reflexivity.
Qed.

Lemma nextRow_walkAt (MB : MatrixXd D * VectorXd D) (c0 c1 row : Z) :
  nextRow (- (c1 - c0), 1) (at_ MB c1 row) = at_ MB c0 (row + 1).
Proof.
  unfold at_, walkAt, nextRow, Locator.advance, Locator.xy_at.
  cbn [fst snd wM wB imageToConvolveLocator imageToNotConvolveLocator
       varianceLocator convolvedLocatorList Locator.x Locator.y Locator.image].
  replace (c1 + - (c1 - c0)) with c0 by lia.
  f_equal. rewrite map_map. apply map_ext. intros img.
  cbn [Locator.x Locator.y Locator.image fst snd].
  now replace (c1 + - (c1 - c0)) with c0 by lia.
Qed.

(** One row: the [col] loop visits the pixels of the row from [c0] up to
    [c1], and leaves the locators on column [c1]. *)
Lemma colLoop_walkAt (MB : MatrixXd D * VectorXd D) (c0 c1 row : Z) :
  c0 <= c1 ->
  for_loop c0 c1 (fun _col st => pixelStep nParameters st) (at_ MB c0 row) =
  at_ (fold_left acc (map (fun col => (col, row)) (zrange c0 c1)) MB) c1 row.
Proof.
  intros Hle.
  apply (for_loop_invariant
           (fun i st =>
              st = at_ (fold_left acc (map (fun col => (col, row)) (zrange c0 i)) MB)
                     i row)).
  - exact Hle.
  - now rewrite zrange_empty by lia.
  - intros i st Hi ->.
    rewrite pixelStep_walkAt, zrange_snoc by lia.
    now rewrite map_app, fold_left_app.
Qed.

Lemma fold_left_flat_map {A B C : Type} (f : A -> B -> A) (g : C -> list B) :
  forall (l : list C) (a : A),
  fold_left f (flat_map g l) a = fold_left (fun a c => fold_left f (g c) a) l a.
Proof.
  induction l as [|c l IH]; intros a; cbn [flat_map fold_left].
  - reflexivity.
  - now rewrite fold_left_app, IH.
Qed.

Lemma flat_map_nil {A B : Type} (g : A -> list B) (l : list A) :
  (forall a, g a = []) -> flat_map g l = [].
Proof.
  intros Hg. induction l as [|a l IH]; cbn [flat_map]; [reflexivity|].
  now rewrite Hg, IH.
Qed.

(** The whole walk, read as a fold over the pixels of the window: the
    locators read pixel [(col, row)] exactly when the loop counters are
    [col] and [row]. *)
Lemma pixelWalk_fold (w : Window) (MB : MatrixXd D * VectorXd D) :
  let st' := pixelWalk nParameters w (at_ MB (startCol w) (startRow w)) in
  (wM st', wB st') = fold_left acc (windowPixels w) MB.
Proof.
  cbv zeta. unfold pixelWalk, windowPixels.
  destruct (Z_lt_le_dec (endRow w) (startRow w)) as [Hrow | Hrow].
  { rewrite for_loop_empty by lia. rewrite (@zrange_empty (startRow w) (endRow w)) by lia.
    now destruct MB. }
  destruct (Z_lt_le_dec (endCol w) (startCol w)) as [Hcol | Hcol].
  - (* no column: the rows are walked without reading a pixel *)
    rewrite flat_map_nil
      by (intros row; now rewrite (@zrange_empty (startCol w) (endCol w)) by lia).
    cbn [fold_left].
    apply (for_loop_invariant (fun (_ : Z) st => (wM st, wB st) = MB)).
    + exact Hrow.
    + now destruct MB.
    + intros row st _ Hst. rewrite for_loop_empty by lia. exact Hst.
  - rewrite fold_left_flat_map.
    assert (Hst :
      for_loop (startRow w) (endRow w)
        (fun _row st =>
           nextRow (- (endCol w - startCol w), 1)
             (for_loop (startCol w) (endCol w)
                (fun _col st => pixelStep nParameters st) st))
        (at_ MB (startCol w) (startRow w)) =
      at_ (fold_left
             (fun a row =>
                fold_left acc
                  (map (fun col => (col, row)) (zrange (startCol w) (endCol w))) a)
             (zrange (startRow w) (endRow w)) MB)
          (startCol w) (endRow w)).
    { apply (for_loop_invariant
               (fun r st =>
                  st = at_ (fold_left
                              (fun a row =>
                                 fold_left acc
                                   (map (fun col => (col, row))
                                        (zrange (startCol w) (endCol w))) a)
                              (zrange (startRow w) r) MB)
                           (startCol w) r)).
      - exact Hrow.
      - now rewrite (@zrange_empty (startRow w) (startRow w)) by lia.
      - intros r st Hr ->.
        rewrite colLoop_walkAt by exact Hcol.
        rewrite nextRow_walkAt.
        rewrite (@zrange_snoc (startRow w) r) by lia.
        now rewrite fold_left_app. }
    rewrite Hst. unfold at_, walkAt. cbn [wM wB].
    now destruct (fold_left _ _ MB).
Qed.

(** *** What one pixel adds to each coefficient *)

Hypothesis nParameters_eq :
  nParameters = Z.of_nat (length convolvedImageList) + 1.

Lemma locator_lookup (col row i : Z) (ci : Image.t I) :
  nth_error convolvedImageList (Z.to_nat i) = Some ci ->
  nth_error (map (fun img => Locator.xy_at img col row) convolvedImageList)
            (Z.to_nat (i - 0)) = Some (Locator.xy_at ci col row).
Proof. intros Hi. now rewrite Z.sub_0_r, nth_error_map, Hi. Qed.

Lemma accumulatePixel_M (MB : MatrixXd D * VectorXd D) (p : Z * Z)
  (i j : Z) (ci cj : Image.t I) :
  0 <= i <= j ->
  nth_error convolvedImageList (Z.to_nat i) = Some ci ->
  nth_error convolvedImageList (Z.to_nat j) = Some cj ->
  m_coeff (fst (acc MB p)) i j =
  dadd (m_coeff (fst MB) i j)
       (dmul (i2d (imul (pixelAt ci p) (pixelAt cj p))) (weight varianceEstimate p)).
Proof.
  intros Hij Hi Hj.
  pose proof (nth_error_Some_Z _ i _ (proj1 Hij) Hi) as Hi'.
  assert (0 <= j) as Hj0 by lia.
  pose proof (nth_error_Some_Z _ j _ Hj0 Hj) as Hj'.
  unfold acc, accumulatePixel, pixelStep, walkAt.
  cbn [fst snd wM wB imageToNotConvolveLocator varianceLocator
       convolvedLocatorList].
  rewrite mat_add_coeff.
  destruct (Z.eqb_spec i (nParameters - 1)); [lia|]. cbn [andb].
  rewrite accumulate_i_M by (rewrite length_map; lia).
  destruct (Z.leb_spec 0 i); [|lia].
  rewrite (locator_lookup _ _ _ _ Hi).
  destruct (Z.eqb_spec j (nParameters - 1)); [lia|].
  destruct (Z.leb_spec i j); [|lia].
  rewrite (locator_lookup _ _ _ _ Hj). reflexivity.
Qed.

Lemma accumulatePixel_M_background (MB : MatrixXd D * VectorXd D) (p : Z * Z)
  (i : Z) (ci : Image.t I) :
  0 <= i ->
  nth_error convolvedImageList (Z.to_nat i) = Some ci ->
  m_coeff (fst (acc MB p)) i (nParameters - 1) =
  dadd (m_coeff (fst MB) i (nParameters - 1))
       (dmul (i2d (pixelAt ci p)) (weight varianceEstimate p)).
Proof.
  intros Hi0 Hi.
  pose proof (nth_error_Some_Z _ i _ Hi0 Hi) as Hi'.
  unfold acc, accumulatePixel, pixelStep, walkAt.
  cbn [fst snd wM wB imageToNotConvolveLocator varianceLocator
       convolvedLocatorList].
  rewrite mat_add_coeff.
  destruct (Z.eqb_spec i (nParameters - 1)); [lia|]. cbn [andb].
  rewrite accumulate_i_M by (rewrite length_map; lia).
  destruct (Z.leb_spec 0 i); [|lia].
  rewrite (locator_lookup _ _ _ _ Hi).
  now rewrite Z.eqb_refl.
Qed.

Lemma accumulatePixel_M_corner (MB : MatrixXd D * VectorXd D) (p : Z * Z) :
  m_coeff (fst (acc MB p)) (nParameters - 1) (nParameters - 1) =
  dadd (m_coeff (fst MB) (nParameters - 1) (nParameters - 1))
       (dmul d1 (weight varianceEstimate p)).
Proof.
  unfold acc, accumulatePixel, pixelStep, walkAt.
  cbn [fst snd wM wB imageToNotConvolveLocator varianceLocator
       convolvedLocatorList].
  rewrite mat_add_coeff, !Z.eqb_refl. cbn [andb].
  rewrite accumulate_i_M by (rewrite length_map; lia).
  destruct (Z.leb_spec 0 (nParameters - 1)); [|reflexivity].
  rewrite nth_error_beyond by (rewrite length_map; lia).
  reflexivity.
Qed.

Lemma accumulatePixel_B (MB : MatrixXd D * VectorXd D) (p : Z * Z)
  (i : Z) (ci : Image.t I) :
  0 <= i ->
  nth_error convolvedImageList (Z.to_nat i) = Some ci ->
  v_coeff (snd (acc MB p)) i =
  dadd (v_coeff (snd MB) i)
       (dmul (i2d (imul (pixelAt imageToNotConvolve p) (pixelAt ci p)))
             (weight varianceEstimate p)).
Proof.
  intros Hi0 Hi.
  pose proof (nth_error_Some_Z _ i _ Hi0 Hi) as Hi'.
  unfold acc, accumulatePixel, pixelStep, walkAt.
  cbn [fst snd wM wB imageToNotConvolveLocator varianceLocator
       convolvedLocatorList].
  rewrite vec_add_coeff.
  destruct (Z.eqb_spec i (nParameters - 1)); [lia|].
  rewrite accumulate_i_B.
  destruct (Z.leb_spec 0 i); [|lia].
  rewrite (locator_lookup _ _ _ _ Hi). reflexivity.
Qed.

Lemma accumulatePixel_B_background (MB : MatrixXd D * VectorXd D) (p : Z * Z) :
  v_coeff (snd (acc MB p)) (nParameters - 1) =
  dadd (v_coeff (snd MB) (nParameters - 1))
       (dmul (i2d (pixelAt imageToNotConvolve p)) (weight varianceEstimate p)).
Proof.
  unfold acc, accumulatePixel, pixelStep, walkAt.
  cbn [fst snd wM wB imageToNotConvolveLocator varianceLocator
       convolvedLocatorList].
  rewrite vec_add_coeff, Z.eqb_refl.
  rewrite accumulate_i_B.
  destruct (Z.leb_spec 0 (nParameters - 1)); [|reflexivity].
  rewrite nth_error_beyond by (rewrite length_map; lia).
  reflexivity.
Qed.

(** A coefficient that every pixel increases by its term is, after the
    pixels [ps], the left-to-right sum of the terms. *)
Lemma fold_coefficient (proj : MatrixXd D * VectorXd D -> D) (term : Z * Z -> D) :
  (forall MB p, proj (acc MB p) = dadd (proj MB) (term p)) ->
  forall (ps : list (Z * Z)) (MB : MatrixXd D * VectorXd D),
  proj (fold_left acc ps MB) = fold_left (fun a p => dadd a (term p)) ps (proj MB).
Proof.
  intros Hstep. induction ps as [|p ps IH]; intros MB; cbn [fold_left].
  - reflexivity.
  - now rewrite IH, Hstep.
Qed.

(** *** Only the values under the locators matter *)

Lemma accumulate_j_ext (cdImagei : I) (iVariance : D) (i : Z) :
  forall (locs locs' : list (Locator.t I)), Forall2 Locator.sameValue locs locs' ->
  forall (j : Z) (M : MatrixXd D),
  accumulate_j cdImagei iVariance i locs j M =
  accumulate_j cdImagei iVariance i locs' j M.
Proof.
  induction 1 as [|l l' locs locs' Hl _ IH]; intros j M; cbn [accumulate_j].
  - reflexivity.
  - unfold Locator.sameValue in Hl. now rewrite Hl, IH.
Qed.

Lemma accumulate_i_ext (ncImage : I) (iVariance : D) (nP : Z) :
  forall (locs locs' : list (Locator.t I)), Forall2 Locator.sameValue locs locs' ->
  forall (k : Z) (MB : MatrixXd D * VectorXd D),
  accumulate_i ncImage iVariance nP locs k MB =
  accumulate_i ncImage iVariance nP locs' k MB.
Proof.
  induction 1 as [|l l' locs locs' Hl Hrest IH]; intros k MB; cbn [accumulate_i].
  - reflexivity.
  - rewrite (accumulate_j_ext _ _ _ (l :: locs) (l' :: locs'))
      by (constructor; assumption).
    unfold Locator.sameValue in Hl. now rewrite Hl, IH.
Qed.

End Walk.

(** Two families of images with the same values at [p] add the same to [M]
    and [B] at [p]. *)
Lemma accumulatePixel_ext (nP : Z) (itc itc' itnc itnc' : Image.t I)
  (var var' : Image.t V) (conv conv' : list (Image.t I))
  (MB : MatrixXd D * VectorXd D) (p : Z * Z) :
  pixelAt itnc p = pixelAt itnc' p ->
  pixelAt var p = pixelAt var' p ->
  Forall2 (fun c c' => pixelAt c p = pixelAt c' p) conv conv' ->
  accumulatePixel nP itc itnc var conv MB p =
  accumulatePixel nP itc' itnc' var' conv' MB p.
Proof.
  intros Hnc Hvar Hconv.
  unfold accumulatePixel, pixelStep, walkAt.
  cbn [fst snd wM wB imageToNotConvolveLocator varianceLocator
       convolvedLocatorList].
  change (Locator.deref (Locator.xy_at itnc (fst p) (snd p)))
    with (pixelAt itnc p).
  change (Locator.deref (Locator.xy_at itnc' (fst p) (snd p)))
    with (pixelAt itnc' p).
  change (Locator.deref (Locator.xy_at var (fst p) (snd p)))
    with (pixelAt var p).
  change (Locator.deref (Locator.xy_at var' (fst p) (snd p)))
    with (pixelAt var' p).
  rewrite Hnc, Hvar.
  rewrite (accumulate_i_ext _ _ _
             (map (fun img => Locator.xy_at img (fst p) (snd p)) conv)
             (map (fun img => Locator.xy_at img (fst p) (snd p)) conv')).
  - reflexivity.
  - induction Hconv; cbn [map]; constructor; assumption.
Qed.

Lemma fold_accumulatePixel_ext (nP : Z) (itc itc' itnc itnc' : Image.t I)
  (var var' : Image.t V) (conv conv' : list (Image.t I)) :
  forall (ps : list (Z * Z)) (MB : MatrixXd D * VectorXd D),
  (forall p, In p ps ->
     pixelAt itnc p = pixelAt itnc' p /\ pixelAt var p = pixelAt var' p
     /\ Forall2 (fun c c' => pixelAt c p = pixelAt c' p) conv conv') ->
  fold_left (accumulatePixel nP itc itnc var conv) ps MB =
  fold_left (accumulatePixel nP itc' itnc' var' conv') ps MB.
Proof.
  induction ps as [|p ps IH]; intros MB Hps; cbn [fold_left].
  - reflexivity.
  - destruct (Hps p (or_introl eq_refl)) as (Hnc & Hvar & Hconv).
    rewrite (accumulatePixel_ext nP itc itc' itnc itnc' var var' conv conv')
      by assumption.
    apply IH. intros q Hq. apply Hps. now right.
Qed.

(** *** The assembled system *)

(** [assemble] is the fold of [accumulatePixel] over the pixels of the
    window of the first basis kernel, followed by the mirroring. *)
Lemma assemble_fold (kiter : K) (rest : list K)
  (itc itnc : Image.t I) (var : Image.t V) :
  let basisList := kiter :: rest in
  let nParameters := Z.of_nat (length basisList) + 1 in
  let w := mkWindow (kGetCtrX kiter) (kGetCtrY kiter)
             (Image.getWidth itc - (kGetWidth kiter - kGetCtrX kiter) + 1)
             (Image.getHeight itc - (kGetHeight kiter - kGetCtrY kiter) + 1) in
  let MB := fold_left
              (accumulatePixel nParameters itc itnc var (convolveBasis itc basisList))
              (windowPixels w)
              (MatrixXd_Zero nParameters nParameters, VectorXd_Zero nParameters) in
  assemble basisList itc itnc var = Some (mirror nParameters (fst MB), snd MB).
Proof.
  cbv zeta. unfold assemble.
  cbn [convolveBasis map validWindow Image.getWidth Image.getHeight].
  set (nP := Z.of_nat (length (kiter :: rest)) + 1).
  set (w := mkWindow _ _ _ _).
  pose proof (pixelWalk_fold nP itc itnc var
                (convolveBasis itc (kiter :: rest)) w
                (MatrixXd_Zero nP nP, VectorXd_Zero nP)) as Hfold.
  cbv zeta in Hfold. unfold walkAt in Hfold. cbn [fst snd] in Hfold.
  cbn [convolveBasis map] in Hfold.
  cbn [startCol startRow].
  change (startCol w) with (kGetCtrX kiter) in Hfold.
  change (startRow w) with (kGetCtrY kiter) in Hfold.
  rewrite <- Hfold. reflexivity.
Qed.

Lemma in_windowPixels (w : Window) (col row : Z) :
  In (col, row) (windowPixels w) <->
  startCol w <= col < endCol w /\ startRow w <= row < endRow w.
Proof.
  unfold windowPixels. rewrite in_flat_map. split.
  - intros (r & Hr & Hin). apply in_map_iff in Hin.
    destruct Hin as (c & Heq & Hc). inversion Heq; subst.
    apply in_zrange in Hr, Hc. lia.
  - intros [Hc Hr]. exists row. split; [now apply in_zrange|].
    apply in_map_iff. exists col. split; [reflexivity | now apply in_zrange].
Qed.

Lemma rows_NoDup (cols : list Z) :
  NoDup cols ->
  forall (n : nat) (r0 : Z),
  NoDup (flat_map (fun row => map (fun col => (col, row)) cols) (zrange_from r0 n)).
Proof.
  intros Hcols. induction n as [|n IH]; intros r0; cbn [zrange_from flat_map].
  - constructor.
  - apply NoDup_app.
    + clear IH. induction Hcols as [|c cols Hc _ IHc]; cbn [map]; constructor.
      * rewrite in_map_iff. intros (c' & Heq & Hc'). inversion Heq; subst.
        contradiction.
      * exact IHc.
    + apply IH.
    + intros [c r] Hin Hin'. apply in_map_iff in Hin.
      destruct Hin as (c' & Heq & _). inversion Heq; subst.
      apply in_flat_map in Hin'. destruct Hin' as (r' & Hr' & Hin').
      apply in_map_iff in Hin'. destruct Hin' as (c'' & Heq' & _).
      inversion Heq'; subst. apply in_zrange_from in Hr'. lia.
Qed.

Lemma windowPixels_NoDup (w : Window) : NoDup (windowPixels w).
Proof.
  unfold windowPixels, zrange. apply rows_NoDup, zrange_from_NoDup.
Qed.

Lemma windowSum_ext (w : Window) (f g : Z * Z -> D) :
  (forall p, In p (windowPixels w) -> f p = g p) -> windowSum w f = windowSum w g.
Proof.
  unfold windowSum. generalize (d0 : D). generalize (windowPixels w).
  intros ps. induction ps as [|p ps IH]; intros a Hfg; cbn [fold_left].
  - reflexivity.
  - rewrite (Hfg p (or_introl eq_refl)). apply IH.
    intros q Hq. apply Hfg. now right.
Qed.

(** What every pixel of the window adds: each coefficient of the upper
    triangle of [M] and each coefficient of [B] is the sum, over the pixels
    of the window in the order of the walk, of the term read at the pixel. *)
Lemma assembled_sums (kiter : K) (rest : list K)
  (imageToConvolve imageToNotConvolve : Image.t I) (varianceEstimate : Image.t V) :
  let basisList := kiter :: rest in
  let N := Z.of_nat (length basisList) in
  let w := mkWindow (kGetCtrX kiter) (kGetCtrY kiter)
             (Image.getWidth imageToConvolve
              - (kGetWidth kiter - kGetCtrX kiter) + 1)
             (Image.getHeight imageToConvolve
              - (kGetHeight kiter - kGetCtrY kiter) + 1) in
  let v := weight varianceEstimate in
  let nc := pixelAt imageToNotConvolve in
  let c (k : K) (p : Z * Z) := convolve imageToConvolve k (fst p) (snd p) in
  exists M B,
    assemble basisList imageToConvolve imageToNotConvolve varianceEstimate
      = Some (M, B)
    /\ (forall i j ki kj,
          0 <= i <= j ->
          nth_error basisList (Z.to_nat i) = Some ki ->
          nth_error basisList (Z.to_nat j) = Some kj ->
          m_coeff M i j
            = windowSum w (fun p => dmul (i2d (imul (c ki p) (c kj p))) (v p)))
    /\ (forall i ki,
          0 <= i ->
          nth_error basisList (Z.to_nat i) = Some ki ->
          v_coeff B i
            = windowSum w (fun p => dmul (i2d (imul (nc p) (c ki p))) (v p))
          /\ m_coeff M i N = windowSum w (fun p => dmul (i2d (c ki p)) (v p)))
    /\ v_coeff B N = windowSum w (fun p => dmul (i2d (nc p)) (v p))
    /\ m_coeff M N N = windowSum w (fun p => dmul d1 (v p)).
Proof.
  cbv zeta.
  set (basisList := kiter :: rest).
  set (N := Z.of_nat (length basisList)).
  set (w := mkWindow _ _ _ _).
  set (conv := convolveBasis imageToConvolve basisList).
  set (acc := accumulatePixel (N + 1) imageToConvolve imageToNotConvolve
                varianceEstimate conv).
  set (MB := fold_left acc (windowPixels w)
               (MatrixXd_Zero (N + 1) (N + 1), VectorXd_Zero (N + 1))).
  assert (HnP : N + 1 = Z.of_nat (length conv) + 1).
  { unfold conv, convolveBasis. now rewrite length_map. }
  assert (Hconv : forall i ki, nth_error basisList (Z.to_nat i) = Some ki ->
            nth_error conv (Z.to_nat i) =
            Some (Image.mk (Image.getWidth imageToConvolve)
                           (Image.getHeight imageToConvolve) 0 0
                           (convolve imageToConvolve ki))).
  { intros i ki Hi. unfold conv, convolveBasis. now rewrite nth_error_map, Hi. }
  exists (mirror (N + 1) (fst MB)), (snd MB).
  split; [apply assemble_fold|].
  destruct (mirror_spec (N + 1) (fst MB)) as [Hup _].
  replace (N + 1 - 1) with N in * by lia.
  split; [|split; [|split]].
  - intros i j ki kj Hij Hi Hj. rewrite Hup by lia.
    unfold MB, windowSum.
    rewrite (fold_coefficient (N + 1) imageToConvolve imageToNotConvolve
               varianceEstimate conv (fun MB => m_coeff (fst MB) i j)
               (fun p => dmul (i2d (imul (convolve imageToConvolve ki (fst p) (snd p))
                                         (convolve imageToConvolve kj (fst p) (snd p))))
                              (weight varianceEstimate p))).
    + reflexivity.
    + intros MB' p.
      apply (accumulatePixel_M (N + 1) imageToConvolve imageToNotConvolve
               varianceEstimate conv HnP MB' p i j _ _ Hij
               (Hconv i ki Hi) (Hconv j kj Hj)).
  - intros i ki Hi0 Hi. split.
    + unfold MB, windowSum.
      rewrite (fold_coefficient (N + 1) imageToConvolve imageToNotConvolve
                 varianceEstimate conv (fun MB => v_coeff (snd MB) i)
                 (fun p => dmul (i2d (imul (pixelAt imageToNotConvolve p)
                                           (convolve imageToConvolve ki (fst p) (snd p))))
                                (weight varianceEstimate p))).
      * reflexivity.
      * intros MB' p.
        apply (accumulatePixel_B (N + 1) imageToConvolve imageToNotConvolve
                 varianceEstimate conv HnP MB' p i _ Hi0 (Hconv i ki Hi)).
    + pose proof (nth_error_Some_Z _ i _ Hi0 Hi) as Hi'. fold N in Hi'.
      rewrite Hup by lia.
      unfold MB, windowSum.
      rewrite (fold_coefficient (N + 1) imageToConvolve imageToNotConvolve
                 varianceEstimate conv (fun MB => m_coeff (fst MB) i N)
                 (fun p => dmul (i2d (convolve imageToConvolve ki (fst p) (snd p)))
                                (weight varianceEstimate p))).
      * reflexivity.
      * intros MB' p.
        pose proof (accumulatePixel_M_background (N + 1) imageToConvolve
                      imageToNotConvolve varianceEstimate conv HnP MB' p i _ Hi0
                      (Hconv i ki Hi)) as Hbg.
        now replace (N + 1 - 1) with N in Hbg by lia.
  - unfold MB, windowSum.
    rewrite (fold_coefficient (N + 1) imageToConvolve imageToNotConvolve
               varianceEstimate conv (fun MB => v_coeff (snd MB) N)
               (fun p => dmul (i2d (pixelAt imageToNotConvolve p))
                              (weight varianceEstimate p))).
    + reflexivity.
    + intros MB' p.
      pose proof (accumulatePixel_B_background (N + 1) imageToConvolve
                    imageToNotConvolve varianceEstimate conv HnP MB' p) as Hbg.
      now replace (N + 1 - 1) with N in Hbg by lia.
  - rewrite Hup by lia.
    unfold MB, windowSum.
    rewrite (fold_coefficient (N + 1) imageToConvolve imageToNotConvolve
               varianceEstimate conv (fun MB => m_coeff (fst MB) N N)
               (fun p => dmul d1 (weight varianceEstimate p))).
    + reflexivity.
    + intros MB' p.
      pose proof (accumulatePixel_M_corner (N + 1) imageToConvolve
                    imageToNotConvolve varianceEstimate conv HnP MB' p) as Hbg.
      now replace (N + 1 - 1) with N in Hbg by lia.
Qed.

(** C3.  For a first basis kernel of width kw, height kh and centre
    (cx, cy), and images of the given width and height, the walk covers
    exactly the pixels with cx <= col < width - (kw - cx) + 1 and
    cy <= row < height - (kh - cy) + 1, each once.  Every pixel of the
    window contributes: the coefficients of [B] and of the upper triangle
    of [M] are the sums, over the pixels of the window in the order of the
    walk, of the terms read at these pixels (the not-convolved pixel, the
    weight and the convolved pixels at that position).  No other pixel
    contributes: the assembled [M], [B] are the accumulation over these
    pixels (followed by the mirroring), and they are the same for any
    images that have the same values on these pixels. *)
Theorem walk_covers_window (kiter : K) (rest : list K)
  (imageToConvolve imageToNotConvolve : Image.t I) (varianceEstimate : Image.t V) :
  let basisList := kiter :: rest in
  let N := Z.of_nat (length basisList) in
  let nParameters := N + 1 in
  let convolved := convolveBasis imageToConvolve basisList in
  let w := mkWindow (kGetCtrX kiter) (kGetCtrY kiter)
             (Image.getWidth imageToConvolve
              - (kGetWidth kiter - kGetCtrX kiter) + 1)
             (Image.getHeight imageToConvolve
              - (kGetHeight kiter - kGetCtrY kiter) + 1) in
  let zero := (MatrixXd_Zero nParameters nParameters, VectorXd_Zero nParameters) in
  let walked itnc var conv :=
    fold_left (accumulatePixel nParameters imageToConvolve itnc var conv)
              (windowPixels w) zero in
  let v := weight varianceEstimate in
  let nc := pixelAt imageToNotConvolve in
  let c (k : K) (p : Z * Z) := convolve imageToConvolve k (fst p) (snd p) in
  (forall col row,
     In (col, row) (windowPixels w) <->
     kGetCtrX kiter <= col
       < Image.getWidth imageToConvolve - (kGetWidth kiter - kGetCtrX kiter) + 1
     /\ kGetCtrY kiter <= row
       < Image.getHeight imageToConvolve - (kGetHeight kiter - kGetCtrY kiter) + 1)
  /\ NoDup (windowPixels w)
  /\ assemble basisList imageToConvolve imageToNotConvolve varianceEstimate =
     Some (mirror nParameters
             (fst (walked imageToNotConvolve varianceEstimate convolved)),
           snd (walked imageToNotConvolve varianceEstimate convolved))
  /\ (forall itnc' var' conv',
        (forall p, In p (windowPixels w) ->
           pixelAt imageToNotConvolve p = pixelAt itnc' p
           /\ pixelAt varianceEstimate p = pixelAt var' p
           /\ Forall2 (fun c c' => pixelAt c p = pixelAt c' p) convolved conv') ->
        walked imageToNotConvolve varianceEstimate convolved =
        walked itnc' var' conv')
  /\ (forall M B,
        assemble basisList imageToConvolve imageToNotConvolve varianceEstimate
          = Some (M, B) ->
        (forall i j ki kj,
           0 <= i <= j ->
           nth_error basisList (Z.to_nat i) = Some ki ->
           nth_error basisList (Z.to_nat j) = Some kj ->
           m_coeff M i j
             = windowSum w (fun p => dmul (i2d (imul (c ki p) (c kj p))) (v p)))
        /\ (forall i ki,
              0 <= i ->
              nth_error basisList (Z.to_nat i) = Some ki ->
              v_coeff B i
                = windowSum w (fun p => dmul (i2d (imul (nc p) (c ki p))) (v p))
              /\ m_coeff M i N = windowSum w (fun p => dmul (i2d (c ki p)) (v p)))
        /\ v_coeff B N = windowSum w (fun p => dmul (i2d (nc p)) (v p))
        /\ m_coeff M N N = windowSum w (fun p => dmul d1 (v p))).
Proof.
  cbv zeta. split; [|split; [|split; [|split]]].
  - intros col row. rewrite in_windowPixels. reflexivity.
  - apply windowPixels_NoDup.
  - apply assemble_fold.
  - intros itnc' var' conv' Hsame.
    now apply fold_accumulatePixel_ext.
  - intros M B Hass.
    pose proof (assembled_sums kiter rest imageToConvolve imageToNotConvolve
                  varianceEstimate) as Hsums.
    cbv zeta in Hsums.
    destruct Hsums as (M' & B' & Hass' & Hsums).
    rewrite Hass in Hass'. injection Hass' as <- <-.
    exact Hsums.
Qed.

(** C1.  With v = 1/variance, nc the not-convolved pixel and c_k the pixel
    of the k-th basis-convolved image, the assembled system has, for
    0 <= i <= j < N: M(i,j) = sum of c_i*c_j*v, B(i) = sum of nc*c_i*v,
    M(i,N) = sum of c_i*v, and B(N) = sum of nc*v, M(N,N) = sum of v, every
    sum running over the pixels of the window in row-major order.  The
    source adds 1.0*v to M(N,N); this is v wherever multiplication by 1.0
    returns its argument, which is the hypothesis (it holds in IEEE
    arithmetic: [binary64_mul_one_l] below proves it for doubles). *)
Theorem normal_equations_sums (kiter : K) (rest : list K)
  (imageToConvolve imageToNotConvolve : Image.t I) (varianceEstimate : Image.t V) :
  let basisList := kiter :: rest in
  let N := Z.of_nat (length basisList) in
  let w := mkWindow (kGetCtrX kiter) (kGetCtrY kiter)
             (Image.getWidth imageToConvolve
              - (kGetWidth kiter - kGetCtrX kiter) + 1)
             (Image.getHeight imageToConvolve
              - (kGetHeight kiter - kGetCtrY kiter) + 1) in
  let v := weight varianceEstimate in
  let nc := pixelAt imageToNotConvolve in
  let c (k : K) (p : Z * Z) := convolve imageToConvolve k (fst p) (snd p) in
  (forall p, In p (windowPixels w) -> dmul d1 (v p) = v p) ->
  exists M B,
    assemble basisList imageToConvolve imageToNotConvolve varianceEstimate
      = Some (M, B)
    /\ (forall i j ki kj,
          0 <= i <= j ->
          nth_error basisList (Z.to_nat i) = Some ki ->
          nth_error basisList (Z.to_nat j) = Some kj ->
          m_coeff M i j
            = windowSum w (fun p => dmul (i2d (imul (c ki p) (c kj p))) (v p)))
    /\ (forall i ki,
          0 <= i ->
          nth_error basisList (Z.to_nat i) = Some ki ->
          v_coeff B i
            = windowSum w (fun p => dmul (i2d (imul (nc p) (c ki p))) (v p))
          /\ m_coeff M i N = windowSum w (fun p => dmul (i2d (c ki p)) (v p)))
    /\ v_coeff B N = windowSum w (fun p => dmul (i2d (nc p)) (v p))
    /\ m_coeff M N N = windowSum w v.
Proof.
  cbv zeta. intros Hone.
  set (basisList := kiter :: rest).
  set (N := Z.of_nat (length basisList)).
  set (w := mkWindow _ _ _ _).
  set (conv := convolveBasis imageToConvolve basisList).
  set (acc := accumulatePixel (N + 1) imageToConvolve imageToNotConvolve
                varianceEstimate conv).
  set (MB := fold_left acc (windowPixels w)
               (MatrixXd_Zero (N + 1) (N + 1), VectorXd_Zero (N + 1))).
  assert (HnP : N + 1 = Z.of_nat (length conv) + 1).
  { unfold conv, convolveBasis. now rewrite length_map. }
  assert (Hconv : forall i ki, nth_error basisList (Z.to_nat i) = Some ki ->
            nth_error conv (Z.to_nat i) =
            Some (Image.mk (Image.getWidth imageToConvolve)
                           (Image.getHeight imageToConvolve) 0 0
                           (convolve imageToConvolve ki))).
  { intros i ki Hi. unfold conv, convolveBasis. now rewrite nth_error_map, Hi. }
  exists (mirror (N + 1) (fst MB)), (snd MB).
  split; [apply assemble_fold|].
  destruct (mirror_spec (N + 1) (fst MB)) as [Hup _].
  replace (N + 1 - 1) with N in * by lia.
  split; [|split; [|split]].
  - intros i j ki kj Hij Hi Hj. rewrite Hup by lia.
    unfold MB, windowSum.
    rewrite (fold_coefficient (N + 1) imageToConvolve imageToNotConvolve
               varianceEstimate conv (fun MB => m_coeff (fst MB) i j)
               (fun p => dmul (i2d (imul (convolve imageToConvolve ki (fst p) (snd p))
                                         (convolve imageToConvolve kj (fst p) (snd p))))
                              (weight varianceEstimate p))).
    + reflexivity.
    + intros MB' p.
      apply (accumulatePixel_M (N + 1) imageToConvolve imageToNotConvolve
               varianceEstimate conv HnP MB' p i j _ _ Hij
               (Hconv i ki Hi) (Hconv j kj Hj)).
  - intros i ki Hi0 Hi. split.
    + unfold MB, windowSum.
      rewrite (fold_coefficient (N + 1) imageToConvolve imageToNotConvolve
                 varianceEstimate conv (fun MB => v_coeff (snd MB) i)
                 (fun p => dmul (i2d (imul (pixelAt imageToNotConvolve p)
                                           (convolve imageToConvolve ki (fst p) (snd p))))
                                (weight varianceEstimate p))).
      * reflexivity.
      * intros MB' p.
        apply (accumulatePixel_B (N + 1) imageToConvolve imageToNotConvolve
                 varianceEstimate conv HnP MB' p i _ Hi0 (Hconv i ki Hi)).
    + pose proof (nth_error_Some_Z _ i _ Hi0 Hi) as Hi'. fold N in Hi'.
      rewrite Hup by lia.
      unfold MB, windowSum.
      rewrite (fold_coefficient (N + 1) imageToConvolve imageToNotConvolve
                 varianceEstimate conv (fun MB => m_coeff (fst MB) i N)
                 (fun p => dmul (i2d (convolve imageToConvolve ki (fst p) (snd p)))
                                (weight varianceEstimate p))).
      * reflexivity.
      * intros MB' p.
        pose proof (accumulatePixel_M_background (N + 1) imageToConvolve
                      imageToNotConvolve varianceEstimate conv HnP MB' p i _ Hi0
                      (Hconv i ki Hi)) as Hbg.
        now replace (N + 1 - 1) with N in Hbg by lia.
  - unfold MB, windowSum.
    rewrite (fold_coefficient (N + 1) imageToConvolve imageToNotConvolve
               varianceEstimate conv (fun MB => v_coeff (snd MB) N)
               (fun p => dmul (i2d (pixelAt imageToNotConvolve p))
                              (weight varianceEstimate p))).
    + reflexivity.
    + intros MB' p.
      pose proof (accumulatePixel_B_background (N + 1) imageToConvolve
                    imageToNotConvolve varianceEstimate conv HnP MB' p) as Hbg.
      now replace (N + 1 - 1) with N in Hbg by lia.
  - rewrite Hup by lia.
    rewrite <- (windowSum_ext w _ _ Hone).
    unfold MB, windowSum.
    rewrite (fold_coefficient (N + 1) imageToConvolve imageToNotConvolve
               varianceEstimate conv (fun MB => m_coeff (fst MB) N N)
               (fun p => dmul d1 (weight varianceEstimate p))).
    + reflexivity.
    + intros MB' p.
      pose proof (accumulatePixel_M_corner (N + 1) imageToConvolve
                    imageToNotConvolve varianceEstimate conv HnP MB' p) as Hbg.
      now replace (N + 1 - 1) with N in Hbg by lia.
Qed.

(** C2.  Whatever the basis list and the images, the assembled
    (N+1)x(N+1) matrix is symmetric after the mirroring: M(i,j) and M(j,i)
    are the same value, not merely close ones, for all indices of the
    matrix. *)
Theorem assembled_matrix_symmetric (basisList : list K)
  (imageToConvolve imageToNotConvolve : Image.t I) (varianceEstimate : Image.t V)
  (M : MatrixXd D) (B : VectorXd D) (i j : Z) :
  assemble basisList imageToConvolve imageToNotConvolve varianceEstimate
    = Some (M, B) ->
  0 <= i < Z.of_nat (length basisList) + 1 ->
  0 <= j < Z.of_nat (length basisList) + 1 ->
  m_coeff M i j = m_coeff M j i.
Proof.
  intros Hass Hi Hj.
  destruct basisList as [|kiter rest]; [discriminate Hass|].
  pose proof (assemble_fold kiter rest imageToConvolve imageToNotConvolve
                varianceEstimate) as Hfold.
  cbv zeta in Hfold. rewrite Hfold in Hass.
  injection Hass as <- _.
  now apply mirror_symmetric.
Qed.

End WalkProperties.

(** *** The hypothesis of C1 in binary64

    Multiplication by 1.0 returns its argument for every binary64 value:
    the product of the mantissas is the mantissa shifted by 52 bits, which
    the rounding shifts back without losing a bit. *)

Lemma digits2_xO (p : positive) :
  Z.pos (digits2_pos p~0) = Z.pos (digits2_pos p) + 1.
Proof. cbn [digits2_pos]. lia. Qed.

Lemma SF64mul_one_l (s : spec_float) :
  SpecFloat.valid_binary prec emax s = true -> SF64mul (Prim2SF PrimFloat.one) s = s.
Proof.
  replace (Prim2SF PrimFloat.one)
    with (S754_finite false 4503599627370496 (-52))
    by (vm_compute; reflexivity).
  destruct s as [sg | sg | | sg m e]; try reflexivity.
  unfold SpecFloat.valid_binary, bounded, canonical_mantissa. intros Hb.
  apply andb_true_iff in Hb. destruct Hb as [Hcanon Hmax].
  apply Z.eqb_eq in Hcanon. apply Z.leb_le in Hmax.
  unfold SF64mul, SFmul, binary_round_aux.
  cbn [xorb Pos.mul].
  match goal with
  | |- context [shr_fexp prec emax (Z.pos ?p) (-52 + e) loc_Exact] => set (mm := p)
  end.
  assert (Hfirst : shr_fexp prec emax (Z.pos mm) (-52 + e) loc_Exact
                   = ({| shr_m := Z.pos m; shr_r := false; shr_s := false |}, e)).
  { unfold shr_fexp.
    assert (Hdig : Zdigits2 (Z.pos mm) = Z.pos (digits2_pos m) + 52).
    { unfold Zdigits2, mm. rewrite !digits2_xO. lia. }
    rewrite Hdig.
    replace (Z.pos (digits2_pos m) + 52 + (-52 + e))
      with (Z.pos (digits2_pos m) + e) by lia.
    rewrite Hcanon.
    replace (e - (-52 + e)) with 52 by lia.
    unfold shr, shr_record_of_loc, mm.
    replace (-52 + e + 52) with e by lia.
    reflexivity. }
  rewrite Hfirst.
  cbn [shr_m loc_of_shr_record round_nearest_even shr_r shr_s].
  assert (Hsecond : shr_fexp prec emax (Z.pos m) e loc_Exact
                    = ({| shr_m := Z.pos m; shr_r := false; shr_s := false |}, e)).
  { unfold shr_fexp. cbn [Zdigits2]. rewrite Hcanon, Z.sub_diag. reflexivity. }
  rewrite Hsecond. cbn [shr_m].
  destruct (Z.leb_spec e (emax - prec)); [reflexivity | lia].
Qed.

Lemma binary64_mul_one_l (x : float) : PrimFloat.mul PrimFloat.one x = x.
Proof.
  apply Prim2SF_inj. rewrite FloatAxioms.mul_spec.
  apply SF64mul_one_l, Prim2SF_valid.
Qed.

(** So the hypothesis of [normal_equations_sums] holds for all images of
    doubles. *)
Lemma binary64_weight_times_one (varianceEstimate : Image.t float) (p : Z * Z) :
  dmul d1 (weight varianceEstimate p) = weight varianceEstimate p.
Proof. apply binary64_mul_one_l. Qed.

(** The example system, computed: the window is columns 0..2, rows 0..2. *)
Example exWindow_pixels :
  windowPixels (validWindow exKernel0 exTemplate)
  = [(0,0); (1,0); (2,0); (0,1); (1,1); (2,1); (0,2); (1,2); (2,2)].
Proof. reflexivity. Qed.

Lemma normal_equations_sums_witness :
  exists M B,
    assemble exBasis exTemplate exScience exVariance = Some (M, B)
    /\ m_coeff M 2 2 = windowSum (validWindow exKernel0 exTemplate) (weight exVariance)
    /\ m_coeff M 2 2 = 18%float.
Proof.
  destruct (normal_equations_sums exKernel0 [exKernel1] exTemplate exScience
              exVariance) as (M & B & Hass & _ & _ & _ & HNN).
  - intros p _. apply binary64_weight_times_one.
  - assert (HNN' : m_coeff M 2 2
                   = windowSum (validWindow exKernel0 exTemplate) (weight exVariance))
      by exact HNN.
    exists M, B. split; [exact Hass|]. split; [exact HNN'|].
    rewrite HNN'. reflexivity.
Defined.

Lemma assembled_matrix_symmetric_witness :
  exists M B,
    assemble exBasis exTemplate exScience exVariance = Some (M, B)
    /\ m_coeff M 0 2 = m_coeff M 2 0.
Proof.
  eexists _, _. split; [reflexivity|].
  eapply (assembled_matrix_symmetric exBasis exTemplate exScience exVariance);
    [reflexivity | cbn; lia | cbn; lia].
Defined.

(** ** C4: the solver cascade *)

Section CascadeProperties.
Context {I V D K : Type} `{Arith I V D} `{EigenOps D} `{KernelOps I D K}.

Lemma vec_set_coeff (B : VectorXd D) (i : Z) (x : D) (a : Z) :
  v_coeff (vec_set B i x) a = if a =? i then x else v_coeff B a.
Proof. reflexivity. Qed.

(** The inversion loop leaves the size alone, inverts every eigenvalue that
    compares different from 0.0 and leaves the others as they are. *)
Lemma invertNonzero_spec (eValues : VectorXd D) :
  v_rows (invertNonzero eValues) = v_rows eValues
  /\ forall i, 0 <= i < v_rows eValues ->
       v_coeff (invertNonzero eValues) i =
       if dneb (v_coeff eValues i) d0
       then ddiv d1 (v_coeff eValues i)
       else v_coeff eValues i.
Proof.
  unfold invertNonzero.
  destruct (Z_lt_le_dec (v_rows eValues) 0) as [Hneg | Hpos].
  { rewrite for_loop_empty by lia. split; [reflexivity | intros; lia]. }
  set (body := fun (i : Z) (ev : VectorXd D) =>
                  if dneb (v_coeff ev i) d0
                  then vec_set ev i (ddiv d1 (v_coeff ev i)) else ev).
  pose (P := fun (k : Z) (ev' : VectorXd D) =>
       v_rows ev' = v_rows eValues
       /\ (forall i, 0 <= i < k ->
             v_coeff ev' i = if dneb (v_coeff eValues i) d0
                             then ddiv d1 (v_coeff eValues i)
                             else v_coeff eValues i)
       /\ (forall i, k <= i -> v_coeff ev' i = v_coeff eValues i)).
  assert (Hinv : P (v_rows eValues) (for_loop 0 (v_rows eValues) body eValues)).
  { apply (for_loop_invariant P); unfold P.
    - exact Hpos.
    - split; [reflexivity|]. split; [intros; lia | reflexivity].
    - intros k ev Hk (Hrows & Hdone & Htodo). unfold body.
      rewrite (Htodo k) by lia.
      destruct (dneb (v_coeff eValues k) d0) eqn:Hne.
      + split; [exact Hrows|]. split.
        * intros i Hi. rewrite vec_set_coeff.
          destruct (Z.eqb_spec i k) as [-> | Hik].
          -- now rewrite Hne.
          -- apply Hdone. lia.
        * intros i Hi. rewrite vec_set_coeff.
          destruct (Z.eqb_spec i k); [lia|]. apply Htodo. lia.
      + split; [exact Hrows|]. split.
        * intros i Hi. destruct (Z.eq_dec i k) as [-> | Hik].
          -- rewrite Hne. apply Htodo. lia.
          -- apply Hdone. lia.
        * intros i Hi. apply Htodo. lia. }
  destruct Hinv as (Hrows & Hdone & _). split; assumption.
Qed.

(** C4.  The stages are tried in the order LDL^T, LL^T, LU, eigen
    decomposition, each only when all the earlier ones failed (the trace
    records exactly the failures before the stage that answered).  The
    last stage inverts every eigenvalue that differs from 0.0, leaves the
    others, and returns R diag(..) R^T B.  When that stage raises, the
    cascade throws, nothing else is tried, and the fit ends with that
    exception. *)
Theorem solver_cascade_order (M : MatrixXd D) (B : VectorXd D) :
  (forall x, ldlt_solve M B = Some x -> solveCascade M B = ([], inr x))
  /\ (forall x, ldlt_solve M B = None -> llt_solve M B = Some x ->
        solveCascade M B = ([traceLDLT], inr x))
  /\ (forall x, ldlt_solve M B = None -> llt_solve M B = None ->
        lu_solve M B = Some x ->
        solveCascade M B = ([traceLDLT; traceLLT], inr x))
  /\ (forall R eValues,
        ldlt_solve M B = None -> llt_solve M B = None -> lu_solve M B = None ->
        selfAdjointEigenSolver M = Some (R, eValues) ->
        exists inverted,
          solveCascade M B =
            ([traceLDLT; traceLLT; traceLU],
             inr (mat_vec_mul
                    (mat_mul (mat_mul R (asDiagonal inverted)) (transpose R)) B))
          /\ v_rows inverted = v_rows eValues
          /\ forall i, 0 <= i < v_rows eValues ->
               v_coeff inverted i =
               if dneb (v_coeff eValues i) d0
               then ddiv d1 (v_coeff eValues i)
               else v_coeff eValues i)
  /\ (ldlt_solve M B = None -> llt_solve M B = None -> lu_solve M B = None ->
      selfAdjointEigenSolver M = None ->
      solveCascade M B =
        ([traceLDLT; traceLLT; traceLU; traceEigen], inl KernelSolutionFailed)
      /\ forall self kCols kRows,
           solveAndStore self kCols kRows M B =
           mkApplied self [traceLDLT; traceLLT; traceLU; traceEigen]
                     (Threw KernelSolutionFailed)).
Proof.
  unfold solveAndStore, solveCascade.
  split; [|split; [|split; [|split]]].
  - intros x ->. reflexivity.
  - intros x -> ->. reflexivity.
  - intros x -> -> ->. reflexivity.
  - intros R eValues -> -> -> ->.
    exists (invertNonzero eValues). split; [reflexivity|].
    apply invertNonzero_spec.
  - intros -> -> -> ->. split; reflexivity.
Qed.

End CascadeProperties.

(** ** The translation loop *)

Lemma zrange_from_app (a b : nat) :
  forall lo,
  zrange_from lo (a + b) = zrange_from lo a ++ zrange_from (lo + Z.of_nat a) b.
Proof.
  induction a as [|a IH]; intros lo.
  - cbn [Nat.add zrange_from app]. f_equal. lia.
  - cbn [Nat.add zrange_from app]. f_equal. rewrite IH. do 2 f_equal. lia.
Qed.

Lemma zrange_app (lo mid hi : Z) :
  lo <= mid <= hi -> zrange lo hi = zrange lo mid ++ zrange mid hi.
Proof.
  intros [Hlo Hhi]. unfold zrange.
  replace (Z.to_nat (hi - lo))
    with (Z.to_nat (mid - lo) + Z.to_nat (hi - mid))%nat by lia.
  rewrite zrange_from_app. do 2 f_equal. lia.
Qed.

Lemma zrange_length (lo hi : Z) : length (zrange lo hi) = Z.to_nat (hi - lo).
Proof. apply zrange_from_length. Qed.

Lemma for_each_E_app {E St : Type} (body : Z -> St -> E + St) (l1 l2 : list Z) :
  forall s,
  for_each_E body (l1 ++ l2) s =
  match for_each_E body l1 s with
  | inl e => inl e
  | inr s' => for_each_E body l2 s'
  end.
Proof.
  induction l1 as [|i l1 IH]; intros s; cbn [app for_each_E].
  - reflexivity.
  - destruct (body i s); [reflexivity | apply IH].
Qed.

(** A body that ignores the counter runs as many times as the list is
    long. *)
Lemma for_each_E_length {E St : Type} (f : St -> E + St) (l l' : list Z) :
  length l = length l' ->
  forall s, for_each_E (fun _ => f) l s = for_each_E (fun _ => f) l' s.
Proof.
  revert l'. induction l as [|i l IH]; intros [|i' l'] Hlen s;
    try discriminate Hlen; cbn [for_each_E].
  - reflexivity.
  - destruct (f s); [reflexivity|]. apply IH. now injection Hlen.
Qed.

(** A loop throws only what its body throws. *)
Lemma for_each_E_throws {E St : Type} (body : Z -> St -> E + St) (l : list Z) :
  forall s e, for_each_E body l s = inl e -> exists i s', body i s' = inl e.
Proof.
  induction l as [|i l IH]; intros s e Hrun; cbn [for_each_E] in Hrun.
  - discriminate.
  - destruct (body i s) as [e' | s'] eqn:Hbody.
    + injection Hrun as <-. now exists i, s.
    + now apply IH with s'.
Qed.

(** The two nested loops with a body that ignores both counters are one
    loop of [rows * cols] passes. *)
Lemma nested_loops_flatten {E St : Type} (f : St -> E + St) (rows cols : Z) :
  0 <= rows -> 0 <= cols ->
  forall s,
  for_loop_E 0 rows (fun _ st => for_loop_E 0 cols (fun _ => f) st) s =
  for_loop_E 0 (rows * cols) (fun _ => f) s.
Proof.
  intros Hrows Hcols. unfold for_loop_E. pattern rows.
  apply natlike_ind; [| | exact Hrows].
  - intros s. reflexivity.
  - intros r Hr IH s. unfold Z.succ.
    rewrite (zrange_snoc 0 r) by lia.
    rewrite (zrange_app 0 (r * cols) ((r + 1) * cols)) by nia.
    rewrite !for_each_E_app, IH.
    destruct (for_each_E (fun _ => f) (zrange 0 (r * cols)) s) as [e | s'];
      [reflexivity|].
    cbn [for_each_E].
    rewrite (for_each_E_length f (zrange 0 cols)
               (zrange (r * cols) ((r + 1) * cols)))
      by (rewrite !zrange_length; f_equal; lia).
    now destruct (for_each_E _ _ s').
Qed.

Lemma list_set_app {A : Type} (pre : list A) (x y : A) (post : list A) :
  list_set (pre ++ x :: post) (length pre) y = pre ++ y :: post.
Proof.
  induction pre as [|a pre IH]; cbn [app length list_set]; [reflexivity|].
  now rewrite IH.
Qed.

(** Writing [f idx] at every index from [length pre] on fills the tail. *)
Lemma stdvec_fill {A : Type} (f : Z -> A) :
  forall (post pre : list A),
  fold_left (fun v idx => stdvec_set v idx (f idx))
            (zrange_from (Z.of_nat (length pre)) (length post)) (pre ++ post)
  = pre ++ map f (zrange_from (Z.of_nat (length pre)) (length post)).
Proof.
  induction post as [|x post IH]; intros pre;
    cbn [length zrange_from fold_left map].
  - reflexivity.
  - unfold stdvec_set at 2.
    destruct (Z.ltb_spec (Z.of_nat (length pre)) 0); [lia|].
    rewrite Nat2Z.id, list_set_app.
    replace (Z.of_nat (length pre) + 1) with (Z.of_nat (length (pre ++ [f (Z.of_nat (length pre))])))
      by (rewrite length_app; cbn [length]; lia).
    replace (pre ++ f (Z.of_nat (length pre)) :: post)
      with ((pre ++ [f (Z.of_nat (length pre))]) ++ post)
      by (now rewrite <- app_assoc).
    rewrite IH. now rewrite <- app_assoc.
Qed.

Section TranslateProperties.
Context {I V D K : Type} `{Arith I V D} `{EigenOps D} `{KernelOps I D K}.
Variable Soln : VectorXd D.
Variable Error2 : MatrixXd D.

Lemma translateStep_spec (st : Translate) :
  translateStep Soln Error2 st =
  match checkCoefficient Soln Error2 (t_idx st) with
  | Some e => inl e
  | None =>
      inr (mkTranslate (t_idx st + 1)
             (stdvec_set (kValues st) (t_idx st) (v_coeff Soln (t_idx st)))
             (stdvec_set (kErrValues st) (t_idx st)
                (dsqrt (m_coeff Error2 (t_idx st) (t_idx st)))))
  end.
Proof.
  unfold translateStep, checkCoefficient.
  destruct (disnan (v_coeff Soln (t_idx st))); [reflexivity|].
  destruct (disnan (m_coeff Error2 (t_idx st) (t_idx st))); [reflexivity|].
  now destruct (dltb (m_coeff Error2 (t_idx st) (t_idx st)) d0).
Qed.

Lemma checkCoefficient_None (idx : Z) :
  checkCoefficient Soln Error2 idx = None <->
  disnan (v_coeff Soln idx) = false
  /\ disnan (m_coeff Error2 idx idx) = false
  /\ dltb (m_coeff Error2 idx idx) d0 = false.
Proof.
  unfold checkCoefficient.
  destruct (disnan (v_coeff Soln idx)); [intuition discriminate|].
  destruct (disnan (m_coeff Error2 idx idx)); [intuition discriminate|].
  destruct (dltb (m_coeff Error2 idx idx) d0); intuition discriminate.
Qed.

Lemma firstFailure_None (l : list Z) :
  firstFailure Soln Error2 l = None <->
  forall idx, In idx l -> checkCoefficient Soln Error2 idx = None.
Proof.
  induction l as [|i l IH]; cbn [firstFailure In].
  - split; [intros _ idx [] | reflexivity].
  - destruct (checkCoefficient Soln Error2 i) eqn:Hi.
    + split; [discriminate|]. intros Hall.
      rewrite (Hall i (or_introl eq_refl)) in Hi. discriminate.
    + rewrite IH. split.
      * intros Hall idx [<- | Hin]; [exact Hi | now apply Hall].
      * intros Hall idx Hin. apply Hall. now right.
Qed.


(** The run of the loop body from index [k]. *)
Lemma translate_run (l : list Z) :
  forall (k : Z) (kv ke : list D),
  for_each_E (fun _ st => translateStep Soln Error2 st) l (mkTranslate k kv ke) =
  match firstFailure Soln Error2 (zrange_from k (length l)) with
  | Some e => inl e
  | None =>
      inr (mkTranslate (k + Z.of_nat (length l))
             (fold_left (fun v idx => stdvec_set v idx (v_coeff Soln idx))
                        (zrange_from k (length l)) kv)
             (fold_left (fun v idx =>
                           stdvec_set v idx (dsqrt (m_coeff Error2 idx idx)))
                        (zrange_from k (length l)) ke))
  end.
Proof.
  induction l as [|i l IH]; intros k kv ke;
    cbn [for_each_E length zrange_from firstFailure fold_left].
  - now rewrite Z.add_0_r.
  - rewrite translateStep_spec. cbn [t_idx kValues kErrValues].
    destruct (checkCoefficient Soln Error2 k); [reflexivity|].
    rewrite IH.
    destruct (firstFailure Soln Error2 (zrange_from (k + 1) (length l)));
      [reflexivity|].
    do 2 f_equal. lia.
Qed.

(** The translation: the first failing test in index order, or else the
    solution and the square roots of the diagonal, index by index. *)
Lemma translate_spec (kCols kRows : Z) :
  0 <= kCols -> 0 <= kRows ->
  translate kCols kRows Soln Error2 =
  match firstFailure Soln Error2 (zrange 0 (kCols * kRows)) with
  | Some e => inl e
  | None =>
      inr (mkTranslate (kCols * kRows)
             (map (v_coeff Soln) (zrange 0 (kCols * kRows)))
             (map (fun idx => dsqrt (m_coeff Error2 idx idx))
                  (zrange 0 (kCols * kRows))))
  end.
Proof.
  intros Hc Hr. unfold translate.
  rewrite (nested_loops_flatten (translateStep Soln Error2) kRows kCols Hr Hc).
  replace (kRows * kCols) with (kCols * kRows) by lia.
  set (n := kCols * kRows).
  assert (Hn : 0 <= n) by (unfold n; nia).
  assert (Hfill : forall f : Z -> D,
            fold_left (fun v idx => stdvec_set v idx (f idx)) (zrange 0 n)
                      (repeat d0 (Z.to_nat n)) = map f (zrange 0 n)).
  { intros f. pose proof (stdvec_fill f (repeat d0 (Z.to_nat n)) []) as Hf.
    rewrite repeat_length in Hf. cbn [length app Z.of_nat] in Hf.
    unfold zrange. rewrite Z.sub_0_r. exact Hf. }
  unfold for_loop_E. rewrite translate_run, zrange_length, Z.sub_0_r.
  assert (Hz : zrange_from 0 (Z.to_nat n) = zrange 0 n)
    by (unfold zrange; now rewrite Z.sub_0_r).
  rewrite Hz.
  destruct (firstFailure Soln Error2 (zrange 0 n)); [reflexivity|].
  rewrite !Hfill. do 2 f_equal. lia.
Qed.

(** Whatever the policy, the translation throws only the three kernel
    exceptions. *)
Lemma translate_throws (kCols kRows : Z) (e : Exception) :
  translate kCols kRows Soln Error2 = inl e ->
  (exists idx, e = KernelSolutionNaN idx)
  \/ (exists idx, e = KernelUncertaintyNaN idx)
  \/ (exists idx value, e = KernelNegativeVariance idx value).
Proof.
  unfold translate, for_loop_E. intros Hrun.
  apply for_each_E_throws in Hrun. destruct Hrun as (_ & st & Hrow).
  apply for_each_E_throws in Hrow. destruct Hrow as (_ & st' & Hstep).
  rewrite translateStep_spec in Hstep. unfold checkCoefficient in Hstep.
  destruct (disnan (v_coeff Soln (t_idx st'))).
  { injection Hstep as <-. left. eauto. }
  destruct (disnan (m_coeff Error2 (t_idx st') (t_idx st'))).
  { injection Hstep as <-. right. left. eauto. }
  destruct (dltb (m_coeff Error2 (t_idx st') (t_idx st')) d0).
  { injection Hstep as <-. right. right. eauto. }
  discriminate.
Qed.

End TranslateProperties.

(** ** The end of apply: checks and stores *)

Section ApplyProperties.
Context {I V D K : Type} `{Arith I V D} `{EigenOps D} `{KernelOps I D K}.

(** The five ways [solveAndStore] can end. *)
Lemma solveAndStore_cases (self : PsfMatchingFunctor) (kCols kRows : Z)
  (M : MatrixXd D) (B : VectorXd D) :
  let r := solveAndStore self kCols kRows M B in
  let E := errorCovariance M in
  let N := Z.of_nat (length (_basisList self)) in
  let stored (t : Translate) :=
    mkFunctor (_basisList self) (_background self) (_backgroundError self)
      (Some (linearCombinationKernel (_basisList self) (kValues t)))
      (Some (linearCombinationKernel (_basisList self) (kErrValues t))) in
  (exists tr e, solveCascade M B = (tr, inl e) /\ r = mkApplied self tr (Threw e))
  \/ (exists tr Soln e,
        solveCascade M B = (tr, inr Soln)
        /\ translate kCols kRows Soln E = inl e
        /\ r = mkApplied self tr (Threw e))
  \/ (exists tr Soln t,
        solveCascade M B = (tr, inr Soln)
        /\ translate kCols kRows Soln E = inr t
        /\ disnan (m_coeff E N N) = true
        /\ r = mkApplied (stored t) tr (Threw BackgroundUncertaintyNaN))
  \/ (exists tr Soln t,
        solveCascade M B = (tr, inr Soln)
        /\ translate kCols kRows Soln E = inr t
        /\ disnan (m_coeff E N N) = false
        /\ dltb (m_coeff E N N) d0 = true
        /\ r = mkApplied (stored t) tr
                 (Threw (BackgroundNegativeVariance (m_coeff E N N))))
  \/ (exists tr Soln t,
        solveCascade M B = (tr, inr Soln)
        /\ translate kCols kRows Soln E = inr t
        /\ disnan (m_coeff E N N) = false
        /\ dltb (m_coeff E N N) d0 = false
        /\ r = mkApplied
                 (mkFunctor (_basisList self) (v_coeff Soln N)
                    (dsqrt (m_coeff E N N))
                    (Some (linearCombinationKernel (_basisList self) (kValues t)))
                    (Some (linearCombinationKernel (_basisList self) (kErrValues t))))
                 tr Returned).
Proof.
  cbv zeta. unfold solveAndStore.
  replace (Z.of_nat (length (_basisList self)) + 1 - 1)
    with (Z.of_nat (length (_basisList self))) by lia.
  destruct (solveCascade M B) as [tr [e | Soln]].
  { left. now exists tr, e. }
  destruct (translate kCols kRows Soln (errorCovariance M)) as [e | t] eqn:Ht.
  { right. left. now exists tr, Soln, e. }
  destruct (disnan (m_coeff (errorCovariance M) _ _)) eqn:Hnan.
  { right. right. left. now exists tr, Soln, t. }
  destruct (dltb (m_coeff (errorCovariance M) _ _) d0) eqn:Hneg.
  { right. right. right. left. now exists tr, Soln, t. }
  right. right. right. right. now exists tr, Soln, t.
Qed.

Lemma solveCascade_throws (M : MatrixXd D) (B : VectorXd D)
  (tr : list string) (e : Exception) :
  solveCascade M B = (tr, inl e) -> e = KernelSolutionFailed.
Proof.
  unfold solveCascade.
  destruct (ldlt_solve M B); [discriminate|].
  destruct (llt_solve M B); [discriminate|].
  destruct (lu_solve M B); [discriminate|].
  destruct (selfAdjointEigenSolver M) as [[R ev]|]; [discriminate|].
  now intros [= _ <-].
Qed.

(** What a failed fit leaves in the functor. *)
Lemma failed_fit_state (self : PsfMatchingFunctor)
  (imageToConvolve imageToNotConvolve : Image.t I) (varianceEstimate : Image.t V)
  (kCols kRows : Z) :
  let r := apply self imageToConvolve imageToNotConvolve varianceEstimate
             kCols kRows in
  ((exists idx, outcome r = Threw (KernelSolutionNaN idx))
   \/ (exists idx, outcome r = Threw (KernelUncertaintyNaN idx))
   \/ (exists idx value, outcome r = Threw (KernelNegativeVariance idx value)) ->
   functor r = self)
  /\ (outcome r = Threw BackgroundUncertaintyNaN
      \/ (exists value, outcome r = Threw (BackgroundNegativeVariance value)) ->
      exists M B Soln t,
        assemble (_basisList self) imageToConvolve imageToNotConvolve
          varianceEstimate = Some (M, B)
        /\ snd (solveCascade M B) = inr Soln
        /\ translate kCols kRows Soln (errorCovariance M) = inr t
        /\ _kernel (functor r)
           = Some (linearCombinationKernel (_basisList self) (kValues t))
        /\ _kernelError (functor r)
           = Some (linearCombinationKernel (_basisList self) (kErrValues t))
        /\ _background (functor r) = _background self
        /\ _backgroundError (functor r) = _backgroundError self).
Proof.
  cbv zeta. unfold apply, reset.
  destruct (assemble (_basisList self) imageToConvolve imageToNotConvolve
              varianceEstimate) as [[M B]|] eqn:Hass.
  2:{ cbn [outcome functor]. split.
      - intros _. reflexivity.
      - intros [Hbg | [value Hbg]]; discriminate Hbg. }
  pose proof (solveAndStore_cases self kCols kRows M B) as Hcases.
  cbv zeta in Hcases.
  destruct Hcases as
    [ (tr & e & Hsolve & ->)
    | [ (tr & Soln & e & Hsolve & Htr & ->)
      | [ (tr & Soln & t & Hsolve & Htr & Hnan & ->)
        | [ (tr & Soln & t & Hsolve & Htr & Hnan & Hneg & ->)
          | (tr & Soln & t & Hsolve & Htr & Hnan & Hneg & ->) ]]]];
    cbn [outcome functor _kernel _kernelError _background _backgroundError].
  - split; [reflexivity|].
    apply solveCascade_throws in Hsolve. subst e.
    intros [Hbg | [value Hbg]]; discriminate Hbg.
  - split; [reflexivity|].
    apply translate_throws in Htr.
    destruct Htr as [(idx & ->) | [(idx & ->) | (idx & value & ->)]];
      intros [Hbg | [value' Hbg]]; discriminate Hbg.
  - split.
    + intros [(idx & Hk) | [(idx & Hk) | (idx & value & Hk)]]; discriminate Hk.
    + intros _. exists M, B, Soln, t. rewrite Hsolve. now repeat split.
  - split.
    + intros [(idx & Hk) | [(idx & Hk) | (idx & value & Hk)]]; discriminate Hk.
    + intros _. exists M, B, Soln, t. rewrite Hsolve. now repeat split.
  - split.
    + intros [(idx & Hk) | [(idx & Hk) | (idx & value & Hk)]]; discriminate Hk.
    + intros [Hbg | [value Hbg]]; discriminate Hbg.
Qed.



(** C5.  A fit that returns has taken its uncertainties from
    ErrorCovariance = (L^T)^-1 L^-1, where L is the lower Cholesky factor of
    Cov = M^T M: the kernel of uncertainties has the square roots of the
    diagonal entries as its coefficients, in index order, and the
    background error is the square root of the last diagonal entry.  The
    inverse the source takes is that of L and of its transpose, not that
    of M (the example below shows the two differ). *)
Theorem uncertainties_from_cholesky_of_MtM (self : PsfMatchingFunctor)
  (imageToConvolve imageToNotConvolve : Image.t I) (varianceEstimate : Image.t V)
  (kCols kRows : Z) (M : MatrixXd D) (B : VectorXd D) :
  assemble (_basisList self) imageToConvolve imageToNotConvolve varianceEstimate
    = Some (M, B) ->
  0 <= kCols -> 0 <= kRows ->
  let r := apply self imageToConvolve imageToNotConvolve varianceEstimate
             kCols kRows in
  outcome r = Returned ->
  let N := Z.of_nat (length (_basisList self)) in
  let Cov := mat_mul (transpose M) M in
  let L := llt_matrixL Cov in
  let ErrorCovariance := mat_mul (inverse (transpose L)) (inverse L) in
  _kernelError (functor r)
  = Some (linearCombinationKernel (_basisList self)
            (map (fun idx => dsqrt (m_coeff ErrorCovariance idx idx))
                 (zrange 0 (kCols * kRows))))
  /\ _backgroundError (functor r) = dsqrt (m_coeff ErrorCovariance N N).
Proof.
  intros Hass Hc Hr. cbv zeta. unfold apply, reset. rewrite Hass.
  pose proof (solveAndStore_cases self kCols kRows M B) as Hcases.
  cbv zeta in Hcases.
  destruct Hcases as
    [ (tr & e & Hsolve & ->)
    | [ (tr & Soln & e & Hsolve & Htr & ->)
      | [ (tr & Soln & t & Hsolve & Htr & Hnan & ->)
        | [ (tr & Soln & t & Hsolve & Htr & Hnan & Hneg & ->)
          | (tr & Soln & t & Hsolve & Htr & Hnan & Hneg & ->) ]]]];
    cbn [outcome functor _kernelError _backgroundError]; try discriminate.
  intros _.
  rewrite (translate_spec Soln (errorCovariance M) kCols kRows Hc Hr) in Htr.
  destruct (firstFailure Soln (errorCovariance M) (zrange 0 (kCols * kRows)));
    [discriminate|].
  injection Htr as <-. cbn [kErrValues]. split; reflexivity.
Qed.

End ApplyProperties.

(** *** Concrete runs *)

(** The reference fit of the example returns, with the background and the
    kernel of the science image (twice the template plus 3) recovered up to
    rounding. *)
Example exFit_returns :
  outcome exFit = Returned
  /\ traces exFit = []
  /\ _background (functor exFit) = 0x1.7fffffffffffap+1%float.
Proof. vm_compute. repeat split. Qed.

(** On M = diag(2, 2) the error covariance is diag(1/4, 1/4), while the
    inverse of M is diag(1/2, 1/2). *)
Example errorCovariance_is_not_the_inverse :
  let M := diagonal2 2%float 2%float in
  m_coeff (errorCovariance (H0 := refEigen) M) 0 0 = 0.25%float
  /\ m_coeff (inverse (EigenOps := refEigen) M) 0 0 = 0.5%float.
Proof. vm_compute. split; reflexivity. Qed.

Lemma uncertainties_from_cholesky_of_MtM_witness :
  exists M B,
    assemble exBasis exTemplate exScience exVariance = Some (M, B)
    /\ _backgroundError (functor exFit)
       = PrimFloat.sqrt (m_coeff (errorCovariance (H0 := refEigen) M) 2 2).
Proof.
  pose proof (assemble_fold exKernel0 [exKernel1] exTemplate exScience exVariance)
    as Hass.
  cbv zeta in Hass.
  match type of Hass with _ = Some (?M, ?B) => exists M, B end.
  split; [exact Hass|].
  pose proof (uncertainties_from_cholesky_of_MtM (H0 := refEigen)
                (newPsfMatchingFunctor exBasis)
                exTemplate exScience exVariance 2 1 _ _ Hass
                ltac:(lia) ltac:(lia)) as Hfit.
  cbv zeta in Hfit. specialize (Hfit (proj1 exFit_returns)).
  destruct Hfit as [_ Hbg].
  change (Z.of_nat (length (_basisList (newPsfMatchingFunctor exBasis))))
    with 2 in Hbg.
  unfold exFit, errorCovariance. exact Hbg.
Defined.

(** *** A NaN spreads through the reference solvers *)

















(** The test on the background coefficient of the solution is absent
    from the source.  On an answer (1, NaN) replayed with an error
    covariance of diagonal (1, 1), an answer that none of the reference
    solvers computes ([reference_solution_spreads_nan]), every test passes
    and the NaN is stored as the background: the hypothesis of
    [fit_rejects_invalid_solution] cannot be dropped for an arbitrary
    solver. *)
Remark untested_background_coefficient :
  let r := replay nanBackgroundScript in
  (exists M B Soln,
     assemble exBasis1 exTemplate exScience exVariance = Some (M, B)
     /\ snd (solveCascade (H0 := scriptedEigen nanBackgroundScript) M B) = inr Soln
     /\ PrimFloat.is_nan (v_coeff Soln 1) = true)
  /\ outcome r = Returned
  /\ PrimFloat.is_nan (_background (functor r)) = true.
Proof.
  cbv zeta. split; [|split].
  - eexists _, _, _. split; [reflexivity|]. split; [reflexivity|].
    vm_compute. reflexivity.
  - vm_compute. reflexivity.
  - vm_compute. reflexivity.
Qed.

(** C10.  A fit that throws at one of the tests on a kernel index (solution
    NaN, uncertainty NaN, negative variance) leaves the four stored results
    as they were.  A fit that throws at one of the two tests on the
    background uncertainty has already stored the kernel and the kernel
    of uncertainties of this fit, while the background and its error are
    those from before the call.  Both happen: in the two replayed runs the
    first leaves the new functor untouched and the second leaves it with a
    kernel it did not have.  So a failed fit is not atomic. *)
Theorem failed_fit_not_atomic :
  (forall (I V D K : Type) (A : Arith I V D) (E : EigenOps D)
          (Ko : KernelOps I D K) (self : PsfMatchingFunctor)
          (imageToConvolve imageToNotConvolve : Image.t I)
          (varianceEstimate : Image.t V) (kCols kRows : Z),
     let r := apply self imageToConvolve imageToNotConvolve varianceEstimate
                kCols kRows in
     ((exists idx, outcome r = Threw (KernelSolutionNaN idx))
      \/ (exists idx, outcome r = Threw (KernelUncertaintyNaN idx))
      \/ (exists idx value, outcome r = Threw (KernelNegativeVariance idx value)) ->
      functor r = self)
     /\ (outcome r = Threw BackgroundUncertaintyNaN
         \/ (exists value, outcome r = Threw (BackgroundNegativeVariance value)) ->
         exists M B Soln t,
           assemble (_basisList self) imageToConvolve imageToNotConvolve
             varianceEstimate = Some (M, B)
           /\ snd (solveCascade M B) = inr Soln
           /\ translate kCols kRows Soln (errorCovariance M) = inr t
           /\ _kernel (functor r)
              = Some (linearCombinationKernel (_basisList self) (kValues t))
           /\ _kernelError (functor r)
              = Some (linearCombinationKernel (_basisList self) (kErrValues t))
           /\ _background (functor r) = _background self
           /\ _backgroundError (functor r) = _backgroundError self))
  /\ (outcome (replay nanKernelScript) = Threw (KernelSolutionNaN 0)
      /\ functor (replay nanKernelScript) = newPsfMatchingFunctor exBasis1)
  /\ (outcome (replay nanBackgroundErrorScript) = Threw BackgroundUncertaintyNaN
      /\ _kernel (newPsfMatchingFunctor exBasis1) = None
      /\ _kernel (functor (replay nanBackgroundErrorScript)) <> None
      /\ _background (functor (replay nanBackgroundErrorScript))
         = _background (newPsfMatchingFunctor exBasis1)).
Proof.
  split; [|split].
  - intros. apply failed_fit_state.
  - assert (Hout : outcome (replay nanKernelScript) = Threw (KernelSolutionNaN 0))
      by (vm_compute; reflexivity).
    split; [exact Hout|].
    apply (failed_fit_state (H0 := scriptedEigen nanKernelScript)
             (newPsfMatchingFunctor exBasis1)
             exTemplate exScience exVariance 1 1).
    left. exists 0. exact Hout.
  - assert (Hout : outcome (replay nanBackgroundErrorScript)
                   = Threw BackgroundUncertaintyNaN)
      by (vm_compute; reflexivity).
    split; [exact Hout|]. split; [reflexivity|].
    destruct (failed_fit_state (H0 := scriptedEigen nanBackgroundErrorScript)
                (newPsfMatchingFunctor exBasis1)
                exTemplate exScience exVariance 1 1) as [_ Hbg].
    destruct (Hbg (or_introl Hout)) as (M & B & Soln & t & _ & _ & _ & Hk & _ & Hb & _).
    split.
    + unfold replay. rewrite Hk. discriminate.
    + exact Hb.
Qed.

(** ** C9: the difference image *)

Section DifferenceProperties.
Context {I V D K : Type} `{Arith I V D} `{KernelOps I D K}.

Lemma image_set_pixel {T : Type} (a : Image.t T) (x y : Z) (v : T) (x' y' : Z) :
  Image.pixel (Image.set a x y v) x' y' =
  if (x' =? x) && (y' =? y) then v else Image.pixel a x' y'.
Proof. reflexivity. Qed.

(** One row of the function overload. *)
Lemma addFunction_row (function : D -> D -> D) (image : Image.t I) (y : Z) :
  0 <= Image.getWidth image ->
  let image' :=
    snd (for_loop 0 (Image.getWidth image)
           (fun x (st : D * Image.t I) =>
              let (xPos, image) := st in
              (dadd xPos d1,
               Image.set image x y
                 (iadd_d (Image.pixel image x y)
                         (function xPos (positionToIndex y)))))
           (positionToIndex 0, image)) in
  Image.getWidth image' = Image.getWidth image
  /\ Image.getHeight image' = Image.getHeight image
  /\ Image.getX0 image' = Image.getX0 image
  /\ Image.getY0 image' = Image.getY0 image
  /\ forall x' y',
       Image.pixel image' x' y' =
       if (y' =? y) && (0 <=? x') && (x' <? Image.getWidth image)
       then iadd_d (Image.pixel image x' y')
                   (function (xPosition (Z.to_nat x')) (positionToIndex y))
       else Image.pixel image x' y'.
Proof.
  intros Hw. cbv zeta.
  set (body := fun (x : Z) (st : D * Image.t I) =>
                 let (xPos, image) := st in
                 (dadd xPos d1,
                  Image.set image x y
                    (iadd_d (Image.pixel image x y)
                            (function xPos (positionToIndex y))))).
  pose (P := fun (k : Z) (st : D * Image.t I) =>
    fst st = xPosition (Z.to_nat k)
    /\ Image.getWidth (snd st) = Image.getWidth image
    /\ Image.getHeight (snd st) = Image.getHeight image
    /\ Image.getX0 (snd st) = Image.getX0 image
    /\ Image.getY0 (snd st) = Image.getY0 image
    /\ forall x' y',
         Image.pixel (snd st) x' y' =
         if (y' =? y) && (0 <=? x') && (x' <? k)
         then iadd_d (Image.pixel image x' y')
                     (function (xPosition (Z.to_nat x')) (positionToIndex y))
         else Image.pixel image x' y').
  assert (HP : P (Image.getWidth image)
                 (for_loop 0 (Image.getWidth image) body (positionToIndex 0, image))).
  { apply (for_loop_invariant P); unfold P.
    - exact Hw.
    - cbn [fst snd]. repeat split.
      intros x' y'. destruct (y' =? y), (0 <=? x') eqn:Hx; cbn [andb]; try reflexivity.
      destruct (Z.ltb_spec x' 0); [|reflexivity].
      apply Z.leb_le in Hx. lia.
    - intros k [xPos im] Hk (HxPos & Hwd & Hht & Hx0 & Hy0 & Hpix).
      cbn [fst snd] in *. unfold body. cbn [fst snd].
      split; [|split; [|split; [|split; [|split]]]]; try assumption.
      + replace (Z.to_nat (k + 1)) with (S (Z.to_nat k)) by lia.
        cbn [xPosition]. now rewrite HxPos.
      + intros x' y'. rewrite image_set_pixel, !Hpix, HxPos.
        destruct (Z.eqb_spec y' y) as [-> | Hy]; cbn [andb].
        * rewrite Z.eqb_refl.
          destruct (Z.eqb_spec x' k) as [-> | Hxk]; cbn [andb].
          -- destruct (Z.leb_spec 0 k); [|lia]. cbn [andb].
             destruct (Z.ltb_spec k k); [lia|].
             destruct (Z.ltb_spec k (k + 1)); [reflexivity | lia].
          -- destruct (0 <=? x'); cbn [andb]; [|reflexivity].
             destruct (Z.ltb_spec x' k), (Z.ltb_spec x' (k + 1));
               try reflexivity; lia.
        * now rewrite andb_false_r. }
  destruct HP as (_ & Hwd & Hht & Hx0 & Hy0 & Hpix).
  repeat split; assumption.
Qed.

(** The function overload, pixel by pixel. *)
Lemma addFunction_spec (function : D -> D -> D) (image : Image.t I) :
  0 <= Image.getWidth image -> 0 <= Image.getHeight image ->
  let image' := addSomethingToImage image (FunctionBackground function) in
  Image.getWidth image' = Image.getWidth image
  /\ Image.getHeight image' = Image.getHeight image
  /\ Image.getX0 image' = Image.getX0 image
  /\ Image.getY0 image' = Image.getY0 image
  /\ forall x y,
       Image.pixel image' x y =
       withBackground (FunctionBackground function)
         (Image.getWidth image) (Image.getHeight image) x y (Image.pixel image x y).
Proof.
  intros Hw Hh. cbv zeta. unfold addSomethingToImage, withBackground.
  set (body := fun (y : Z) (image : Image.t I) => snd (for_loop _ _ _ _)).
  pose (P := fun (r : Z) (im : Image.t I) =>
    Image.getWidth im = Image.getWidth image
    /\ Image.getHeight im = Image.getHeight image
    /\ Image.getX0 im = Image.getX0 image
    /\ Image.getY0 im = Image.getY0 image
    /\ forall x y,
         Image.pixel im x y =
         if (0 <=? y) && (y <? r) && (0 <=? x) && (x <? Image.getWidth image)
         then iadd_d (Image.pixel image x y)
                     (function (xPosition (Z.to_nat x)) (positionToIndex y))
         else Image.pixel image x y).
  assert (HP : P (Image.getHeight image)
                 (for_loop 0 (Image.getHeight image) body image)).
  { apply (for_loop_invariant P); unfold P.
    - exact Hh.
    - repeat split. intros x y.
      destruct (Z.leb_spec 0 y), (Z.ltb_spec y 0); cbn [andb]; try reflexivity; lia.
    - intros r im Hr (Hwd & Hht & Hx0 & Hy0 & Hpix).
      assert (Hw' : 0 <= Image.getWidth im) by lia.
      destruct (addFunction_row function im r Hw')
        as (Hwd' & Hht' & Hx0' & Hy0' & Hpix').
      cbv zeta in Hwd', Hht', Hx0', Hy0', Hpix'.
      unfold body.
      split; [|split; [|split; [|split]]]; try congruence.
      intros x y. rewrite Hpix', !Hpix, Hwd.
      destruct (Z.eqb_spec y r) as [-> | Hy]; cbn [andb].
      + destruct (Z.leb_spec 0 r); [|lia].
        destruct (Z.ltb_spec r r); [lia|].
        destruct (Z.ltb_spec r (r + 1)); [|lia]. cbn [andb].
        now destruct ((0 <=? x) && (x <? Image.getWidth image)).
      + destruct (0 <=? y); cbn [andb]; [|reflexivity].
        destruct (Z.ltb_spec y r), (Z.ltb_spec y (r + 1)); try reflexivity; lia. }
  exact HP.
Qed.

(** C9.  For a template given as a plain Image and a science image of the
    same dimensions, every pixel of the image plane of the result is the
    convolved template, plus the background (a scalar that compares equal
    to 0.0 is skipped by the source, a function is evaluated at the
    position of the pixel), minus the science pixel, and that times -1.0
    exactly when [invert] is set; the mask and variance planes have the
    pixels of the science image's planes whether [invert] is set or not;
    the result has the dimensions and the origin of the template. *)
Theorem difference_image_planes (imageToConvolve : Image.t I)
  (imageToNotConvolve : MaskedImage.t I V) (convolutionKernel : K)
  (background : Background) (invert : bool) :
  0 <= Image.getWidth imageToConvolve -> 0 <= Image.getHeight imageToConvolve ->
  Image.sameDimensions imageToConvolve (MaskedImage.getImage imageToNotConvolve) ->
  Image.sameDimensions imageToConvolve (MaskedImage.getMask imageToNotConvolve) ->
  Image.sameDimensions imageToConvolve (MaskedImage.getVariance imageToNotConvolve) ->
  let result := convolveAndSubtract imageToConvolve imageToNotConvolve
                  convolutionKernel background invert in
  (forall x y,
     let convolved := convolve imageToConvolve convolutionKernel x y in
     let difference :=
       isub (withBackground background (Image.getWidth imageToConvolve)
               (Image.getHeight imageToConvolve) x y convolved)
            (Image.pixel (MaskedImage.getImage imageToNotConvolve) x y) in
     Image.pixel (MaskedImage.getImage result) x y =
     if invert then imul_d difference dm1 else difference)
  /\ (forall x y,
        Image.pixel (MaskedImage.getMask result) x y =
        Image.pixel (MaskedImage.getMask imageToNotConvolve) x y)
  /\ (forall x y,
        Image.pixel (MaskedImage.getVariance result) x y =
        Image.pixel (MaskedImage.getVariance imageToNotConvolve) x y)
  /\ Image.sameDimensions (MaskedImage.getImage result) imageToConvolve
  /\ Image.sameDimensions (MaskedImage.getMask result) imageToConvolve
  /\ Image.sameDimensions (MaskedImage.getVariance result) imageToConvolve
  /\ Image.getX0 (MaskedImage.getImage result) = Image.getX0 imageToConvolve
  /\ Image.getY0 (MaskedImage.getImage result) = Image.getY0 imageToConvolve.
Proof.
  intros Hw Hh _ _ _. cbv zeta. unfold convolveAndSubtract.
  cbn [Image.setXY0 Image.withPixels Image.assign Image.getWidth Image.getHeight
       Image.getX0 Image.getY0 Image.pixel].
  set (conv := Image.mk (Image.getWidth imageToConvolve)
                 (Image.getHeight imageToConvolve) (Image.getX0 imageToConvolve)
                 (Image.getY0 imageToConvolve)
                 (convolve imageToConvolve convolutionKernel)).
  assert (Hbg :
    Image.getWidth (addSomethingToImage conv background)
      = Image.getWidth imageToConvolve
    /\ Image.getHeight (addSomethingToImage conv background)
      = Image.getHeight imageToConvolve
    /\ Image.getX0 (addSomethingToImage conv background)
      = Image.getX0 imageToConvolve
    /\ Image.getY0 (addSomethingToImage conv background)
      = Image.getY0 imageToConvolve
    /\ forall x y,
         Image.pixel (addSomethingToImage conv background) x y =
         withBackground background (Image.getWidth imageToConvolve)
           (Image.getHeight imageToConvolve) x y
           (convolve imageToConvolve convolutionKernel x y)).
  { destruct background as [value | function].
    - cbn [addSomethingToImage withBackground].
      destruct (dneb value d0); repeat split.
    - apply (addFunction_spec function conv Hw Hh). }
  destruct Hbg as (Hwd & Hht & Hx0 & Hy0 & Hpix).
  cbn [MaskedImage.getImage MaskedImage.getMask MaskedImage.getVariance].
  split; [|split; [|split; [|split; [|split; [|split; [|split]]]]]].
  - intros x y. destruct invert;
      cbn [Image.mapPixels Image.zipWith Image.pixel]; now rewrite Hpix.
  - reflexivity.
  - reflexivity.
  - destruct invert; split; cbn [Image.mapPixels Image.zipWith Image.getWidth
                                  Image.getHeight]; assumption.
  - split; reflexivity.
  - split; reflexivity.
  - destruct invert; cbn [Image.mapPixels Image.zipWith Image.getX0]; assumption.
  - destruct invert; cbn [Image.mapPixels Image.zipWith Image.getY0]; assumption.
Qed.

End DifferenceProperties.

(** ** C7, C8: the footprint search *)

Lemma fold_lor_zero (l : list N) :
  forall acc, fold_left N.lor l acc = 0%N <-> acc = 0%N /\ forall x, In x l -> x = 0%N.
Proof.
  induction l as [|x l IH]; intros acc; cbn [fold_left In].
  - split; [intros ->; split; [reflexivity | intros _ []] | now intros [-> _]].
  - rewrite IH, N.lor_eq_0_iff. split.
    + intros [[-> ->] Hl]. split; [reflexivity|].
      intros y [<- | Hy]; [reflexivity | now apply Hl].
    + intros [-> Hl]. split; [split; [reflexivity|]|].
      * apply Hl. now left.
      * intros y Hy. apply Hl. now right.
Qed.

Lemma to_unsigned_small (n : Z) : 0 <= n < 2 ^ 32 -> to_unsigned n = n.
Proof. intros Hn. unfold to_unsigned. now apply Z.mod_small. Qed.

Section FootprintProperties.
Context {I V D FP : Type} `{Arith I V D} `{DetectionOps I V D FP}.
Variable imageToConvolve imageToNotConvolve : MaskedImage.t I V.
Variable policy : Policy D.

Lemma findSetBits_zero (mask : Image.t N) (foot : FP) :
  findSetBits mask foot = 0%N <-> ~ touchesMask mask foot.
Proof.
  unfold findSetBits, touchesMask.
  assert (Hmap : forall (l : list (Z * Z)) acc,
            fold_left
              (fun bits p =>
                 N.lor bits
                   (Image.pixel mask (fst p - Image.getX0 mask)
                      (snd p - Image.getY0 mask))) l acc
            = fold_left N.lor
                (map (fun p => Image.pixel mask (fst p - Image.getX0 mask)
                                 (snd p - Image.getY0 mask)) l) acc).
  { induction l as [|p l IH]; intros acc; cbn [fold_left map];
      [reflexivity | apply IH]. }
  rewrite Hmap, fold_lor_zero. split.
  - intros [_ Hall] (p & Hp & Hne). apply Hne, Hall.
    apply in_map_iff. now exists p.
  - intros Hnone. split; [reflexivity|].
    intros x Hx. apply in_map_iff in Hx. destruct Hx as (p & <- & Hp).
    destruct (N.eq_dec (Image.pixel mask (fst p - Image.getX0 mask)
                          (snd p - Image.getY0 mask)) 0%N) as [Hz | Hnz];
      [exact Hz|].
    exfalso. apply Hnone. now exists p.
Qed.

Lemma fpGrowPix_eq :
  fpGrowPix policy =
  int_of_d (dmul (fpGrowKsize policy)
              (d_of_int (Z.max (kernelCols policy) (kernelRows policy)))).
Proof.
  unfold fpGrowPix. do 3 f_equal.
  destruct (Z.gtb_spec (kernelCols policy) (kernelRows policy)); lia.
Qed.

(** One region: kept, grown, exactly when it passes the four tests. *)
Lemma examine_spec (acc : Collected) (foot : FP) :
  0 <= fpNpixMax policy < 2 ^ 32 ->
  0 <= getNpix foot < 2 ^ 32 ->
  examine imageToConvolve imageToNotConvolve policy acc foot =
  if kept imageToConvolve imageToNotConvolve policy foot
  then mkCollected (footprintListOut acc ++ [grown policy foot]) (nCleanFp acc + 1)
  else acc.
Proof.
  intros Hmax Hnpix. unfold examine, kept, extractable, grown.
  rewrite !to_unsigned_small by assumption.
  rewrite fpGrowPix_eq.
  destruct (Z.gtb_spec (getNpix foot) (fpNpixMax policy)) as [Hgt | Hle].
  { destruct (Z.leb_spec (getNpix foot) (fpNpixMax policy)); [lia | reflexivity]. }
  destruct (Z.leb_spec (getNpix foot) (fpNpixMax policy)); [|lia]. cbn [andb].
  destruct (subImage imageToConvolve _ && subImage imageToNotConvolve _);
    cbn [negb andb]; [|reflexivity].
  destruct (findSetBits (MaskedImage.getMask imageToConvolve) _) eqn:Hitc;
    cbn [N.ltb N.compare N.eqb andb]; [|reflexivity].
  destruct (findSetBits (MaskedImage.getMask imageToNotConvolve) _) eqn:Hitnc;
    cbn [N.ltb N.compare N.eqb]; reflexivity.
Qed.

Lemma examine_all (fps : list FP) :
  0 <= fpNpixMax policy < 2 ^ 32 ->
  (forall foot, In foot fps -> 0 <= getNpix foot < 2 ^ 32) ->
  forall acc,
  fold_left (examine imageToConvolve imageToNotConvolve policy) fps acc =
  mkCollected
    (footprintListOut acc
     ++ map (grown policy)
            (filter (kept imageToConvolve imageToNotConvolve policy) fps))
    (nCleanFp acc
     + Z.of_nat (length (filter (kept imageToConvolve imageToNotConvolve policy)
                                fps))).
Proof.
  intros Hmax. induction fps as [|foot fps IH]; intros Hnpix acc;
    cbn [fold_left filter map length].
  - rewrite app_nil_r, Z.add_0_r. now destruct acc.
  - rewrite examine_spec by (try assumption; apply Hnpix; now left).
    rewrite IH by (intros f Hf; apply Hnpix; now right).
    destruct (kept imageToConvolve imageToNotConvolve policy foot);
      cbn [footprintListOut nCleanFp map length].
    + rewrite <- app_assoc. cbn [app]. f_equal. lia.
    + reflexivity.
Qed.

(** C8.  In a pass, a detected region is dropped when its pixel count
    exceeds fpNpixMax; otherwise it is grown by
    int(fpGrowKsize * max(kernelCols, kernelRows)) pixels, not
    isotropically; it is dropped (no exception leaves the function) when
    the sub-image of its grown bounding box cannot be taken from one of the
    two images, and when its grown footprint has a masked pixel in one of
    the two images; every other region is kept, as the grown footprint, in
    detection order. *)
Theorem footprint_filter (st : Search) :
  let detected :=
    detect imageToConvolve (s_detThreshold st) (detThresholdType policy)
      (to_unsigned (fpNpixMin policy)) in
  let grow foot :=
    growFootprint foot
      (int_of_d (dmul (fpGrowKsize policy)
                   (d_of_int (Z.max (kernelCols policy) (kernelRows policy)))))
      false in
  let keep := kept imageToConvolve imageToNotConvolve policy in
  let after :=
    s_collected (searchPass imageToConvolve imageToNotConvolve policy st) in
  0 <= fpNpixMax policy < 2 ^ 32 ->
  (forall foot, In foot detected -> 0 <= getNpix foot < 2 ^ 32) ->
  footprintListOut after = map grow (filter keep detected)
  /\ nCleanFp after = Z.of_nat (length (footprintListOut after))
  /\ forall foot,
       keep foot = true <->
       getNpix foot <= fpNpixMax policy
       /\ extractable imageToConvolve imageToNotConvolve policy foot = true
       /\ ~ touchesMask (MaskedImage.getMask imageToConvolve) (grow foot)
       /\ ~ touchesMask (MaskedImage.getMask imageToNotConvolve) (grow foot).
Proof.
  cbv zeta. intros Hmax Hnpix. unfold searchPass. cbn [s_collected].
  rewrite (examine_all _ Hmax Hnpix). cbn [footprintListOut nCleanFp app].
  split; [reflexivity|]. split; [now rewrite length_map|].
  intros foot. unfold kept. rewrite !andb_true_iff, Z.leb_le, !N.eqb_eq.
  rewrite !findSetBits_zero. unfold grown. tauto.
Qed.

(** *** The loop *)

Let searching_ := searching (I:=I) (V:=V) (FP:=FP) policy.
Let stateAfter_ := stateAfter imageToConvolve imageToNotConvolve policy.

Lemma stateAfter_threshold (k : nat) :
  s_detThreshold (stateAfter_ k) = thresholdAfter policy k.
Proof.
  unfold stateAfter_.
  induction k as [|k IH]; cbn [stateAfter thresholdAfter]; [reflexivity|].
  unfold searchPass at 1. cbn [s_detThreshold]. now rewrite IH.
Qed.

(** Each pass collects from an empty list: what is held after pass [k + 1]
    comes from the detections at the threshold of that pass alone. *)
Lemma stateAfter_collected (k : nat) :
  s_collected (stateAfter_ (S k)) =
  fold_left (examine imageToConvolve imageToNotConvolve policy)
    (detect imageToConvolve (thresholdAfter policy k) (detThresholdType policy)
       (to_unsigned (fpNpixMin policy)))
    (mkCollected [] 0).
Proof.
  pose proof (stateAfter_threshold k) as Hthr.
  unfold stateAfter_ in *. cbn [stateAfter]. unfold searchPass at 1.
  cbn [s_collected]. now rewrite Hthr.
Qed.

(** The loop runs the passes one after the other until the condition
    fails. *)
Lemma searchLoop_passes (k : nat) :
  forall (j fuel : nat),
  (forall i, (j <= i < j + k)%nat -> searching_ (stateAfter_ i) = true) ->
  searching_ (stateAfter_ (j + k)) = false ->
  (k <= fuel)%nat ->
  searchLoop imageToConvolve imageToNotConvolve policy fuel (stateAfter_ j)
  = Some (stateAfter_ (j + k)).
Proof.
  unfold searching_, stateAfter_.
  induction k as [|k IH]; intros j fuel Hrun Hstop Hfuel.
  - rewrite Nat.add_0_r in *. destruct fuel; cbn [searchLoop]; now rewrite Hstop.
  - destruct fuel as [|fuel]; [lia|]. cbn [searchLoop].
    rewrite (Hrun j) by lia.
    change (searchPass imageToConvolve imageToNotConvolve policy
              (stateAfter imageToConvolve imageToNotConvolve policy j))
      with (stateAfter imageToConvolve imageToNotConvolve policy (S j)).
    replace (j + S k)%nat with (S j + k)%nat in * by lia.
    apply IH; [|assumption|lia].
    intros i Hi. apply Hrun. lia.
Qed.

Lemma searchLoop_forever :
  (forall k, searching_ (stateAfter_ k) = true) ->
  forall fuel k,
  searchLoop imageToConvolve imageToNotConvolve policy fuel (stateAfter_ k) = None.
Proof.
  unfold searching_, stateAfter_. intros Hrun.
  induction fuel as [|fuel IH]; intros k; cbn [searchLoop]; rewrite Hrun.
  - reflexivity.
  - apply (IH (S k)).
Qed.

(** The first pass count at which the condition fails, below a count at
    which it fails. *)
Lemma first_stop (k : nat) :
  searching_ (stateAfter_ k) = false ->
  exists passes, (passes <= k)%nat
    /\ (forall i, (i < passes)%nat -> searching_ (stateAfter_ i) = true)
    /\ searching_ (stateAfter_ passes) = false.
Proof.
  induction k as [k IH] using (well_founded_induction lt_wf).
  intros Hstop.
  destruct (forallb (fun i => searching_ (stateAfter_ i)) (seq 0 k)) eqn:Hall.
  - exists k. split; [lia|]. split; [|exact Hstop].
    intros i Hi. rewrite forallb_forall in Hall. apply Hall, in_seq. lia.
  - assert (Hex : exists i, (i < k)%nat /\ searching_ (stateAfter_ i) = false).
    { clear -Hall. induction k as [|k IHk]; [discriminate|].
      rewrite seq_S, forallb_app in Hall. cbn [forallb Nat.add] in Hall.
      rewrite andb_true_r in Hall.
      destruct (forallb (fun i => searching_ (stateAfter_ i)) (seq 0 k)) eqn:Hk.
      - exists k. split; [lia|]. exact Hall.
      - destruct (IHk eq_refl) as (i & Hi & Hs). exists i. split; [lia | exact Hs]. }
    destruct Hex as (i & Hi & Hs).
    destruct (IH i Hi Hs) as (passes & Hle & Hrun & Hend).
    exists passes. split; [lia|]. now split.
Qed.

(** Once the threshold is not above the floor the condition fails. *)
Lemma threshold_at_floor_stops (k : nat) :
  dgtb (thresholdAfter policy k) (detThresholdMin policy) = false ->
  searching_ (stateAfter_ k) = false.
Proof.
  intros Hfloor. unfold searching_, searching.
  rewrite (stateAfter_threshold k), Hfloor. apply andb_false_r.
Qed.

(** C7, as the code has it.  The loop repeats while the count of clean
    footprints is below the minimum and the threshold is above the floor;
    each pass multiplies the threshold by the scaling and collects from an
    empty list.  Whenever the condition fails after some number [k] of
    passes (the quota is met or the threshold is not above the floor), the
    loop ends after at most [k] passes, at the first such count; the
    function then throws exactly when the list it holds is empty and
    returns the list otherwise. *)
Theorem search_loop_result (k : nat) :
  searching_ (stateAfter_ k) = false ->
  exists passes,
    (passes <= k)%nat
    /\ (forall i, (i < passes)%nat -> searching_ (stateAfter_ i) = true)
    /\ searching_ (stateAfter_ passes) = false
    /\ s_detThreshold (stateAfter_ passes) = thresholdAfter policy passes
    /\ s_collected (stateAfter_ passes) =
       match passes with
       | O => mkCollected [] 0
       | S p =>
           fold_left (examine imageToConvolve imageToNotConvolve policy)
             (detect imageToConvolve (thresholdAfter policy p)
                (detThresholdType policy) (to_unsigned (fpNpixMin policy)))
             (mkCollected [] 0)
       end
    /\ forall fuel, (passes <= fuel)%nat ->
         searchLoop imageToConvolve imageToNotConvolve policy fuel
           (searchStart policy) = Some (stateAfter_ passes)
         /\ getCollectionOfFootprintsForPsfMatching imageToConvolve
              imageToNotConvolve policy fuel =
            Some (match footprintListOut (s_collected (stateAfter_ passes)) with
                  | [] => inl NoFootprints
                  | _ :: _ => inr (footprintListOut (s_collected (stateAfter_ passes)))
                  end).
Proof.
  intros Hstop.
  destruct (first_stop k Hstop) as (passes & Hle & Hrun & Hend).
  exists passes. split; [exact Hle|]. split; [exact Hrun|]. split; [exact Hend|].
  split; [apply stateAfter_threshold|]. split.
  - destruct passes as [|p]; [reflexivity | apply stateAfter_collected].
  - intros fuel Hfuel.
    assert (Hloop :
      searchLoop imageToConvolve imageToNotConvolve policy fuel (searchStart policy)
      = Some (stateAfter_ passes)).
    { apply (searchLoop_passes passes 0 fuel); cbn [Nat.add];
        [intros i Hi; apply Hrun; lia | exact Hend | exact Hfuel]. }
    split; [exact Hloop|].
    unfold getCollectionOfFootprintsForPsfMatching. rewrite Hloop.
    now destruct (footprintListOut (s_collected (stateAfter_ passes))).
Qed.

End FootprintProperties.

(** *** Concrete runs of the difference and of the search *)

Lemma difference_image_planes_witness :
  let result := convolveAndSubtract exTemplate exScienceMasked exKernel0
                  (ScalarBackground 3%float) true in
  Image.pixel (MaskedImage.getImage result) 1 1 = 5%float
  /\ Image.pixel (MaskedImage.getMask result) 1 1 = 5%N
  /\ Image.pixel (MaskedImage.getVariance result) 1 1 = 0.5%float.
Proof.
  cbv zeta.
  destruct (difference_image_planes exTemplate exScienceMasked exKernel0
              (ScalarBackground 3%float) true)
    as (Himage & Hmask & Hvariance & _).
  - cbn. lia.
  - cbn. lia.
  - split; reflexivity.
  - split; reflexivity.
  - split; reflexivity.
  - rewrite Himage, Hmask, Hvariance. cbv zeta.
    split; [vm_compute; reflexivity|]. split; reflexivity.
Defined.

(** The difference of the example with the fitted kernel and background is
    zero up to rounding on a pixel of the window. *)
Example difference_of_the_fit :
  match _kernel (functor exFit) with
  | Some kernel =>
      Image.pixel
        (MaskedImage.getImage
           (convolveAndSubtract exTemplate exScienceMasked kernel
              (ScalarBackground (_background (functor exFit))) false)) 1 1
      = (-0x1p-48)%float
  | None => False
  end.
Proof. vm_compute. reflexivity. Qed.

Lemma footprint_filter_witness :
  footprintListOut
    (s_collected
       (searchPass (H0 := refDetection fieldCatalogue) fieldTemplate fieldScience
          fieldPolicy (fieldState 5)))
  = [rf_grow sourceA 1 false; rf_grow sourceD 1 false].
Proof.
  destruct (footprint_filter (H0 := refDetection fieldCatalogue)
              fieldTemplate fieldScience fieldPolicy (fieldState 5))
    as (Hout & _).
  - cbn. lia.
  - intros foot Hin. cbn [getNpix refDetection].
    assert (Hlen : (length (rf_pixels foot) <= 5)%nat).
    { vm_compute in Hin.
      repeat (destruct Hin as [<- | Hin]; [cbn; lia|]). contradiction. }
    lia.
  - rewrite Hout. vm_compute. reflexivity.
Defined.

Lemma search_loop_result_witness :
  exists passes,
    (passes <= 6)%nat
    /\ getCollectionOfFootprintsForPsfMatching
         (H0 := refDetection fieldCatalogue) fieldTemplate fieldScience
         fieldPolicy 10
       = Some (match footprintListOut (s_collected (fieldState passes)) with
               | [] => inl NoFootprints
               | _ :: _ => inr (footprintListOut (s_collected (fieldState passes)))
               end).
Proof.
  destruct (search_loop_result (H0 := refDetection fieldCatalogue)
              fieldTemplate fieldScience fieldPolicy 6)
    as (passes & Hle & _ & _ & _ & _ & Hrun).
  - vm_compute. reflexivity.
  - exists passes. split; [exact Hle|].
    apply (Hrun 10%nat). lia.
Defined.

(** On the example field the search ends after 6 passes with the two clean
    footprints; on an empty field it throws. *)
Example field_search :
  option_map (fun r => match r with
                       | inl _ => []
                       | inr out => map rf_pixels out
                       end)
    (getCollectionOfFootprintsForPsfMatching
       (H0 := refDetection fieldCatalogue) fieldTemplate fieldScience
       fieldPolicy 10)
  = Some [[(5, 4); (4, 5); (5, 5); (6, 5); (5, 6)];
          [(15, 3); (14, 4); (15, 4); (16, 4); (15, 5)]]
  /\ getCollectionOfFootprintsForPsfMatching
       (H0 := refDetection []) fieldTemplate fieldScience fieldPolicy 10
     = Some (inl NoFootprints).
Proof. split; vm_compute; reflexivity. Qed.

(** *** The loop does not end for every policy *)

Lemma endless_threshold_zero (j : nat) :
  thresholdAfter endlessPolicy (1100 + j) = 0%float.
Proof.
  induction j as [|j IH].
  - vm_compute. reflexivity.
  - replace (1100 + S j)%nat with (S (1100 + j)) by lia.
    cbn [thresholdAfter]. rewrite IH. reflexivity.
Qed.

Lemma endless_threshold_above_floor (k : nat) :
  PrimFloat.ltb (-1)%float (thresholdAfter endlessPolicy k) = true.
Proof.
  destruct (Nat.lt_ge_cases k 1100) as [Hlt | Hge].
  - assert (Hall : forallb (fun k => PrimFloat.ltb (-1)%float
                                       (thresholdAfter endlessPolicy k))
                           (seq 0 1100) = true)
      by (vm_compute; reflexivity).
    rewrite forallb_forall in Hall. apply Hall, in_seq. lia.
  - replace k with (1100 + (k - 1100))%nat by lia.
    rewrite endless_threshold_zero. reflexivity.
Qed.

(** C7 as stated fails.  On a field where nothing is ever detected, with a
    threshold of 100 halved at each pass and a floor of -1, the threshold
    stays above the floor (it reaches 0.0 and stays there) and the quota is
    never met: the condition of the loop holds after every number of
    passes, and no number of passes ends the function. *)
Lemma decay_loop_can_run_forever :
  (forall k,
     searching endlessPolicy
       (stateAfter (H0 := refDetection []) fieldTemplate fieldScience
          endlessPolicy k) = true)
  /\ (forall fuel,
        getCollectionOfFootprintsForPsfMatching (H0 := refDetection [])
          fieldTemplate fieldScience endlessPolicy fuel = None).
Proof.
  assert (Hrun : forall k,
            searching endlessPolicy
              (stateAfter (H0 := refDetection []) fieldTemplate fieldScience
                 endlessPolicy k) = true).
  { intros k. unfold searching.
    rewrite (stateAfter_threshold (H0 := refDetection []) fieldTemplate
               fieldScience endlessPolicy k).
    apply andb_true_iff. split.
    - destruct k as [|k]; [reflexivity|].
      rewrite (stateAfter_collected (H0 := refDetection []) fieldTemplate
                 fieldScience endlessPolicy k).
      reflexivity.
    - apply endless_threshold_above_floor. }
  split; [exact Hrun|].
  intros fuel. unfold getCollectionOfFootprintsForPsfMatching.
  change (searchStart endlessPolicy)
    with (stateAfter (H0 := refDetection []) fieldTemplate fieldScience
            endlessPolicy 0).
  now rewrite (searchLoop_forever (H0 := refDetection []) fieldTemplate
                 fieldScience endlessPolicy Hrun fuel 0).
Qed.

(** * Further properties

    Properties of the functions around the fit: the generator of the
    delta-function basis, the reuse of a functor, the reporting of a bad
    coefficient, the size of the window, the background, the MaskedImage
    overload of the difference and the edges of the footprint search. *)

(** ** Lists built by nested loops *)

Lemma fold_append {A : Type} (g : Z -> A) (cols : list Z) :
  forall l : list A,
  fold_left (fun l col => l ++ [g col]) cols l = l ++ map g cols.
Proof.
  induction cols as [|c cols IH]; intros l; cbn [fold_left map].
  - now rewrite app_nil_r.
  - rewrite IH, <- app_assoc. reflexivity.
Qed.

Lemma fold_append_rows {A : Type} (f : Z -> Z -> A) (cols rows : list Z) :
  forall l : list A,
  fold_left (fun l row => fold_left (fun l col => l ++ [f col row]) cols l) rows l
  = l ++ flat_map (fun row => map (fun col => f col row) cols) rows.
Proof.
  induction rows as [|r rows IH]; intros l; cbn [fold_left flat_map].
  - now rewrite app_nil_r.
  - rewrite IH, fold_append, <- app_assoc. reflexivity.
Qed.

Lemma grid_length {A : Type} (f : Z -> Z -> A) (cols rows : list Z) :
  length (flat_map (fun row => map (fun col => f col row) cols) rows)
  = (length rows * length cols)%nat.
Proof.
  induction rows as [|r rows IH]; cbn [flat_map length Nat.mul]; [reflexivity|].
  now rewrite length_app, length_map, IH.
Qed.

Lemma nth_error_zrange_from (n : nat) :
  forall (lo : Z) (i : nat),
  (i < n)%nat -> nth_error (zrange_from lo n) i = Some (lo + Z.of_nat i).
Proof.
  induction n as [|n IH]; intros lo i Hi; [lia|].
  destruct i as [|i]; cbn [zrange_from nth_error].
  - f_equal. lia.
  - rewrite IH by lia. f_equal. lia.
Qed.

(** The cell [(c, k)] of a grid listed row by row is at index [k * w + c]. *)
Lemma nth_error_grid {A : Type} (f : Z -> Z -> A) (w : nat) (c0 : Z) (n : nat) :
  forall (r0 : Z) (k c : nat),
  (k < n)%nat -> (c < w)%nat ->
  nth_error
    (flat_map (fun row => map (fun col => f col row) (zrange_from c0 w))
              (zrange_from r0 n))
    (k * w + c)
  = Some (f (c0 + Z.of_nat c) (r0 + Z.of_nat k)).
Proof.
  induction n as [|n IH]; intros r0 k c Hk Hc; [lia|].
  cbn [zrange_from flat_map].
  destruct k as [|k].
  - cbn [Nat.mul Nat.add].
    rewrite nth_error_app1 by (rewrite length_map, zrange_from_length; exact Hc).
    rewrite nth_error_map, nth_error_zrange_from by exact Hc.
    cbn [option_map]. do 2 f_equal. lia.
  - rewrite nth_error_app2
      by (rewrite length_map, zrange_from_length; cbn [Nat.mul]; lia).
    rewrite length_map, zrange_from_length.
    replace (S k * w + c - w)%nat with (k * w + c)%nat by (cbn [Nat.mul]; lia).
    rewrite IH by lia. do 2 f_equal. lia.
Qed.

(** ** The basis generators *)

Section BasisProperties.
Context {K : Type} `{DeltaFunctionKernelOps K}.

(** The list the two loops build, for sizes that pass the test. *)
Lemma delta_basis_list (width height : Z) :
  1 <= width -> 1 <= height ->
  generateDeltaFunctionKernelSet width height =
  inr (flat_map
         (fun row =>
            map (fun col => newDeltaFunctionKernel width height (col, row))
                (zrange 0 (to_signed width)))
         (zrange 0 (to_signed height))).
Proof.
  intros Hw Hh. unfold generateDeltaFunctionKernelSet.
  destruct (Z.ltb_spec width 1); [lia|].
  destruct (Z.ltb_spec height 1); [lia|]. cbn [orb].
  unfold for_loop.
  rewrite (fold_append_rows
             (fun col row => newDeltaFunctionKernel width height (col, row))).
  reflexivity.
Qed.

Lemma to_signed_small (n : Z) : n < 2 ^ 31 -> to_signed n = n.
Proof. intros Hn. unfold to_signed. destruct (Z.ltb_spec n (2 ^ 31)); lia. Qed.

Lemma to_signed_large (n : Z) : 2 ^ 31 <= n < 2 ^ 32 -> to_signed n < 0.
Proof. intros Hn. unfold to_signed. destruct (Z.ltb_spec n (2 ^ 31)); lia. Qed.

(** X1.  For a width and a height from 1 to [INT_MAX] the generator returns
    [width * height] kernels, row by row: the kernel at index
    [row * width + col] is the delta function at [(col, row)] of a
    [width] x [height] kernel. *)
Theorem delta_basis_row_major (width height : Z) :
  1 <= width < 2 ^ 31 -> 1 <= height < 2 ^ 31 ->
  exists kernelBasisList : list K,
    generateDeltaFunctionKernelSet width height = inr kernelBasisList
    /\ Z.of_nat (length kernelBasisList) = width * height
    /\ forall col row,
         0 <= col < width -> 0 <= row < height ->
         nth_error kernelBasisList (Z.to_nat (row * width + col))
         = Some (newDeltaFunctionKernel width height (col, row)).
Proof.
  intros Hw Hh. eexists. split; [apply delta_basis_list; lia|].
  rewrite !to_signed_small by lia. split.
  - rewrite grid_length, !zrange_length. nia.
  - intros col row Hcol Hrow. unfold zrange. rewrite !Z.sub_0_r.
    replace (Z.to_nat (row * width + col))
      with (Z.to_nat row * Z.to_nat width + Z.to_nat col)%nat by nia.
    rewrite (nth_error_grid
               (fun col row => newDeltaFunctionKernel width height (col, row)))
      by lia.
    do 3 f_equal; lia.
Qed.

(** X2.  On [unsigned int] arguments the generator throws exactly when the
    width or the height is 0.  It returns an empty list, without any
    exception, exactly when both are positive and one of them is above
    [INT_MAX]: the loops run on the signed values, which are then
    negative. *)
Theorem delta_basis_error_or_empty (width height : Z) :
  0 <= width < 2 ^ 32 -> 0 <= height < 2 ^ 32 ->
  (generateDeltaFunctionKernelSet (K := K) width height = inl sizeNotPositive
   <-> width = 0 \/ height = 0)
  /\ (generateDeltaFunctionKernelSet (K := K) width height = inr []
      <-> 1 <= width /\ 1 <= height /\ (2 ^ 31 <= width \/ 2 ^ 31 <= height)).
Proof.
  intros Hw Hh.
  destruct (Z_lt_le_dec width 1) as [Hw0 | Hw1].
  { unfold generateDeltaFunctionKernelSet.
    destruct (Z.ltb_spec width 1); [|lia]. cbn [orb].
    split; split; try discriminate; intros; try reflexivity; lia. }
  destruct (Z_lt_le_dec height 1) as [Hh0 | Hh1].
  { unfold generateDeltaFunctionKernelSet.
    destruct (Z.ltb_spec height 1); [|lia]. rewrite orb_true_r.
    split; split; try discriminate; intros; try reflexivity; lia. }
  rewrite (delta_basis_list width height Hw1 Hh1). split.
  { split; [discriminate | lia]. }
  split.
  - intros Hnil. split; [exact Hw1|]. split; [exact Hh1|].
    destruct (Z_lt_le_dec width (2 ^ 31)) as [Hws | Hwl]; [|now left].
    destruct (Z_lt_le_dec height (2 ^ 31)) as [Hhs | Hhl]; [|now right].
    exfalso. injection Hnil as Hnil. apply (f_equal (@length K)) in Hnil.
    rewrite grid_length, !zrange_length, !to_signed_small in Hnil by lia.
    cbn [length] in Hnil. nia.
  - intros (_ & _ & Hlarge). f_equal.
    apply length_zero_iff_nil. rewrite grid_length, !zrange_length.
    destruct Hlarge as [Hl | Hl].
    + pose proof (to_signed_large width ltac:(lia)). nia.
    + pose proof (to_signed_large height ltac:(lia)).
      replace (Z.to_nat (to_signed height - 0)) with O by lia. reflexivity.
Qed.

End BasisProperties.

Lemma delta_basis_row_major_witness :
  exists kernelBasisList,
    generateDeltaFunctionKernelSet 2 1 = inr kernelBasisList
    /\ nth_error kernelBasisList 1 = Some exKernel1.
Proof.
  destruct (delta_basis_row_major (K := RefKernel) 2 1 ltac:(lia) ltac:(lia))
    as (kernelBasisList & Hgen & _ & Hnth).
  exists kernelBasisList. split; [exact Hgen|].
  apply (Hnth 1 0); lia.
Defined.

Lemma delta_basis_error_or_empty_witness :
  generateDeltaFunctionKernelSet (K := RefKernel) (2 ^ 32 - 1) 3 = inr [].
Proof.
  apply (delta_basis_error_or_empty (K := RefKernel) (2 ^ 32 - 1) 3); lia.
Defined.

(** ** Reuse of a functor *)

Section ReuseProperties.
Context {I V D K : Type} `{Arith I V D} `{EigenOps D} `{KernelOps I D K}.

Lemma solveAndStore_outcome (self : PsfMatchingFunctor) (kCols kRows : Z)
  (M : MatrixXd D) (B : VectorXd D) :
  outcome (solveAndStore self kCols kRows M B) <> Undefined
  /\ _basisList (functor (solveAndStore self kCols kRows M B)) = _basisList self.
Proof.
  pose proof (solveAndStore_cases self kCols kRows M B) as Hcases.
  cbv zeta in Hcases.
  destruct Hcases as
    [ (tr & e & _ & ->)
    | [ (tr & Soln & e & _ & _ & ->)
      | [ (tr & Soln & t & _ & _ & _ & ->)
        | [ (tr & Soln & t & _ & _ & _ & _ & ->)
          | (tr & Soln & t & _ & _ & _ & _ & ->) ]]]];
    cbn [outcome functor _basisList]; split; (discriminate || reflexivity).
Qed.

(** X5.  However the call ends, the functor still holds the basis list it
    was built on. *)
Theorem apply_keeps_basis_list (self : PsfMatchingFunctor)
  (imageToConvolve imageToNotConvolve : Image.t I) (varianceEstimate : Image.t V)
  (kCols kRows : Z) :
  _basisList (functor (apply self imageToConvolve imageToNotConvolve
                         varianceEstimate kCols kRows))
  = _basisList self.
Proof.
  unfold apply, reset.
  destruct (assemble (_basisList self) imageToConvolve imageToNotConvolve
              varianceEstimate) as [[M B]|].
  - apply solveAndStore_outcome.
  - reflexivity.
Qed.

(** X6.  [reset] clears nothing, but what a call does is decided by the
    basis list and the arguments alone: two functors on the same basis
    list end the same way with the same trace, and when the fit returns
    they hold the same four results, whatever each held before. *)
Theorem fit_ignores_stored_results (self self' : PsfMatchingFunctor)
  (imageToConvolve imageToNotConvolve : Image.t I) (varianceEstimate : Image.t V)
  (kCols kRows : Z) :
  _basisList self = _basisList self' ->
  let r := apply self imageToConvolve imageToNotConvolve varianceEstimate
             kCols kRows in
  let r' := apply self' imageToConvolve imageToNotConvolve varianceEstimate
              kCols kRows in
  outcome r = outcome r'
  /\ traces r = traces r'
  /\ (outcome r = Returned -> functor r = functor r').
Proof.
  intros Hbasis. cbv zeta. unfold apply, reset. rewrite <- Hbasis.
  destruct (assemble (_basisList self) imageToConvolve imageToNotConvolve
              varianceEstimate) as [[M B]|].
  2:{ cbn [outcome traces]. repeat split. discriminate. }
  unfold solveAndStore. rewrite <- Hbasis.
  destruct (solveCascade M B) as [tr [e | Soln]].
  { cbn [outcome traces]. repeat split. discriminate. }
  destruct (translate kCols kRows Soln (errorCovariance M)) as [e | t].
  { cbn [outcome traces]. repeat split. discriminate. }
  destruct (disnan (m_coeff (errorCovariance M) _ _)).
  { cbn [outcome traces]. repeat split. discriminate. }
  destruct (dltb (m_coeff (errorCovariance M) _ _) d0).
  { cbn [outcome traces]. repeat split. discriminate. }
  cbn [outcome traces functor _basisList _kernel _kernelError].
  repeat split.
Qed.

(** X7.  Calling the fit again on the functor it left, with the same
    arguments, changes nothing and ends the same way: the second call
    gives the state, the trace and the outcome of the first. *)
Theorem apply_twice (self : PsfMatchingFunctor)
  (imageToConvolve imageToNotConvolve : Image.t I) (varianceEstimate : Image.t V)
  (kCols kRows : Z) :
  let r := apply self imageToConvolve imageToNotConvolve varianceEstimate
             kCols kRows in
  apply (functor r) imageToConvolve imageToNotConvolve varianceEstimate
    kCols kRows = r.
Proof.
  cbv zeta. unfold apply, reset.
  destruct (assemble (_basisList self) imageToConvolve imageToNotConvolve
              varianceEstimate) as [[M B]|] eqn:Hass.
  2:{ cbn [functor]. now rewrite Hass. }
  pose proof (solveAndStore_cases self kCols kRows M B) as Hcases.
  cbv zeta in Hcases.
  destruct Hcases as
    [ (tr & e & Hsolve & Hr)
    | [ (tr & Soln & e & Hsolve & Htr & Hr)
      | [ (tr & Soln & t & Hsolve & Htr & Hnan & Hr)
        | [ (tr & Soln & t & Hsolve & Htr & Hnan & Hneg & Hr)
          | (tr & Soln & t & Hsolve & Htr & Hnan & Hneg & Hr) ]]]];
    rewrite Hr; cbn [functor _basisList]; rewrite Hass.
  - exact Hr.
  - exact Hr.
  - unfold solveAndStore. cbn [_basisList _background _backgroundError].
    rewrite Hsolve, Htr.
    replace (Z.of_nat (length (_basisList self)) + 1 - 1)
      with (Z.of_nat (length (_basisList self))) by lia.
    now rewrite Hnan.
  - unfold solveAndStore. cbn [_basisList _background _backgroundError].
    rewrite Hsolve, Htr.
    replace (Z.of_nat (length (_basisList self)) + 1 - 1)
      with (Z.of_nat (length (_basisList self))) by lia.
    now rewrite Hnan, Hneg.
  - unfold solveAndStore. cbn [_basisList _background _backgroundError].
    rewrite Hsolve, Htr.
    replace (Z.of_nat (length (_basisList self)) + 1 - 1)
      with (Z.of_nat (length (_basisList self))) by lia.
    now rewrite Hnan, Hneg.
Qed.

End ReuseProperties.

(** ** Which coefficient a failed fit reports *)

Section ReportProperties.
Context {I V D K : Type} `{Arith I V D} `{EigenOps D} `{KernelOps I D K}.

Lemma firstFailure_app (Soln : VectorXd D) (Error2 : MatrixXd D) (l1 l2 : list Z) :
  firstFailure Soln Error2 (l1 ++ l2) =
  match firstFailure Soln Error2 l1 with
  | Some e => Some e
  | None => firstFailure Soln Error2 l2
  end.
Proof.
  induction l1 as [|i l1 IH]; cbn [app firstFailure]; [reflexivity|].
  now destruct (checkCoefficient Soln Error2 i).
Qed.

Lemma firstFailure_first (Soln : VectorXd D) (Error2 : MatrixXd D) (n idx : Z)
  (e : Exception) :
  0 <= idx < n ->
  (forall i, 0 <= i < idx -> checkCoefficient Soln Error2 i = None) ->
  checkCoefficient Soln Error2 idx = Some e ->
  firstFailure Soln Error2 (zrange 0 n) = Some e.
Proof.
  intros Hidx Hbefore Hat.
  rewrite (zrange_app 0 idx n) by lia.
  rewrite (zrange_cons idx n) by lia.
  rewrite firstFailure_app.
  replace (firstFailure Soln Error2 (zrange 0 idx)) with (@None (Exception (D := D))).
  - cbn [firstFailure]. now rewrite Hat.
  - symmetry. apply firstFailure_None. intros i Hi.
    apply in_zrange in Hi. now apply Hbefore.
Qed.

(** X8.  When the solver has answered, the tests run in index order and
    the first index at which one fails decides the exception: at that
    index a NaN coefficient of the solution is reported before a NaN
    variance, and a NaN variance before a negative one, whatever the later
    indices and the background hold.  The functor is left as it was. *)
Theorem first_invalid_coefficient_is_reported (self : PsfMatchingFunctor)
  (imageToConvolve imageToNotConvolve : Image.t I) (varianceEstimate : Image.t V)
  (kCols kRows : Z) (M : MatrixXd D) (B : VectorXd D)
  (tr : list string) (Soln : VectorXd D) (idx : Z) :
  assemble (_basisList self) imageToConvolve imageToNotConvolve varianceEstimate
    = Some (M, B) ->
  solveCascade M B = (tr, inr Soln) ->
  0 <= kCols -> 0 <= kRows -> 0 <= idx < kCols * kRows ->
  let E := errorCovariance M in
  let r := apply self imageToConvolve imageToNotConvolve varianceEstimate
             kCols kRows in
  (forall i, 0 <= i < idx ->
     disnan (v_coeff Soln i) = false
     /\ disnan (m_coeff E i i) = false
     /\ dltb (m_coeff E i i) d0 = false) ->
  disnan (v_coeff Soln idx) || disnan (m_coeff E idx idx)
    || dltb (m_coeff E idx idx) d0 = true ->
  outcome r =
    Threw (if disnan (v_coeff Soln idx) then KernelSolutionNaN idx
           else if disnan (m_coeff E idx idx) then KernelUncertaintyNaN idx
           else KernelNegativeVariance idx (m_coeff E idx idx))
  /\ functor r = self.
Proof.
  intros Hass Hsolve Hc Hr Hidx. cbv zeta. intros Hbefore Hat.
  unfold apply, reset. rewrite Hass. unfold solveAndStore. rewrite Hsolve.
  rewrite (translate_spec Soln (errorCovariance M) kCols kRows Hc Hr).
  rewrite (firstFailure_first Soln (errorCovariance M) (kCols * kRows) idx
             (if disnan (v_coeff Soln idx) then KernelSolutionNaN idx
              else if disnan (m_coeff (errorCovariance M) idx idx)
                   then KernelUncertaintyNaN idx
                   else KernelNegativeVariance idx
                          (m_coeff (errorCovariance M) idx idx))).
  - cbn [outcome functor]. split; reflexivity.
  - exact Hidx.
  - intros i Hi. apply checkCoefficient_None. now apply Hbefore.
  - unfold checkCoefficient.
    destruct (disnan (v_coeff Soln idx)); [reflexivity|].
    destruct (disnan (m_coeff (errorCovariance M) idx idx)); [reflexivity|].
    destruct (dltb (m_coeff (errorCovariance M) idx idx) d0);
      [reflexivity | discriminate Hat].
Qed.

(** X9.  The generator and the translation loop of the fit agree on the
    grid.  The basis list generated for [kernelCols] x [kernelRows], both
    positive and with a product that an [int] holds, has
    [kernelCols * kernelRows] kernels; so the loop reads the solution and
    the error covariance at the indices of these kernels and at no other,
    and a translation that ends without an exception has filled one
    coefficient for each kernel of the list, in the order of the list. *)
Theorem delta_basis_fits_policy_grid `{DeltaFunctionKernelOps K}
  (kCols kRows : Z) (basisList : list K) :
  1 <= kCols -> 1 <= kRows -> kCols * kRows < 2 ^ 31 ->
  generateDeltaFunctionKernelSet kCols kRows = inr basisList ->
  let N := Z.of_nat (length basisList) in
  kCols * kRows = N
  /\ forall (Soln : VectorXd D) (Error2 : MatrixXd D) (t : Translate),
       translate kCols kRows Soln Error2 = inr t ->
       t_idx t = N
       /\ kValues t = map (v_coeff Soln) (zrange 0 N)
       /\ kErrValues t
          = map (fun idx => dsqrt (m_coeff Error2 idx idx)) (zrange 0 N)
       /\ length (kValues t) = length basisList
       /\ length (kErrValues t) = length basisList.
Proof.
  intros Hc Hr Hint Hgen. cbv zeta.
  assert (Hcs : kCols < 2 ^ 31) by nia.
  assert (Hrs : kRows < 2 ^ 31) by nia.
  assert (Hlen : kCols * kRows = Z.of_nat (length basisList)).
  { rewrite (delta_basis_list kCols kRows) in Hgen by lia.
    injection Hgen as <-.
    rewrite grid_length, !zrange_length, !to_signed_small by lia. nia. }
  split; [exact Hlen|].
  intros Soln Error2 t Htr.
  rewrite (translate_spec Soln Error2 kCols kRows) in Htr by lia.
  destruct (firstFailure Soln Error2 (zrange 0 (kCols * kRows)));
    [discriminate|].
  injection Htr as <-. cbn [t_idx kValues kErrValues]. rewrite Hlen.
  split; [reflexivity|]. split; [reflexivity|]. split; [reflexivity|].
  rewrite !length_map, zrange_length. lia.
Qed.

End ReportProperties.

(** ** The size of the window *)

Section WindowProperties.
Context {I V D K : Type} `{Arith I V D} `{EigenOps D} `{KernelOps I D K}.

Lemma windowPixels_length (w : Window) :
  length (windowPixels w)
  = (Z.to_nat (endRow w - startRow w) * Z.to_nat (endCol w - startCol w))%nat.
Proof.
  unfold windowPixels.
  rewrite (grid_length (fun col row => (col, row))), !zrange_length. reflexivity.
Qed.

(** X10.  The walk takes [(width - kw + 1) * (height - kh + 1)] pixels
    for a first basis kernel of [kw] x [kh] pixels, wherever the centre of
    the kernel is, and none when the image is narrower or lower than the
    kernel. *)
Theorem window_pixel_count (kiter : K) (citer : Image.t I) :
  length (windowPixels (validWindow kiter citer))
  = (Z.to_nat (Image.getHeight citer - kGetHeight kiter + 1)
     * Z.to_nat (Image.getWidth citer - kGetWidth kiter + 1))%nat.
Proof.
  rewrite windowPixels_length. unfold validWindow.
  cbn [startCol startRow endCol endRow]. f_equal; f_equal; lia.
Qed.

End WindowProperties.

Lemma fit_ignores_stored_results_witness :
  functor (apply (H0 := refEigen) (mkFunctor exBasis 7%float 8%float None None)
             exTemplate exScience exVariance 2 1)
  = functor exFit.
Proof.
  destruct (fit_ignores_stored_results (H0 := refEigen)
              (newPsfMatchingFunctor exBasis)
              (mkFunctor exBasis 7%float 8%float None None)
              exTemplate exScience exVariance 2 1 eq_refl)
    as (_ & _ & Hsame).
  symmetry. apply Hsame. exact (proj1 exFit_returns).
Defined.

Lemma first_invalid_coefficient_is_reported_witness :
  outcome (replay nanKernelScript) = Threw (KernelSolutionNaN 0)
  /\ functor (replay nanKernelScript) = newPsfMatchingFunctor exBasis1.
Proof.
  pose proof (assemble_fold (deltaFunctionKernel 1 1 0 0) []
                exTemplate exScience exVariance) as Hass.
  cbv zeta in Hass.
  match type of Hass with
  | _ = Some (?M, ?B) =>
      pose proof (first_invalid_coefficient_is_reported
                    (H0 := scriptedEigen nanKernelScript)
                    (newPsfMatchingFunctor exBasis1)
                    exTemplate exScience exVariance 1 1 M B []
                    (Ref.vector_of [PrimFloat.nan; 3%float]) 0
                    Hass eq_refl ltac:(lia) ltac:(lia) ltac:(lia)) as Hfit
  end.
  cbv zeta in Hfit. apply Hfit.
  - intros i Hi. lia.
  - reflexivity.
Defined.

Lemma delta_basis_fits_policy_grid_witness :
  2 * 1 = Z.of_nat (length exBasis).
Proof.
  apply (delta_basis_fits_policy_grid (I := float) (V := float) (D := float)
           2 1 exBasis); [lia | lia | lia | reflexivity].
Defined.

(** ** The background *)

Section BackgroundProperties.
Context {I V D K : Type} `{Arith I V D} `{KernelOps I D K}.

(** X12.  The background is added at positions counted from the first
    pixel of the image: the origin [XY0] of the image in its parent is
    never read, so moving it changes no pixel of the result (the source
    notes that the routine assumes coordinates that start at (0, 0)). *)
Theorem background_ignores_origin (image : Image.t I) (background : Background)
  (x0 y0 : Z) :
  0 <= Image.getWidth image -> 0 <= Image.getHeight image ->
  forall x y,
    Image.pixel (addSomethingToImage (Image.setXY0 image x0 y0) background) x y
    = Image.pixel (addSomethingToImage image background) x y.
Proof.
  intros Hw Hh x y. destruct background as [value | function].
  - cbn [addSomethingToImage]. now destruct (dneb value d0).
  - destruct (addFunction_spec function image Hw Hh) as (_ & _ & _ & _ & Hpix).
    destruct (addFunction_spec function (Image.setXY0 image x0 y0) Hw Hh)
      as (_ & _ & _ & _ & Hpix').
    cbv zeta in Hpix, Hpix'. rewrite Hpix, Hpix'. reflexivity.
Qed.

End BackgroundProperties.

Lemma background_ignores_origin_witness :
  Image.pixel
    (addSomethingToImage (Image.setXY0 exTemplate 100 200)
       (FunctionBackground exGradient)) 2 1
  = Image.pixel (addSomethingToImage exTemplate (FunctionBackground exGradient)) 2 1.
Proof.
  apply (background_ignores_origin exTemplate (FunctionBackground exGradient)
           100 200); cbn; lia.
Defined.

(** ** The MaskedImage overload of the difference *)

Section DifferenceMaskedProperties.
Context {I V D K : Type} `{Arith I V D} `{KernelOps I D K}
        `{MaskedImageOps I V D K}.

(** X13.  When the operations of afw on MaskedImages act on the image
    plane as the operations on Images do (convolution, subtraction and
    scaling of the image plane, whatever they do to the mask and the
    variance), the overload that takes the template as a MaskedImage
    returns the same image plane as the overload that takes the image
    plane of the template alone. *)
Theorem masked_template_same_image_plane
  (imageToConvolve imageToNotConvolve : MaskedImage.t I V) (convolutionKernel : K)
  (background : Background) (invert : bool) :
  (forall out input kernel,
     MaskedImage.getImage (convolveMaskedImage out input kernel)
     = Image.withPixels (MaskedImage.getImage out)
         (convolve (MaskedImage.getImage input) kernel)) ->
  (forall lhs rhs,
     MaskedImage.getImage (maskedImageMinus lhs rhs)
     = Image.zipWith isub (MaskedImage.getImage lhs) (MaskedImage.getImage rhs)) ->
  (forall lhs (c : D),
     MaskedImage.getImage (maskedImageTimes lhs c)
     = Image.mapPixels (fun p => imul_d p c) (MaskedImage.getImage lhs)) ->
  MaskedImage.getImage
    (convolveAndSubtractMasked imageToConvolve imageToNotConvolve
       convolutionKernel background invert)
  = MaskedImage.getImage
      (convolveAndSubtract (MaskedImage.getImage imageToConvolve)
         imageToNotConvolve convolutionKernel background invert).
Proof.
  intros Hconvolve Hminus Htimes.
  unfold convolveAndSubtractMasked, convolveAndSubtract.
  destruct invert; cbn [MaskedImage.getImage].
  - rewrite Htimes, Hminus. cbn [MaskedImage.getImage]. now rewrite Hconvolve.
  - rewrite Hminus. cbn [MaskedImage.getImage]. now rewrite Hconvolve.
Qed.

End DifferenceMaskedProperties.

Lemma masked_template_same_image_plane_witness :
  MaskedImage.getImage
    (convolveAndSubtractMasked exTemplateMasked exScienceMasked exKernel0
       (ScalarBackground 3%float) true)
  = MaskedImage.getImage
      (convolveAndSubtract exTemplate exScienceMasked exKernel0
         (ScalarBackground 3%float) true).
Proof.
  apply (masked_template_same_image_plane exTemplateMasked exScienceMasked
           exKernel0 (ScalarBackground 3%float) true).
  - intros out input kernel. reflexivity.
  - intros lhs rhs. reflexivity.
  - intros lhs c. reflexivity.
Defined.

(** ** The edges of the footprint search *)

Lemma to_unsigned_negative (n : Z) : - 2 ^ 32 <= n < 0 -> to_unsigned n = n + 2 ^ 32.
Proof.
  intros Hn. unfold to_unsigned.
  rewrite <- (Z_mod_plus_full n 1 (2 ^ 32)).
  apply Z.mod_small. lia.
Qed.

Section SearchEdges.
Context {I V D FP : Type} `{Arith I V D} `{DetectionOps I V D FP}.
Variable imageToConvolve imageToNotConvolve : MaskedImage.t I V.
Variable policy : Policy D.

(** The counter is the length of the list, after every region. *)
Lemma examine_count (fps : list FP) :
  forall acc,
  nCleanFp acc = Z.of_nat (length (footprintListOut acc)) ->
  nCleanFp (fold_left (examine imageToConvolve imageToNotConvolve policy) fps acc)
  = Z.of_nat
      (length
         (footprintListOut
            (fold_left (examine imageToConvolve imageToNotConvolve policy) fps acc))).
Proof.
  induction fps as [|foot fps IH]; intros acc Hacc; cbn [fold_left]; [exact Hacc|].
  apply IH. unfold examine.
  destruct (to_unsigned (getNpix foot) >? to_unsigned (fpNpixMax policy));
    [exact Hacc|].
  destruct (negb _); [exact Hacc|].
  destruct (0 <? findSetBits (MaskedImage.getMask imageToConvolve) _)%N;
    [exact Hacc|].
  destruct (0 <? findSetBits (MaskedImage.getMask imageToNotConvolve) _)%N;
    [exact Hacc|].
  cbn [nCleanFp footprintListOut]. rewrite length_app. cbn [length]. lia.
Qed.

(** A loop that ends has run some number of passes within its fuel and
    ends on a state where the condition fails. *)
Lemma searchLoop_returns (fuel : nat) :
  forall (j : nat) (st : Search),
  searchLoop imageToConvolve imageToNotConvolve policy fuel
    (stateAfter imageToConvolve imageToNotConvolve policy j) = Some st ->
  exists k, (k <= fuel)%nat
    /\ st = stateAfter imageToConvolve imageToNotConvolve policy (j + k)
    /\ searching policy st = false.
Proof.
  induction fuel as [|fuel IH]; intros j st; cbn [searchLoop];
    destruct (searching policy
                (stateAfter imageToConvolve imageToNotConvolve policy j))
      eqn:Hs; try discriminate.
  - intros [= <-]. exists O. rewrite Nat.add_0_r. now split; [lia|].
  - change (searchPass imageToConvolve imageToNotConvolve policy
              (stateAfter imageToConvolve imageToNotConvolve policy j))
      with (stateAfter imageToConvolve imageToNotConvolve policy (S j)).
    intros Hrun. destruct (IH (S j) st Hrun) as (k & Hk & Hst & Hend).
    exists (S k). split; [lia|]. split; [|exact Hend].
    rewrite Hst. f_equal. lia.
  - intros [= <-]. exists O. rewrite Nat.add_0_r. now split; [lia|].
Qed.

(** X14.  When no clean footprint is asked for, or when the threshold is
    not above the floor to begin with (a NaN threshold is not), the loop
    body never runs: no detection is made and the function throws for
    want of footprints, whatever the images hold. *)
Theorem search_without_a_pass (fuel : nat) :
  minCleanFp policy <= 0
  \/ dgtb (detThreshold policy) (detThresholdMin policy) = false ->
  searchLoop imageToConvolve imageToNotConvolve policy fuel (searchStart policy)
  = Some (searchStart policy)
  /\ getCollectionOfFootprintsForPsfMatching imageToConvolve imageToNotConvolve
       policy fuel = Some (inl NoFootprints).
Proof.
  intros Hidle.
  assert (Hstop : searching (I := I) (V := V) policy (searchStart (FP := FP) policy)
                  = false).
  { unfold searching, searchStart. cbn [s_collected s_detThreshold nCleanFp].
    destruct Hidle as [Hquota | Hfloor].
    - destruct (Z.ltb_spec 0 (minCleanFp policy)); [lia | reflexivity].
    - rewrite Hfloor. apply andb_false_r. }
  assert (Hloop : searchLoop imageToConvolve imageToNotConvolve policy fuel
                    (searchStart policy) = Some (searchStart policy)).
  { destruct fuel; cbn [searchLoop]; now rewrite Hstop. }
  split; [exact Hloop|].
  unfold getCollectionOfFootprintsForPsfMatching. rewrite Hloop. reflexivity.
Qed.

(** X15.  A list that the function returns is not empty and is what the
    last pass collected, from the detections at the threshold of that pass
    alone; it holds fewer footprints than [minCleanFp] only when the next
    threshold is not above the floor. *)
Theorem returned_footprints_come_from_last_pass (fuel : nat) (out : list FP) :
  getCollectionOfFootprintsForPsfMatching imageToConvolve imageToNotConvolve
    policy fuel = Some (inr out) ->
  exists k,
    (k < fuel)%nat
    /\ out =
       footprintListOut
         (fold_left (examine imageToConvolve imageToNotConvolve policy)
            (detect imageToConvolve (thresholdAfter policy k)
               (detThresholdType policy) (to_unsigned (fpNpixMin policy)))
            (mkCollected [] 0))
    /\ out <> []
    /\ (minCleanFp policy <= Z.of_nat (length out)
        \/ dgtb (thresholdAfter policy (S k)) (detThresholdMin policy) = false).
Proof.
  unfold getCollectionOfFootprintsForPsfMatching.
  destruct (searchLoop imageToConvolve imageToNotConvolve policy fuel
              (searchStart policy)) as [st|] eqn:Hloop; [|discriminate].
  destruct (footprintListOut (s_collected st)) as [|foot rest] eqn:Hout;
    [discriminate|].
  intros [= <-].
  change (searchStart policy)
    with (stateAfter imageToConvolve imageToNotConvolve policy 0) in Hloop.
  destruct (searchLoop_returns fuel 0 st Hloop) as (passes & Hfuel & Hst & Hend).
  cbn [Nat.add] in Hst.
  destruct passes as [|k].
  { subst st. discriminate Hout. }
  exists k. split; [lia|].
  pose proof (stateAfter_collected imageToConvolve imageToNotConvolve policy k)
    as Hcollected.
  pose proof (stateAfter_threshold imageToConvolve imageToNotConvolve policy (S k))
    as Hthreshold.
  rewrite <- Hst in Hcollected, Hthreshold.
  split; [now rewrite <- Hcollected, Hout|]. split; [discriminate|].
  unfold searching in Hend. rewrite Hthreshold in Hend.
  apply andb_false_iff in Hend. destruct Hend as [Hquota | Hfloor];
    [left | now right].
  assert (Hcount : nCleanFp (s_collected st)
                   = Z.of_nat (length (footprintListOut (s_collected st)))).
  { rewrite Hcollected. apply examine_count. reflexivity. }
  rewrite Hout in Hcount. rewrite Hcount in Hquota.
  destruct (Z.ltb_spec (Z.of_nat (length (foot :: rest))) (minCleanFp policy));
    [discriminate | lia].
Qed.

(** X16.  The maximal size is read into an [unsigned int]: a negative
    [fpNpixMax] of the policy becomes a bound above every [int], and the
    size test then drops no region. *)
Theorem negative_fpNpixMax_disables_size_test (acc : Collected) (foot : FP) :
  - 2 ^ 31 <= fpNpixMax policy < 0 ->
  0 <= getNpix foot < 2 ^ 31 ->
  examine imageToConvolve imageToNotConvolve policy acc foot =
  if extractable imageToConvolve imageToNotConvolve policy foot
     && (findSetBits (MaskedImage.getMask imageToConvolve) (grown policy foot)
         =? 0)%N
     && (findSetBits (MaskedImage.getMask imageToNotConvolve) (grown policy foot)
         =? 0)%N
  then mkCollected (footprintListOut acc ++ [grown policy foot]) (nCleanFp acc + 1)
  else acc.
Proof.
  intros Hmax Hnpix. unfold examine, extractable, grown.
  rewrite to_unsigned_small, to_unsigned_negative by lia.
  rewrite fpGrowPix_eq.
  destruct (Z.gtb_spec (getNpix foot) (fpNpixMax policy + 2 ^ 32)); [lia|].
  destruct (subImage imageToConvolve _ && subImage imageToNotConvolve _);
    cbn [negb andb]; [|reflexivity].
  destruct (findSetBits (MaskedImage.getMask imageToConvolve) _);
    cbn [N.ltb N.compare N.eqb andb]; [|reflexivity].
  destruct (findSetBits (MaskedImage.getMask imageToNotConvolve) _);
    cbn [N.ltb N.compare N.eqb]; reflexivity.
Qed.

End SearchEdges.

Lemma search_without_a_pass_witness :
  getCollectionOfFootprintsForPsfMatching (H0 := refDetection fieldCatalogue)
    fieldTemplate fieldScience idlePolicy 10
  = Some (inl NoFootprints).
Proof.
  apply (search_without_a_pass (H0 := refDetection fieldCatalogue)
           fieldTemplate fieldScience idlePolicy 10).
  left. cbn. lia.
Defined.

Lemma returned_footprints_come_from_last_pass_witness :
  exists k,
    (k < 10)%nat
    /\ [rf_grow sourceA 1 false; rf_grow sourceD 1 false]
       = footprintListOut
           (fold_left (examine (H0 := refDetection fieldCatalogue)
                         fieldTemplate fieldScience fieldPolicy)
              (refDetect fieldCatalogue (thresholdAfter fieldPolicy k) 1)
              (mkCollected [] 0)).
Proof.
  destruct (returned_footprints_come_from_last_pass
              (H0 := refDetection fieldCatalogue)
              fieldTemplate fieldScience fieldPolicy 10
              [rf_grow sourceA 1 false; rf_grow sourceD 1 false])
    as (k & Hk & Hout & _).
  - vm_compute. reflexivity.
  - exists k. split; [exact Hk | exact Hout].
Defined.

Lemma negative_fpNpixMax_disables_size_test_witness :
  examine (H0 := refDetection fieldCatalogue) fieldTemplate fieldScience
    unboundedPolicy (mkCollected [] 0) sourceE
  = mkCollected [rf_grow sourceE 1 false] 1.
Proof.
  rewrite (negative_fpNpixMax_disables_size_test
             (H0 := refDetection fieldCatalogue) fieldTemplate fieldScience
             unboundedPolicy (mkCollected [] 0) sourceE).
  - vm_compute. reflexivity.
  - cbn. lia.
  - cbn. lia.
Defined.

(** ** What the uncertainties depend on *)

Section UncertaintyProperties.
Context {I V D K : Type} `{Arith I V D} `{EigenOps D} `{KernelOps I D K}.

(** The not-convolved pixel enters [B] alone. *)
Lemma accumulate_i_M_ignores_science (ncImage ncImage' : I) (iVariance : D)
  (nParameters : Z) (citeri : list (Locator.t I)) :
  forall (kidxi : Z) (M : MatrixXd D) (B B' : VectorXd D),
  fst (accumulate_i ncImage iVariance nParameters citeri kidxi (M, B))
  = fst (accumulate_i ncImage' iVariance nParameters citeri kidxi (M, B')).
Proof.
  induction citeri as [|loci rest IH]; intros kidxi M B B';
    cbn [accumulate_i fst snd]; [reflexivity | apply IH].
Qed.

Lemma accumulatePixel_M_ignores_science (nParameters : Z)
  (imageToConvolve imageToNotConvolve imageToNotConvolve' : Image.t I)
  (varianceEstimate : Image.t V) (convolvedImageList : list (Image.t I))
  (M : MatrixXd D) (B B' : VectorXd D) (p : Z * Z) :
  fst (accumulatePixel nParameters imageToConvolve imageToNotConvolve
         varianceEstimate convolvedImageList (M, B) p)
  = fst (accumulatePixel nParameters imageToConvolve imageToNotConvolve'
           varianceEstimate convolvedImageList (M, B') p).
Proof.
  unfold accumulatePixel, pixelStep, walkAt.
  cbn [fst snd wM wB imageToNotConvolveLocator varianceLocator
       convolvedLocatorList].
  now rewrite (accumulate_i_M_ignores_science
                 (Locator.deref (Locator.xy_at imageToNotConvolve (fst p) (snd p)))
                 (Locator.deref (Locator.xy_at imageToNotConvolve' (fst p) (snd p)))
                 _ _ _ _ M B B').
Qed.

Lemma fold_M_ignores_science (nParameters : Z)
  (imageToConvolve imageToNotConvolve imageToNotConvolve' : Image.t I)
  (varianceEstimate : Image.t V) (convolvedImageList : list (Image.t I))
  (ps : list (Z * Z)) :
  forall (M : MatrixXd D) (B B' : VectorXd D),
  fst (fold_left
         (accumulatePixel nParameters imageToConvolve imageToNotConvolve
            varianceEstimate convolvedImageList) ps (M, B))
  = fst (fold_left
           (accumulatePixel nParameters imageToConvolve imageToNotConvolve'
              varianceEstimate convolvedImageList) ps (M, B')).
Proof.
  induction ps as [|p ps IH]; intros M B B'; cbn [fold_left]; [reflexivity|].
  pose proof (accumulatePixel_M_ignores_science nParameters imageToConvolve
                imageToNotConvolve imageToNotConvolve' varianceEstimate
                convolvedImageList M B B' p) as Hstep.
  destruct (accumulatePixel nParameters imageToConvolve imageToNotConvolve
              varianceEstimate convolvedImageList (M, B) p) as [M1 B1].
  destruct (accumulatePixel nParameters imageToConvolve imageToNotConvolve'
              varianceEstimate convolvedImageList (M, B') p) as [M1' B1'].
  cbn [fst] in Hstep. subst M1'. apply IH.
Qed.

(** X17.  The science image enters the right-hand side [B] alone: the
    matrix [M] of the normal equations is the same for any two science
    images, and so are the uncertainties of two fits that return, the
    kernel of uncertainties and the background error, which are taken from
    [M]. *)
Theorem uncertainties_ignore_science_image (self : PsfMatchingFunctor)
  (imageToConvolve imageToNotConvolve imageToNotConvolve' : Image.t I)
  (varianceEstimate : Image.t V) (kCols kRows : Z) :
  0 <= kCols -> 0 <= kRows ->
  let r := apply self imageToConvolve imageToNotConvolve varianceEstimate
             kCols kRows in
  let r' := apply self imageToConvolve imageToNotConvolve' varianceEstimate
              kCols kRows in
  (forall M B M' B',
     assemble (_basisList self) imageToConvolve imageToNotConvolve
       varianceEstimate = Some (M, B) ->
     assemble (_basisList self) imageToConvolve imageToNotConvolve'
       varianceEstimate = Some (M', B') ->
     M = M')
  /\ (outcome r = Returned -> outcome r' = Returned ->
      _kernelError (functor r) = _kernelError (functor r')
      /\ _backgroundError (functor r) = _backgroundError (functor r')).
Proof.
  intros Hc Hr. cbv zeta.
  assert (Hmatrix : forall M B M' B',
            assemble (_basisList self) imageToConvolve imageToNotConvolve
              varianceEstimate = Some (M, B) ->
            assemble (_basisList self) imageToConvolve imageToNotConvolve'
              varianceEstimate = Some (M', B') ->
            M = M').
  { intros M B M' B' Hass Hass'.
    destruct (_basisList self) as [|kiter rest]; [discriminate Hass|].
    pose proof (assemble_fold kiter rest imageToConvolve imageToNotConvolve
                  varianceEstimate) as Hfold.
    pose proof (assemble_fold kiter rest imageToConvolve imageToNotConvolve'
                  varianceEstimate) as Hfold'.
    cbv zeta in Hfold, Hfold'.
    rewrite Hfold in Hass. rewrite Hfold' in Hass'.
    injection Hass as <- _. injection Hass' as <- _.
    f_equal. apply fold_M_ignores_science. }
  split; [exact Hmatrix|].
  unfold apply, reset.
  destruct (assemble (_basisList self) imageToConvolve imageToNotConvolve
              varianceEstimate) as [[M B]|] eqn:Hass; [|discriminate].
  destruct (assemble (_basisList self) imageToConvolve imageToNotConvolve'
              varianceEstimate) as [[M' B']|] eqn:Hass'; [|discriminate].
  assert (HM : M = M') by (apply (Hmatrix M B M' B'); reflexivity).
  subst M'.
  pose proof (solveAndStore_cases self kCols kRows M B) as Hcases.
  pose proof (solveAndStore_cases self kCols kRows M B') as Hcases'.
  cbv zeta in Hcases, Hcases'.
  destruct Hcases as
    [ (tr & e & _ & ->)
    | [ (tr & Soln & e & _ & _ & ->)
      | [ (tr & Soln & t & _ & _ & _ & ->)
        | [ (tr & Soln & t & _ & _ & _ & _ & ->)
          | (tr & Soln & t & _ & Htr & _ & _ & ->) ]]]];
    cbn [outcome]; try discriminate.
  destruct Hcases' as
    [ (tr' & e' & _ & ->)
    | [ (tr' & Soln' & e' & _ & _ & ->)
      | [ (tr' & Soln' & t' & _ & _ & _ & ->)
        | [ (tr' & Soln' & t' & _ & _ & _ & _ & ->)
          | (tr' & Soln' & t' & _ & Htr' & _ & _ & ->) ]]]];
    cbn [outcome]; try discriminate.
  intros _ _. cbn [functor _kernelError _backgroundError].
  rewrite (translate_spec Soln (errorCovariance M) kCols kRows Hc Hr) in Htr.
  rewrite (translate_spec Soln' (errorCovariance M) kCols kRows Hc Hr) in Htr'.
  destruct (firstFailure Soln (errorCovariance M) (zrange 0 (kCols * kRows)));
    [discriminate|].
  destruct (firstFailure Soln' (errorCovariance M) (zrange 0 (kCols * kRows)));
    [discriminate|].
  injection Htr as <-. injection Htr' as <-. cbn [kErrValues].
  split; reflexivity.
Qed.

End UncertaintyProperties.

Lemma uncertainties_ignore_science_image_witness :
  _backgroundError
    (functor (apply (H0 := refEigen) (newPsfMatchingFunctor exBasis)
                exTemplate exTemplate exVariance 2 1))
  = _backgroundError (functor exFit).
Proof.
  destruct (uncertainties_ignore_science_image (H0 := refEigen)
              (newPsfMatchingFunctor exBasis) exTemplate exTemplate exScience
              exVariance 2 1 ltac:(lia) ltac:(lia))
    as (_ & Hsame).
  apply Hsame.
  - vm_compute. reflexivity.
  - exact (proj1 exFit_returns).
Defined.
